(** * Winwheel: segment geometry, segment list, rotation and animation targets

    A shallow embedding of [src/lib/Winwheel.ts].

    Numbers.  A JavaScript number is modelled by an exact rational [Q];
    equality of computed angles is [Qeq].  The one place of the code
    modelled over [Q] where a finite input produces a non-finite number
    is the division [arcLeft / (numSegments - numSet)] of
    [updateSegmentSizes], which yields [+Infinity] when the divisor is
    zero; segment angles therefore range over [Js.Num], the rationals
    extended by [+Infinity].  The hit test, which calls [Math.atan] and
    [Math.sqrt], is modelled over the real numbers (module [HitTest]).

    Counts and positions ([numSegments], the [position] of [addSegment]
    and [deleteSegment]) are integers.

    Arrays.  [Winwheel.segments] is a JavaScript array used from index 1;
    it is modelled by a finite map from integer keys to segments together
    with the array's [length].  Reading a key that holds nothing gives
    [undefined], and reading or writing a property of [undefined] throws a
    [TypeError], which the model threads through the [Js.Result] monad. *)

From Stdlib Require Import ZArith QArith Qround Qabs Lia Lqa String Ascii List.
From Stdlib Require Reals Lra.
From stdpp Require Import base option gmap.
Import ListNotations.

Local Open Scope Z_scope.
Local Open Scope string_scope.

(** ** JavaScript values and control flow *)

Module Js.

(** The outcome of a method call: a value, or an uncaught [TypeError]. *)
Inductive Result (A : Type) : Type :=
| Ok (a : A)
| TypeError.
Arguments Ok {A} a.
Arguments TypeError {A}.

Definition bind {A B} (r : Result A) (k : A -> Result B) : Result B :=
  match r with
  | Ok a => k a
  | TypeError => TypeError
  end.

(** [o.prop] where [o] may be [undefined]. *)
Definition deref {A} (o : option A) : Result A :=
  match o with
  | Some a => Ok a
  | None => TypeError
  end.

(** [for (x = lo; ...; x++) body], run for [count] iterations. *)
Fixpoint for_up {S} (count : nat) (x : Z)
    (body : Z -> S -> Result S) (s : S) : Result S :=
  match count with
  | O => Ok s
  | Datatypes.S k => bind (body x s) (for_up k (x + 1) body)
  end.

(** [for (x = hi; ...; x--) body], run for [count] iterations. *)
Fixpoint for_down {S} (count : nat) (x : Z)
    (body : Z -> S -> Result S) (s : S) : Result S :=
  match count with
  | O => Ok s
  | Datatypes.S k => bind (body x s) (for_down k (x - 1) body)
  end.

(** [for (x = lo; x <= hi; x++)]. *)
Definition for_to {S} (lo hi : Z) := @for_up S (Z.to_nat (hi - lo + 1)) lo.
(** [for (x = lo; x < hi; x++)]. *)
Definition for_below {S} (lo hi : Z) := @for_up S (Z.to_nat (hi - lo)) lo.
(** [for (x = hi; x > lo; x--)]. *)
Definition for_downto {S} (hi lo : Z) := @for_down S (Z.to_nat (hi - lo)) hi.

(** A number as the angle computations produce it. *)
Inductive Num : Type :=
| Fin (q : Q)
| PosInf.

Definition add (a b : Num) : Num :=
  match a, b with
  | Fin x, Fin y => Fin (x + y)
  | _, _ => PosInf
  end.

(** [a / d] for a positive finite [a] and an integer [d]. *)
Definition div_pos (a : Q) (d : Z) : Num :=
  if Z.eqb d 0 then PosInf else Fin (a / inject_Z d).

Definition num_eq (a b : Num) : Prop :=
  match a, b with
  | Fin x, Fin y => x == y
  | PosInf, PosInf => True
  | _, _ => False
  end.

(** A value read through a dynamic property access. *)
Inductive Value : Type :=
| VUndefined
| VNull
| VNum (q : Q)
| VStr (s : string)
| VObj.

Definition of_num (o : option Q) : Value :=
  match o with Some q => VNum q | None => VNull end.
Definition of_str (o : option string) : Value :=
  match o with Some s => VStr s | None => VNull end.

(** Truthiness of a nullable number ([0] is falsy) and of a nullable
    string (the empty string is falsy). *)
Definition truthy_num (o : option Q) : bool :=
  match o with
  | Some q => negb (Qeq_bool q 0)
  | None => false
  end.
Definition truthy_str (o : option string) : bool :=
  match o with
  | Some s => negb (String.eqb s "")
  | None => false
  end.

(** A nullable number in arithmetic position: [null] converts to [0]. *)
Definition to_number (o : option Q) : Q :=
  match o with Some q => q | None => 0%Q end.

(** An array: integer-keyed elements and the [length] property.  A slot
    set to [undefined] reads like an absent one, so it is stored as
    absent; it still counts for [length]. *)
Record Array (A : Type) : Type := mkArray {
  elems : gmap Z A;
  length : Z
}.
Arguments mkArray {A} elems length.
Arguments elems {A} a.
Arguments length {A} a.

Definition empty_array {A} : Array A := mkArray ∅ 0.

Definition get {A} (a : Array A) (i : Z) : option A := elems a !! i.

Definition grow (len i : Z) : Z :=
  if Z.leb 0 i then Z.max len (i + 1) else len.

(** [a[i] = v] *)
Definition set {A} (a : Array A) (i : Z) (v : A) : Array A :=
  mkArray (<[i := v]> (elems a)) (grow (length a) i).

(** [a[i] = undefined] *)
Definition set_undefined {A} (a : Array A) (i : Z) : Array A :=
  mkArray (delete i (elems a)) (grow (length a) i).

End Js.

(** [Js.Result] is a monad; the notation [x ← r; k] is stdpp's. *)
#[global] Instance result_ret : MRet Js.Result := @Js.Ok.
#[global] Instance result_bind : MBind Js.Result := fun A B k r => Js.bind r k.

(** ** Data model ([interfaces.ts] and the classes of [Winwheel.ts]) *)

Inductive Orientation := horizontal | vertical | curved.
Inductive Alignment := center | inner | outer.
Inductive Direction := normal | reversed.
Inductive ImageDirection := N | S | E | W.
Inductive AnimationType := spinOngoing | spinToStop | spinAndBack | custom.
Inductive SpinDirection := clockwise | anti_clockwise.

Definition Orientation_str (o : Orientation) : string :=
  match o with
  | horizontal => "horizontal" | vertical => "vertical" | curved => "curved"
  end.
Definition Alignment_str (a : Alignment) : string :=
  match a with center => "center" | inner => "inner" | outer => "outer" end.
Definition Direction_str (d : Direction) : string :=
  match d with normal => "normal" | reversed => "reversed" end.
Definition ImageDirection_str (d : ImageDirection) : string :=
  match d with N => "N" | S => "S" | E => "E" | W => "W" end.

(** [SegmentOptions]: every property is nullable; [None] is [null]. *)
Module SegmentOptions.
Record t : Type := mk {
  size : option Q;
  text : string;
  fillStyle : option string;
  strokeStyle : option string;
  lineWidth : option Q;
  textFontFamily : option string;
  textFontSize : option Q;
  textFontWeight : option string;
  textOrientation : option Orientation;
  textAlignment : option Alignment;
  textDirection : option Direction;
  textMargin : option Q;
  textFillStyle : option string;
  textStrokeStyle : option string;
  textLineWidth : option Q;
  image : option string;
  imageDirection : option ImageDirection;
  imgData : option unit
}.

(** [Segment.defaultOptions] *)
Definition defaultOptions : t :=
  mk None "" None None None None None None None None None None None None
     None None None None.

(** [options[key]]: the value of the property named [key]; a name that
    is not a property of the object reads as [undefined]. *)
Definition get (o : t) (key : string) : Js.Value :=
  if String.eqb key "size" then Js.of_num (size o)
  else if String.eqb key "text" then Js.VStr (text o)
  else if String.eqb key "fillStyle" then Js.of_str (fillStyle o)
  else if String.eqb key "strokeStyle" then Js.of_str (strokeStyle o)
  else if String.eqb key "lineWidth" then Js.of_num (lineWidth o)
  else if String.eqb key "textFontFamily" then Js.of_str (textFontFamily o)
  else if String.eqb key "textFontSize" then Js.of_num (textFontSize o)
  else if String.eqb key "textFontWeight" then Js.of_str (textFontWeight o)
  else if String.eqb key "textOrientation"
    then Js.of_str (option_map Orientation_str (textOrientation o))
  else if String.eqb key "textAlignment"
    then Js.of_str (option_map Alignment_str (textAlignment o))
  else if String.eqb key "textDirection"
    then Js.of_str (option_map Direction_str (textDirection o))
  else if String.eqb key "textMargin" then Js.of_num (textMargin o)
  else if String.eqb key "textFillStyle" then Js.of_str (textFillStyle o)
  else if String.eqb key "textStrokeStyle" then Js.of_str (textStrokeStyle o)
  else if String.eqb key "textLineWidth" then Js.of_num (textLineWidth o)
  else if String.eqb key "image" then Js.of_str (image o)
  else if String.eqb key "imageDirection"
    then Js.of_str (option_map ImageDirection_str (imageDirection o))
  else if String.eqb key "imgData"
    then match imgData o with Some _ => Js.VObj | None => Js.VNull end
  else Js.VUndefined.
End SegmentOptions.

(** [class Segment] *)
Module Segment.
Record t : Type := mk {
  options : SegmentOptions.t;
  startAngle : Js.Num;
  endAngle : Js.Num
}.

(** [new Segment(_options)].  The argument is given with its absent
    properties already filled from [defaultOptions], which is what the
    spread [{ ...defaultOptions, ..._options }] computes. *)
Definition new (_options : SegmentOptions.t) : t :=
  mk _options (Js.Fin 0) (Js.Fin 0).

Definition set_options (s : t) (o : SegmentOptions.t) : t :=
  mk o (startAngle s) (endAngle s).
Definition set_angles (s : t) (a b : Js.Num) : t :=
  mk (options s) a b.
End Segment.

(** [AnimationOptions] and [class Animation] *)
Module Animation.
Record Options : Type := mkOptions {
  type : AnimationType;
  direction : SpinDirection;
  propertyName : option string;
  propertyValue : option Q;
  duration : Q;
  yoyo : option bool;
  repeat : option Z;
  easing : option string;
  stopAngle : option Q;
  spins : option Q
}.

Record t : Type := mk {
  options : Options;
  _stopAngle : option Q
}.

Definition defaultOptions : Options :=
  mkOptions spinOngoing clockwise None None 10%Q (Some false) (Some 0)
    (Some "Power3.easeOut") None None.

Definition new (_options : Options) : t := mk _options None.
End Animation.

(** The canvas element found for [canvasId], reduced to its size. *)
Module Canvas.
Record t : Type := mk { width : Q; height : Q }.
End Canvas.

(** [WinwheelOptions], the properties the modelled methods read. *)
Module WinwheelOptions.
Record t : Type := mk {
  canvasId : option string;
  centerX : option Q;
  centerY : option Q;
  outerRadius : option Q;
  innerRadius : Q;
  numSegments : Z;
  rotationAngle : Q;
  textFontFamily : option string;
  textFontSize : Q;
  textFontWeight : option string;
  textOrientation : Orientation;
  textAlignment : Alignment;
  textDirection : Direction;
  textMargin : option Q;
  textFillStyle : option string;
  textStrokeStyle : option string;
  textLineWidth : Q;
  lineWidth : Q;
  pointerAngle : Q;
  segments : list SegmentOptions.t;
  animation : option Animation.Options
}.

(** [Winwheel.defaultOptions] *)
Definition defaultOptions : t :=
  mk (Some "canvas") None None None 0%Q 1 0%Q (Some "Arial") 20%Q
     (Some "bold") horizontal center normal None (Some "black") None
     1%Q 1%Q 0%Q [] None.

Definition set_numSegments (o : t) (n : Z) : t :=
  mk (canvasId o) (centerX o) (centerY o) (outerRadius o) (innerRadius o)
     n (rotationAngle o) (textFontFamily o) (textFontSize o)
     (textFontWeight o) (textOrientation o) (textAlignment o)
     (textDirection o) (textMargin o) (textFillStyle o)
     (textStrokeStyle o) (textLineWidth o) (lineWidth o) (pointerAngle o)
     (segments o) (animation o).

Definition set_segments (o : t) (l : list SegmentOptions.t) : t :=
  mk (canvasId o) (centerX o) (centerY o) (outerRadius o) (innerRadius o)
     (numSegments o) (rotationAngle o) (textFontFamily o) (textFontSize o)
     (textFontWeight o) (textOrientation o) (textAlignment o)
     (textDirection o) (textMargin o) (textFillStyle o)
     (textStrokeStyle o) (textLineWidth o) (lineWidth o) (pointerAngle o)
     l (animation o).

Definition set_rotationAngle (o : t) (r : Q) : t :=
  mk (canvasId o) (centerX o) (centerY o) (outerRadius o) (innerRadius o)
     (numSegments o) r (textFontFamily o) (textFontSize o)
     (textFontWeight o) (textOrientation o) (textAlignment o)
     (textDirection o) (textMargin o) (textFillStyle o)
     (textStrokeStyle o) (textLineWidth o) (lineWidth o) (pointerAngle o)
     (segments o) (animation o).

Definition set_animation (o : t) (a : option Animation.Options) : t :=
  mk (canvasId o) (centerX o) (centerY o) (outerRadius o) (innerRadius o)
     (numSegments o) (rotationAngle o) (textFontFamily o) (textFontSize o)
     (textFontWeight o) (textOrientation o) (textAlignment o)
     (textDirection o) (textMargin o) (textFillStyle o)
     (textStrokeStyle o) (textLineWidth o) (lineWidth o) (pointerAngle o)
     (segments o) a.

(** The defaults the constructor derives from the canvas, and the
    default text margin. *)
Definition set_geometry (o : t) (cx cy r m : option Q) : t :=
  mk (canvasId o) cx cy r (innerRadius o)
     (numSegments o) (rotationAngle o) (textFontFamily o) (textFontSize o)
     (textFontWeight o) (textOrientation o) (textAlignment o)
     (textDirection o) m (textFillStyle o)
     (textStrokeStyle o) (textLineWidth o) (lineWidth o) (pointerAngle o)
     (segments o) (animation o).
End WinwheelOptions.

(** [class Winwheel], the state the modelled methods read and write. *)
Module Winwheel.
Record t : Type := mk {
  options : WinwheelOptions.t;
  segments : Js.Array Segment.t;
  canvas : option Canvas.t;
  animation : Animation.t
}.

Definition set_options (w : t) (o : WinwheelOptions.t) : t :=
  mk o (segments w) (canvas w) (animation w).
Definition set_segments (w : t) (a : Js.Array Segment.t) : t :=
  mk (options w) a (canvas w) (animation w).
Definition set_animation (w : t) (a : Animation.t) : t :=
  mk (options w) (segments w) (canvas w) a.

Definition numSegments (w : t) : Z := WinwheelOptions.numSegments (options w).
(** [this.segments[x]] *)
Definition segment (w : t) (x : Z) : option Segment.t := Js.get (segments w) x.
End Winwheel.

(** ** Number helpers used by the methods *)

Definition Qltb (a b : Q) : bool := negb (Qle_bool b a).

(** Relational comparison of a number with a dynamically read value.
    JavaScript converts the value to a number first; [undefined] and
    objects convert to [NaN], and every comparison with [NaN] is false.
    The conversion of a string is a parameter of the development. *)
Section Relational.
Variable StringToNumber : string -> option Q.

Definition ToNumber (v : Js.Value) : option Q :=
  match v with
  | Js.VUndefined => None
  | Js.VNull => Some 0%Q
  | Js.VNum q => Some q
  | Js.VStr s => StringToNumber s
  | Js.VObj => None
  end.

(** [a >= v] *)
Definition num_ge (a : Q) (v : Js.Value) : bool :=
  match ToNumber v with
  | Some q => Qle_bool q a
  | None => false
  end.

(** [a <= v] *)
Definition num_le (a : Q) (v : Js.Value) : bool :=
  match ToNumber v with
  | Some q => Qle_bool a q
  | None => false
  end.
End Relational.

(** ** Methods of [Winwheel] *)

(** First loop of [updateSegmentSizes]: the arc used by the segments
    whose size is not [null], and how many they are. *)
Definition sumSetSizes (w : Winwheel.t) : Js.Result (Q * Z) :=
  Js.for_to 1 (Winwheel.numSegments w)
    (fun x '(arcUsed, numSet) =>
       seg ← Js.deref (Winwheel.segment w x);
       match SegmentOptions.size (Segment.options seg) with
       | Some size => Js.Ok ((arcUsed + size)%Q, numSet + 1)
       | None => Js.Ok (arcUsed, numSet)
       end)
    (0%Q, 0).

(** What one segment adds to the running angle in the second loop: its
    size when that is truthy, [degreesEach] otherwise. *)
Definition segmentArc (degreesEach : Js.Num) (o : SegmentOptions.t) : Js.Num :=
  if Js.truthy_num (SegmentOptions.size o)
  then Js.Fin (Js.to_number (SegmentOptions.size o))
  else degreesEach.

(** Second loop of [updateSegmentSizes]: set the start and end angle of
    each segment from the running angle [currentDegree]. *)
Definition setAngles (n : Z) (degreesEach : Js.Num) (a : Js.Array Segment.t)
  : Js.Result (Js.Num * Js.Array Segment.t) :=
  Js.for_to 1 n
    (fun x '(currentDegree, a) =>
       seg ← Js.deref (Js.get a x);
       let next := Js.add currentDegree (segmentArc degreesEach (Segment.options seg)) in
       Js.Ok (next, Js.set a x (Segment.set_angles seg currentDegree next)))
    (Js.Fin 0, a).

(** [degreesEach]: the share of a segment without a size; it stays [0]
    unless some arc is left. *)
Definition degreesEach_of (n : Z) (arcUsed : Q) (numSet : Z) : Js.Num :=
  let arcLeft := (360 - arcUsed)%Q in
  if Qltb 0 arcLeft then Js.div_pos arcLeft (n - numSet) else Js.Fin 0.

Definition updateSegmentSizes (w : Winwheel.t) : Js.Result Winwheel.t :=
  '(arcUsed, numSet) ← sumSetSizes w;
  let degreesEach := degreesEach_of (Winwheel.numSegments w) arcUsed numSet in
  '(_, a) ← setAngles (Winwheel.numSegments w) degreesEach (Winwheel.segments w);
  Js.Ok (Winwheel.set_segments w a).

(** The constructor's loop that populates [this.segments]: the segment
    made from [options.segments[i - 1]], when there is one, is stored at
    [i], and then a segment made without options is stored at [i]. *)
Definition populateSegments (o : WinwheelOptions.t) : Js.Result (Js.Array Segment.t) :=
  Js.for_to 1 (WinwheelOptions.numSegments o)
    (fun i a =>
       let a1 :=
         match nth_error (WinwheelOptions.segments o) (Z.to_nat (i - 1)) with
         | Some so => Js.set a i (Segment.new so)
         | None => a
         end in
       Js.Ok (Js.set a1 i (Segment.new SegmentOptions.defaultOptions)))
    Js.empty_array.

(** The center and outer radius the constructor takes from the canvas
    when they are [null]. *)
Definition canvasDefaults (o : WinwheelOptions.t) (c : option Canvas.t)
  : WinwheelOptions.t :=
  match c with
  | Some cv =>
      let cx := match WinwheelOptions.centerX o with
                | None => Some (Canvas.width cv / 2)%Q | v => v end in
      let cy := match WinwheelOptions.centerY o with
                | None => Some (Canvas.height cv / 2)%Q | v => v end in
      let r := match WinwheelOptions.outerRadius o with
               | None =>
                   if Qltb (Canvas.width cv) (Canvas.height cv)
                   then Some (Canvas.width cv / 2 - WinwheelOptions.lineWidth o)%Q
                   else Some (Canvas.height cv / 2 - WinwheelOptions.lineWidth o)%Q
               | v => v end in
      WinwheelOptions.set_geometry o cx cy r (WinwheelOptions.textMargin o)
  | None => o
  end.

Definition defaultTextMargin (o : WinwheelOptions.t) : WinwheelOptions.t :=
  match WinwheelOptions.textMargin o with
  | None =>
      WinwheelOptions.set_geometry o (WinwheelOptions.centerX o)
        (WinwheelOptions.centerY o) (WinwheelOptions.outerRadius o)
        (Some (WinwheelOptions.textFontSize o / (17 # 10))%Q)
  | Some _ => o
  end.

(** [new Winwheel(_options)] for the draw mode [code].  [document]
    stands for [document.getElementById]; [_options] is given merged with
    [defaultOptions].  The pins, the pointer guide and the first draw do
    not touch the modelled state; the style defaults of the image draw
    modes are not modelled. *)
Definition new_Winwheel (document : string -> option Canvas.t)
    (_options : WinwheelOptions.t) : Js.Result Winwheel.t :=
  let canvas :=
    match WinwheelOptions.canvasId _options with
    | Some id => if String.eqb id "" then None else document id
    | None => None
    end in
  let o := canvasDefaults _options canvas in
  a ← populateSegments o;
  let anim :=
    match WinwheelOptions.animation o with
    | Some ao => Animation.new ao
    | None => Animation.new Animation.defaultOptions
    end in
  w ← updateSegmentSizes (Winwheel.mk o a canvas anim);
  Js.Ok (Winwheel.set_options w (defaultTextMargin (Winwheel.options w))).

(** [this.segments[x].options = this.segments[y].options] *)
Definition copyOptions (x y : Z) (a : Js.Array Segment.t)
  : Js.Result (Js.Array Segment.t) :=
  dst ← Js.deref (Js.get a x);
  src ← Js.deref (Js.get a y);
  Js.Ok (Js.set a x (Segment.set_options dst (Segment.options src))).

(** [addSegment(options, position)]; [position = None] is the call
    without a position.  Returns the wheel and the returned segment. *)
Definition addSegment (w : Winwheel.t) (options : SegmentOptions.t)
    (position : option Z) : Js.Result (Winwheel.t * option Segment.t) :=
  let newSegment := Segment.new options in
  let n := Winwheel.numSegments w + 1 in
  let w1 := Winwheel.set_options w
              (WinwheelOptions.set_numSegments (Winwheel.options w) n) in
  '(a, segmentPos) ←
    match position with
    | Some p =>
        a ← Js.for_downto n p (fun x a => copyOptions x (x - 1) a)
              (Winwheel.segments w1);
        Js.Ok (Js.set a p newSegment, p)
    | None => Js.Ok (Js.set (Winwheel.segments w1) n newSegment, n)
    end;
  w2 ← updateSegmentSizes (Winwheel.set_segments w1 a);
  Js.Ok (w2, Winwheel.segment w2 segmentPos).

(** [deleteSegment(position)] *)
Definition deleteSegment (w : Winwheel.t) (position : option Z)
  : Js.Result Winwheel.t :=
  let n := Winwheel.numSegments w in
  if Z.ltb 1 n then
    a ← match position with
        | Some p => Js.for_below p n (fun x a => copyOptions x (x + 1) a)
                      (Winwheel.segments w)
        | None => Js.Ok (Winwheel.segments w)
        end;
    let a := Js.set_undefined a n in
    updateSegmentSizes
      (Winwheel.set_segments
         (Winwheel.set_options w
            (WinwheelOptions.set_numSegments (Winwheel.options w) (n - 1)))
         a)
  else Js.Ok w.

(** [getRotationPosition()] *)
Definition getRotationPosition (w : Winwheel.t) : Q :=
  let rawAngle := WinwheelOptions.rotationAngle (Winwheel.options w) in
  if Qle_bool 0 rawAngle then
    if Qltb 360 rawAngle then
      let timesPast360 := Qfloor (rawAngle / 360) in
      (rawAngle - 360 * inject_Z timesPast360)%Q
    else rawAngle
  else
    let rawAngle :=
      if Qltb rawAngle (-360) then
        let timesPast360 := Qceiling (rawAngle / 360) in
        (rawAngle - 360 * inject_Z timesPast360)%Q
      else rawAngle in
    (360 + rawAngle)%Q.

(** [getIndicatedSegmentNumber()] *)
Definition getIndicatedSegmentNumber (StringToNumber : string -> option Q)
    (w : Winwheel.t) : Js.Result Z :=
  let rawAngle := getRotationPosition w in
  let relativeAngle :=
    Qfloor (WinwheelOptions.pointerAngle (Winwheel.options w) - rawAngle) in
  let relativeAngle :=
    if Z.ltb relativeAngle 0 then 360 - Z.abs relativeAngle else relativeAngle in
  found ← Js.for_below 1 (Js.length (Winwheel.segments w))
    (fun x found =>
       match found with
       | Some _ => Js.Ok found
       | None =>
           seg ← Js.deref (Winwheel.segment w x);
           if num_ge StringToNumber (inject_Z relativeAngle)
                (SegmentOptions.get (Segment.options seg) "startAngle")
              && num_le StringToNumber (inject_Z relativeAngle)
                   (SegmentOptions.get (Segment.options seg) "endAngle")
           then Js.Ok (Some x)
           else Js.Ok None
       end)
    None;
  Js.Ok (match found with Some x => x | None => 0 end).

(** [computeAnimation()]; [random] is the value [Math.random()] returns
    when it is called. *)
Definition or_default {A} (o : option A) (d : A) : option A :=
  match o with
  | None => Some d
  | Some _ => o
  end.

Definition spinTarget (direction : SpinDirection) (spins : option Q)
    (_stopAngle : Q) : Q :=
  let propertyValue := (Js.to_number spins * 360)%Q in
  match direction with
  | anti_clockwise =>
      let propertyValue := (0 - propertyValue)%Q in
      (propertyValue - (360 - _stopAngle))%Q
  | clockwise => (propertyValue + _stopAngle)%Q
  end.

Definition computeAnimation (random : Q) (w : Winwheel.t) : Winwheel.t :=
  let anim := Winwheel.animation w in
  let o := Animation.options anim in
  match Animation.type o with
  | spinOngoing =>
      let spins := or_default (Animation.spins o) 5%Q in
      let propertyValue := (Js.to_number spins * 360)%Q in
      let propertyValue :=
        match Animation.direction o with
        | anti_clockwise => (0 - propertyValue)%Q
        | clockwise => propertyValue
        end in
      Winwheel.set_animation w
        (Animation.mk
           (Animation.mkOptions spinOngoing (Animation.direction o)
              (Some "rotationAngle") (Some propertyValue)
              (Animation.duration o)
              (or_default (Animation.yoyo o) false)
              (or_default (Animation.repeat o) (-1))
              (or_default (Animation.easing o) "Linear.easeNone")
              (Animation.stopAngle o) spins)
           (Animation._stopAngle anim))
  | spinToStop =>
      let spins := or_default (Animation.spins o) 5%Q in
      let _stopAngle :=
        match Animation.stopAngle o with
        | None => inject_Z (Qfloor (random * 359))
        | Some stopAngle =>
            (360 - stopAngle
             + WinwheelOptions.pointerAngle (Winwheel.options w))%Q
        end in
      Winwheel.set_animation w
        (Animation.mk
           (Animation.mkOptions spinToStop (Animation.direction o)
              (Some "rotationAngle")
              (Some (spinTarget (Animation.direction o) spins _stopAngle))
              (Animation.duration o)
              (or_default (Animation.yoyo o) false)
              (or_default (Animation.repeat o) 0)
              (or_default (Animation.easing o) "Power4.easeOut")
              (Animation.stopAngle o) spins)
           (Some _stopAngle))
  | spinAndBack =>
      let spins := or_default (Animation.spins o) 5%Q in
      let _stopAngle :=
        match Animation.stopAngle o with
        | None => 0%Q
        | Some stopAngle => (360 - stopAngle)%Q
        end in
      Winwheel.set_animation w
        (Animation.mk
           (Animation.mkOptions spinAndBack (Animation.direction o)
              (Some "rotationAngle")
              (Some (spinTarget (Animation.direction o) spins _stopAngle))
              (Animation.duration o)
              (or_default (Animation.yoyo o) true)
              (or_default (Animation.repeat o) 1)
              (or_default (Animation.easing o) "Power2.easeInOut")
              (Animation.stopAngle o) spins)
           (Some _stopAngle))
  | custom => w
  end.

(** ** Segment text: the [fillText] and [strokeText] calls of
    [drawSegmentText], in the order they are made *)

Inductive TextCommand : Type :=
| fillText (text : string) (x y : Q)
| strokeText (text : string) (x y : Q).

(** [text.split("\n")] *)
Fixpoint split_lines (current : string) (s : string) : list string :=
  match s with
  | EmptyString => [current]
  | String c rest =>
      if Ascii.eqb c "010"%char
      then current :: split_lines "" rest
      else split_lines (current ++ String c "") rest
  end.

(** [line.charAt(c)]: the empty string when [c] is out of range. *)
Definition charAt (line : string) (c : nat) : string := substring c 1 line.

(** [if (fillStyle) fillText(...); if (strokeStyle) strokeText(...)] *)
Definition fillThenStroke (fillStyle strokeStyle : option string)
    (s : string) (x y : Q) : list TextCommand :=
  (if Js.truthy_str fillStyle then [fillText s x y] else [])
  ++ (if Js.truthy_str strokeStyle then [strokeText s x y] else []).

(** [if (strokeStyle) strokeText(...); if (fillStyle) fillText(...)] *)
Definition strokeThenFill (fillStyle strokeStyle : option string)
    (s : string) (x y : Q) : list TextCommand :=
  (if Js.truthy_str strokeStyle then [strokeText s x y] else [])
  ++ (if Js.truthy_str fillStyle then [fillText s x y] else []).

(** The character loops of vertical text: one character per iteration at
    [yPos], which then moves by [step]. *)
Fixpoint verticalChars (fillStyle strokeStyle : option string) (x : Q)
    (chars : list string) (yPos step : Q) : list TextCommand :=
  match chars with
  | [] => []
  | character :: rest =>
      fillThenStroke fillStyle strokeStyle character x yPos
      ++ verticalChars fillStyle strokeStyle x rest (yPos + step)%Q step
  end.

(** [for (c = 0; c < line.length; c++)] and
    [for (c = line.length - 1; c >= 0; c--)], as the characters visited. *)
Definition charsUp (line : string) : list string :=
  map (charAt line) (seq 0 (String.length line)).
Definition charsDown (line : string) : list string :=
  map (charAt line) (rev (seq 0 (String.length line))).
(** [for (c = line.length; c >= 0; c--)] *)
Definition charsDownFromLength (line : string) : list string :=
  map (charAt line) (rev (seq 0 (String.length line + 1))).

(** The style values resolved for one segment. *)
Record TextStyle : Type := mkTextStyle {
  fontSize : Q;
  orientation : Orientation;
  alignment : Alignment;
  direction : Direction;
  margin : option Q;
  fillStyle : option string;
  strokeStyle : option string
}.

Definition resolve {A} (own : option A) (global : A) : A :=
  match own with
  | Some v => v
  | None => global
  end.

Definition resolve_nullable {A} (own global : option A) : option A :=
  match own with
  | Some v => Some v
  | None => global
  end.

Definition resolveTextStyle (o : WinwheelOptions.t) (so : SegmentOptions.t)
  : TextStyle :=
  mkTextStyle
    (resolve (SegmentOptions.textFontSize so) (WinwheelOptions.textFontSize o))
    (resolve (SegmentOptions.textOrientation so) (WinwheelOptions.textOrientation o))
    (resolve (SegmentOptions.textAlignment so) (WinwheelOptions.textAlignment o))
    (resolve (SegmentOptions.textDirection so) (WinwheelOptions.textDirection o))
    (resolve_nullable (SegmentOptions.textMargin so) (WinwheelOptions.textMargin o))
    (resolve_nullable (SegmentOptions.textFillStyle so) (WinwheelOptions.textFillStyle o))
    (resolve_nullable (SegmentOptions.textStrokeStyle so) (WinwheelOptions.textStrokeStyle o)).

(** The body of the loop over the lines, for the line [line] drawn at
    [lineOffset]; [numLines] is [lines.length]. *)
Definition drawLine (o : WinwheelOptions.t) (st : TextStyle)
    (numLines : nat) (line : string) (lineOffset : Q) : list TextCommand :=
  let centerX := Js.to_number (WinwheelOptions.centerX o) in
  let centerY := Js.to_number (WinwheelOptions.centerY o) in
  let outerRadius := Js.to_number (WinwheelOptions.outerRadius o) in
  let innerRadius := WinwheelOptions.innerRadius o in
  let margin := Js.to_number (margin st) in
  let fontSize := fontSize st in
  let fs := fillStyle st in
  let ss := strokeStyle st in
  let len := inject_Z (Z.of_nat (String.length line)) in
  let yInc := (fontSize - fontSize / 9)%Q in
  let centerAdjustment :=
    if (1 <? String.length line)%nat then (yInc * (len - 1) / 2)%Q else 0%Q in
  match direction st, orientation st, alignment st with
  | reversed, horizontal, inner =>
      fillThenStroke fs ss line
        (centerX - innerRadius - margin)%Q (centerY + lineOffset)%Q
  | reversed, horizontal, outer =>
      fillThenStroke fs ss line
        (centerX - outerRadius + margin)%Q (centerY + lineOffset)%Q
  | reversed, horizontal, center =>
      fillThenStroke fs ss line
        (centerX - innerRadius - (outerRadius - innerRadius) / 2 - margin)%Q
        (centerY + lineOffset)%Q
  | reversed, vertical, outer =>
      verticalChars fs ss (centerX + lineOffset)%Q (charsDown line)
        (centerY + outerRadius - margin)%Q (- yInc)%Q
  | reversed, vertical, inner =>
      verticalChars fs ss (centerX + lineOffset)%Q (charsUp line)
        (centerY + innerRadius + margin)%Q yInc
  | reversed, vertical, center =>
      verticalChars fs ss (centerX + lineOffset)%Q (charsDown line)
        (centerY + innerRadius + (outerRadius - innerRadius) / 2
         + centerAdjustment + margin)%Q (- yInc)%Q
  | reversed, curved, a =>
      let radius :=
        match a with
        | inner => (innerRadius + margin)%Q
        | outer =>
            (outerRadius - margin
             - fontSize * (inject_Z (Z.of_nat numLines) - 1))%Q
        | center =>
            (innerRadius + margin + (outerRadius - innerRadius) / 2)%Q
        end in
      flat_map
        (fun character =>
           strokeThenFill fs ss character centerX
             (centerY + radius + lineOffset)%Q)
        (charsDownFromLength line)
  | normal, horizontal, inner =>
      fillThenStroke fs ss line
        (centerX + innerRadius + margin)%Q (centerY + lineOffset)%Q
  | normal, horizontal, outer =>
      fillThenStroke fs ss line
        (centerX + outerRadius - margin)%Q (centerY + lineOffset)%Q
  | normal, horizontal, center =>
      fillThenStroke fs ss line
        (centerX + innerRadius + (outerRadius - innerRadius) / 2 + margin)%Q
        (centerY + lineOffset)%Q
  | normal, vertical, outer =>
      verticalChars fs ss (centerX + lineOffset)%Q (charsUp line)
        (centerY - outerRadius + margin)%Q yInc
  | normal, vertical, inner =>
      verticalChars fs ss (centerX + lineOffset)%Q (charsDown line)
        (centerY - innerRadius - margin)%Q (- yInc)%Q
  | normal, vertical, center =>
      verticalChars fs ss (centerX + lineOffset)%Q (charsUp line)
        (centerY - innerRadius - (outerRadius - innerRadius) / 2
         - centerAdjustment - margin)%Q yInc
  | normal, curved, a =>
      let radius :=
        match a with
        | inner =>
            (innerRadius + margin
             + fontSize * (inject_Z (Z.of_nat numLines) - 1))%Q
        | outer => (outerRadius - margin)%Q
        | center =>
            (innerRadius + margin + (outerRadius - innerRadius) / 2)%Q
        end in
      flat_map
        (fun character =>
           strokeThenFill fs ss character centerX
             (centerY - radius + lineOffset)%Q)
        (charsUp line)
  end.

(** The loop over the lines: [lineOffset] grows by [fontSize] per line. *)
Fixpoint drawLines (o : WinwheelOptions.t) (st : TextStyle) (numLines : nat)
    (lines : list string) (lineOffset : Q) : list TextCommand :=
  match lines with
  | [] => []
  | line :: rest =>
      drawLine o st numLines line lineOffset
      ++ drawLines o st numLines rest (lineOffset + fontSize st)%Q
  end.

(** The text commands of one segment. *)
Definition drawOneSegmentText (o : WinwheelOptions.t) (seg : Segment.t)
  : list TextCommand :=
  let segOptions := Segment.options seg in
  if String.eqb (SegmentOptions.text segOptions) "" then []
  else
    let st := resolveTextStyle o segOptions in
    let lines := split_lines "" (SegmentOptions.text segOptions) in
    let numLines := List.length lines in
    let lineOffset :=
      match orientation st, alignment st with
      | curved, inner | curved, outer => 0%Q
      | _, _ =>
          (0 - fontSize st * (inject_Z (Z.of_nat numLines) / 2)
           + fontSize st / 2)%Q
      end in
    drawLines o st numLines lines lineOffset.

(** [drawSegmentText()], as the sequence of its text commands. *)
Definition drawSegmentText (w : Winwheel.t) : Js.Result (list TextCommand) :=
  match Winwheel.canvas w with
  | None => Js.Ok []
  | Some _ =>
      Js.for_to 1 (Winwheel.numSegments w)
        (fun x out =>
           seg ← Js.deref (Winwheel.segment w x);
           Js.Ok (out ++ drawOneSegmentText (Winwheel.options w) seg)%list)
        []
  end.

(** ** Reference quantities for the geometry

    What the sizes stored in a wheel determine, stated without the loops
    of [updateSegmentSizes]: they are the yardstick of the theorems
    about it. *)

(** The size option of segment [i]. *)
Definition sizeAt (a : Js.Array Segment.t) (i : Z) : option Q :=
  match Js.get a i with
  | Some seg => SegmentOptions.size (Segment.options seg)
  | None => None
  end.

(** Every position from 1 to [numSegments] holds a segment. *)
Definition populated (w : Winwheel.t) : Prop :=
  forall i, 1 <= i <= Winwheel.numSegments w -> is_Some (Winwheel.segment w i).

(** Sum of the sizes that are set among the first [k] segments, and how
    many of the first [k] segments have one. *)
Fixpoint explicitSum (a : Js.Array Segment.t) (k : nat) : Q :=
  match k with
  | O => 0%Q
  | Datatypes.S k' =>
      match sizeAt a (Z.of_nat k) with
      | Some size => (explicitSum a k' + size)%Q
      | None => explicitSum a k'
      end
  end.

Fixpoint countSet (a : Js.Array Segment.t) (k : nat) : Z :=
  match k with
  | O => 0
  | Datatypes.S k' =>
      match sizeAt a (Z.of_nat k) with
      | Some _ => countSet a k' + 1
      | None => countSet a k'
      end
  end.

(** How many of the first [k] segments have a size that is not truthy. *)
Fixpoint countFalsy (a : Js.Array Segment.t) (k : nat) : Z :=
  match k with
  | O => 0
  | Datatypes.S k' =>
      countFalsy a k'
      + (if Js.truthy_num (sizeAt a (Z.of_nat k)) then 0 else 1)
  end.

(** The arc of segment [i] and the running angle after [k] segments. *)
Definition arcAt (degreesEach : Js.Num) (a : Js.Array Segment.t) (i : Z)
  : Js.Num :=
  match Js.get a i with
  | Some seg => segmentArc degreesEach (Segment.options seg)
  | None => Js.Fin 0
  end.

Fixpoint angleAfter (degreesEach : Js.Num) (a : Js.Array Segment.t) (k : nat)
  : Js.Num :=
  match k with
  | O => Js.Fin 0
  | Datatypes.S k' =>
      Js.add (angleAfter degreesEach a k') (arcAt degreesEach a (Z.of_nat k))
  end.

(** The share a segment got: [endAngle - startAngle], for finite angles. *)
Definition share (seg : Segment.t) : option Q :=
  match Segment.startAngle seg, Segment.endAngle seg with
  | Js.Fin s, Js.Fin e => Some (e - s)%Q
  | _, _ => None
  end.


(** The angles of segment [i] of a wheel. *)
Definition startAngleAt (w : Winwheel.t) (i : Z) : option Js.Num :=
  option_map Segment.startAngle (Winwheel.segment w i).
Definition endAngleAt (w : Winwheel.t) (i : Z) : option Js.Num :=
  option_map Segment.endAngle (Winwheel.segment w i).

(** The first segment starts at 0 and every segment starts where the one
    before it ends. *)
Definition contiguous (w : Winwheel.t) : Prop :=
  startAngleAt w 1 = Some (Js.Fin 0) /\
  forall i, 1 <= i < Winwheel.numSegments w ->
    exists e, endAngleAt w i = Some e /\ startAngleAt w (i + 1) = Some e.

(** The last segment ends at 360. *)
Definition closes_circle (w : Winwheel.t) : Prop :=
  exists e, endAngleAt w (Winwheel.numSegments w) = Some e /\
            Js.num_eq e (Js.Fin 360).

Definition all_unset (w : Winwheel.t) : Prop :=
  forall i, 1 <= i <= Winwheel.numSegments w ->
    sizeAt (Winwheel.segments w) i = None.
Definition some_unset (w : Winwheel.t) : Prop :=
  exists i, 1 <= i <= Winwheel.numSegments w /\
    sizeAt (Winwheel.segments w) i = None.
Definition no_zero_size (w : Winwheel.t) : Prop :=
  forall i q, 1 <= i <= Winwheel.numSegments w ->
    sizeAt (Winwheel.segments w) i = Some q -> ~ q == 0.

(** The sum of the sizes set in a wheel, and how many segments have none. *)
Definition sizesSum (w : Winwheel.t) : Q :=
  explicitSum (Winwheel.segments w) (Z.to_nat (Winwheel.numSegments w)).
Definition countWithoutSize (w : Winwheel.t) : Z :=
  Winwheel.numSegments w
  - countSet (Winwheel.segments w) (Z.to_nat (Winwheel.numSegments w)).

(** A segment's share equals [q]. *)
Definition share_is (seg : Segment.t) (q : Q) : Prop :=
  match share seg with
  | Some s => s == q
  | None => False
  end.

(** Text commands that come in pairs for the same text at the same place:
    fill then stroke, or stroke then fill. *)
Inductive FillFirst : list TextCommand -> Prop :=
| FillFirst_nil : FillFirst []
| FillFirst_pair s x y l :
    FillFirst l -> FillFirst (fillText s x y :: strokeText s x y :: l).

Inductive StrokeFirst : list TextCommand -> Prop :=
| StrokeFirst_nil : StrokeFirst []
| StrokeFirst_pair s x y l :
    StrokeFirst l -> StrokeFirst (strokeText s x y :: fillText s x y :: l).

(** The reading of the geometry in which a negative remainder is shared
    out: every segment without a size would get
    [(360 - sum) / countWithoutSize]. *)
Definition remainder_shared_out (w w' : Winwheel.t) : Prop :=
  forall i seg',
    1 <= i <= Winwheel.numSegments w ->
    sizeAt (Winwheel.segments w) i = None ->
    Winwheel.segment w' i = Some seg' ->
    share_is seg' ((360 - sizesSum w) / inject_Z (countWithoutSize w)).

(** The landed segment as the specification words it: the scan of
    [getIndicatedSegmentNumber] over the angles the segments carry,
    [segments[x].startAngle] and [segments[x].endAngle]. *)
Definition num_leb (a b : Js.Num) : bool :=
  match a, b with
  | Js.Fin x, Js.Fin y => Qle_bool x y
  | Js.Fin _, Js.PosInf => true
  | Js.PosInf, Js.Fin _ => false
  | Js.PosInf, Js.PosInf => true
  end.

Definition angleToSegmentIndex (w : Winwheel.t) : Js.Result Z :=
  let rawAngle := getRotationPosition w in
  let relativeAngle :=
    Qfloor (WinwheelOptions.pointerAngle (Winwheel.options w) - rawAngle) in
  let relativeAngle :=
    if Z.ltb relativeAngle 0 then 360 - Z.abs relativeAngle else relativeAngle in
  found ← Js.for_below 1 (Js.length (Winwheel.segments w))
    (fun x found =>
       match found with
       | Some _ => Js.Ok found
       | None =>
           seg ← Js.deref (Winwheel.segment w x);
           if num_leb (Segment.startAngle seg) (Js.Fin (inject_Z relativeAngle))
              && num_leb (Js.Fin (inject_Z relativeAngle)) (Segment.endAngle seg)
           then Js.Ok (Some x)
           else Js.Ok None
       end)
    None;
  Js.Ok (match found with Some x => x | None => 0 end).

(** The order of fill and stroke as the specification states it: fill
    first, except for outer-aligned horizontal text in normal direction,
    where stroke comes first. *)
Definition stated_text_order (st : TextStyle) (cmds : list TextCommand) : Prop :=
  match orientation st, alignment st, direction st with
  | horizontal, outer, normal => StrokeFirst cmds
  | _, _, _ => FillFirst cmds
  end.

(** The segments of a wheel in order, 1 to [numSegments]. *)
Definition segmentList (w : Winwheel.t) : list Segment.t :=
  omap (fun k => Winwheel.segment w (Z.of_nat k))
       (seq 1 (Z.to_nat (Winwheel.numSegments w))).

(** The options of segment [i]: the segment ordering of a wheel. *)
Definition optionsAt (w : Winwheel.t) (i : Z) : option SegmentOptions.t :=
  option_map Segment.options (Winwheel.segment w i).

(** The array holds segments exactly at the positions 1 to
    [numSegments]. *)
Definition exactly_filled (w : Winwheel.t) : Prop :=
  0 <= Winwheel.numSegments w /\
  (forall i, 1 <= i <= Winwheel.numSegments w ->
     is_Some (Winwheel.segment w i)) /\
  (forall i, ~ 1 <= i <= Winwheel.numSegments w ->
     Winwheel.segment w i = None).

(** ** Example wheels *)

(** A page without a canvas, and a page whose canvas is 400 by 400. *)
Definition no_document : string -> option Canvas.t := fun _ => None.
Definition square_canvas : string -> option Canvas.t :=
  fun _ => Some (Canvas.mk 400 400).

(** [{ numSegments: n }] and [{ size: q }], [{ text: t }]. *)
Definition wheelOptions (n : Z) : WinwheelOptions.t :=
  WinwheelOptions.set_numSegments WinwheelOptions.defaultOptions n.
Definition sized (q : Q) : SegmentOptions.t :=
  SegmentOptions.mk (Some q) "" None None None None None None None None None
    None None None None None None None.

(** The wheel of a script that is known not to throw. *)
Definition returned (r : Js.Result Winwheel.t) : Winwheel.t :=
  match r with
  | Js.Ok w => w
  | Js.TypeError =>
      Winwheel.mk WinwheelOptions.defaultOptions Js.empty_array None
        (Animation.new Animation.defaultOptions)
  end.

(** [new Winwheel({ numSegments: 4 })] *)
Definition four_equal_script : Js.Result Winwheel.t :=
  new_Winwheel no_document (wheelOptions 4).
Definition four_equal : Winwheel.t :=
  Eval vm_compute in returned four_equal_script.

(** [new Winwheel({ numSegments: 1 })] *)
Definition single_script : Js.Result Winwheel.t :=
  new_Winwheel no_document (wheelOptions 1).
Definition single : Winwheel.t := Eval vm_compute in returned single_script.

(** [w = new Winwheel({ numSegments: 1 }); w.addSegment({ size: 90 });
    w.addSegment({ size: 90 }); w.deleteSegment(1)]: two segments of
    size 90. *)
Definition two_quarters_script : Js.Result Winwheel.t :=
  w0 ← new_Winwheel no_document (wheelOptions 1);
  r1 ← addSegment w0 (sized 90) None;
  r2 ← addSegment (fst r1) (sized 90) None;
  deleteSegment (fst r2) (Some 1).
Definition two_quarters : Winwheel.t :=
  Eval vm_compute in returned two_quarters_script.

(** [w = new Winwheel({ numSegments: 1 }); w.addSegment({ size: 400 })]:
    a segment without a size followed by one of size 400. *)
Definition oversized_script : Js.Result Winwheel.t :=
  w0 ← new_Winwheel no_document (wheelOptions 1);
  r1 ← addSegment w0 (sized 400) None;
  Js.Ok (fst r1).
Definition oversized : Winwheel.t := Eval vm_compute in returned oversized_script.

(** A wheel turned to [r] degrees. *)
Definition turned (w : Winwheel.t) (r : Q) : Winwheel.t :=
  Winwheel.set_options w
    (WinwheelOptions.set_rotationAngle (Winwheel.options w) r).

(** [new Winwheel({ numSegments: 4, animation: { type: "spinToStop",
    spins: 5, stopAngle: 90 } })] *)
Definition spin_to_90 : Animation.Options :=
  Animation.mkOptions spinToStop clockwise None None 10%Q (Some false)
    (Some 0) (Some "Power3.easeOut") (Some 90%Q) (Some 5%Q).
Definition spinning_script : Js.Result Winwheel.t :=
  new_Winwheel no_document
    (WinwheelOptions.set_animation (wheelOptions 4) (Some spin_to_90)).
Definition spinning : Winwheel.t := Eval vm_compute in returned spinning_script.

(** The same animation without a stop angle. *)
Definition spin_anywhere : Animation.Options :=
  Animation.mkOptions spinToStop clockwise None None 10%Q (Some false)
    (Some 0) (Some "Power3.easeOut") None (Some 5%Q).
Definition spinning_free : Winwheel.t :=
  Winwheel.set_animation spinning (Animation.new spin_anywhere).

(** A segment with the text [A], stroked in red, drawn curved; and one
    drawn horizontal and outer-aligned.  The fill colour is the wheel's
    default, black. *)
Definition curved_segment : Segment.t :=
  Segment.new
    (SegmentOptions.mk None "A" None None None None None None (Some curved)
       None None None None (Some "red") None None None None).
Definition outer_segment : Segment.t :=
  Segment.new
    (SegmentOptions.mk None "A" None None None None None None (Some horizontal)
       (Some outer) None None None (Some "red") None None None None).

(** [w = new Winwheel({ numSegments: 4 }); w.addSegment({ size: 0 })]:
    four segments without a size followed by one of size 0. *)
Definition with_zero_size_script : Js.Result Winwheel.t :=
  w0 ← new_Winwheel no_document (wheelOptions 4);
  r1 ← addSegment w0 (sized 0) None;
  Js.Ok (fst r1).
Definition with_zero_size : Winwheel.t :=
  Eval vm_compute in returned with_zero_size_script.

(** [w = new Winwheel({ numSegments: 4 }); w.deleteSegment(2)] *)
Definition after_delete_script : Js.Result Winwheel.t :=
  w0 ← new_Winwheel no_document (wheelOptions 4);
  deleteSegment w0 (Some 2).
Definition after_delete : Winwheel.t :=
  Eval vm_compute in returned after_delete_script.

(** [new Winwheel({ numSegments: 4 })] on the page with the canvas: the
    center is (200, 200), the outer radius 199 and the text margin
    20 / 1.7. *)
Definition on_canvas_script : Js.Result Winwheel.t :=
  new_Winwheel square_canvas (wheelOptions 4).
Definition on_canvas : Winwheel.t := Eval vm_compute in returned on_canvas_script.

(** ** Further methods and functions of [Winwheel.ts] *)

(** [getIndicatedSegment()] *)
Definition getIndicatedSegment (StringToNumber : string -> option Q)
    (w : Winwheel.t) : Js.Result (option Segment.t) :=
  prizeNumber ← getIndicatedSegmentNumber StringToNumber w;
  Js.Ok (Winwheel.segment w prizeNumber).

(** The angle of the pointer relative to the wheel, as
    [getIndicatedSegmentNumber] computes it before it scans the
    segments: [Math.floor(pointerAngle - getRotationPosition())], and
    [360 - Math.abs(...)] of that when it is negative. *)
Definition relativeAngle (w : Winwheel.t) : Z :=
  let rawAngle := getRotationPosition w in
  let relativeAngle :=
    Qfloor (WinwheelOptions.pointerAngle (Winwheel.options w) - rawAngle) in
  if Z.ltb relativeAngle 0 then 360 - Z.abs relativeAngle else relativeAngle.

(** [getRandomForSegment(segmentNumber)]; [random] is the value
    [Math.random()] returns when it is called.  The result is a number
    or [NaN], which is [None]: with a start angle [s] and an end angle
    of [+Infinity] the range is [+Infinity] and the stop angle is
    [s + 1 + Math.floor(random * Infinity)], which is [NaN] when
    [random] is 0 and [+Infinity] otherwise; with both angles infinite
    the range is [NaN], and with an infinite start only it is
    [-Infinity], neither of which is above 0. *)
Definition getRandomForSegment (random : Q) (w : Winwheel.t)
    (segmentNumber : Z) : option Js.Num :=
  if Z.eqb segmentNumber 0 then Some (Js.Fin 0)
  else
    match Winwheel.segment w segmentNumber with
    | None => Some (Js.Fin 0)
    | Some seg =>
        match Segment.startAngle seg, Segment.endAngle seg with
        | Js.Fin startAngle, Js.Fin endAngle =>
            let range := (endAngle - startAngle - 2)%Q in
            if Qltb 0 range
            then Some (Js.Fin (startAngle + 1
                               + inject_Z (Qfloor (random * range)))%Q)
            else Some (Js.Fin 0)
        | Js.Fin _, Js.PosInf =>
            if Qeq_bool random 0 then None else Some Js.PosInf
        | Js.PosInf, _ => Some (Js.Fin 0)
        end
    end.

(** [winwheelPercentToDegrees(percentValue)] *)
Definition winwheelPercentToDegrees (percentValue : Q) : Q :=
  if Qltb 0 percentValue && Qle_bool percentValue 100 then
    let divider := (percentValue / 100)%Q in
    (360 * divider)%Q
  else 0%Q.

(** ** Vocabulary of the further theorems *)

(** A wheel whose animation spins in the direction [d]. *)
Definition spinning_in (w : Winwheel.t) (d : SpinDirection) : Winwheel.t :=
  let o := Animation.options (Winwheel.animation w) in
  Winwheel.set_animation w
    (Animation.mk
       (Animation.mkOptions (Animation.type o) d (Animation.propertyName o)
          (Animation.propertyValue o) (Animation.duration o)
          (Animation.yoyo o) (Animation.repeat o) (Animation.easing o)
          (Animation.stopAngle o) (Animation.spins o))
       (Animation._stopAngle (Winwheel.animation w))).

(** The tween target of a wheel. *)
Definition target (w : Winwheel.t) : option Q :=
  Animation.propertyValue (Animation.options (Winwheel.animation w)).

(** A wheel whose animation has the stop angle [a]. *)
Definition stopping_at (w : Winwheel.t) (a : Q) : Winwheel.t :=
  let o := Animation.options (Winwheel.animation w) in
  Winwheel.set_animation w
    (Animation.mk
       (Animation.mkOptions (Animation.type o) (Animation.direction o)
          (Animation.propertyName o) (Animation.propertyValue o)
          (Animation.duration o) (Animation.yoyo o) (Animation.repeat o)
          (Animation.easing o) (Some a) (Animation.spins o))
       (Animation._stopAngle (Winwheel.animation w))).

(** Order on the numbers of the angle computations. *)
Definition angle_le (a b : Js.Num) : Prop := num_leb a b = true.

(** The height at which a text command draws. *)
Definition commandY (c : TextCommand) : Q :=
  match c with
  | fillText _ _ y => y
  | strokeText _ _ y => y
  end.

(** The characters of a text, line breaks apart. *)
Definition charCount (lines : list string) : nat :=
  fold_right (fun line n => (String.length line + n)%nat) O lines.

(** The options of the segment at position [i] of an array. *)
Definition slotOptions (a : Js.Array Segment.t) (i : Z)
  : option SegmentOptions.t :=
  option_map Segment.options (Js.get a i).

(** The canvas the constructor finds: none when [canvasId] is [null] or
    empty, else what the document holds under that id. *)
Definition canvasOf (document : string -> option Canvas.t)
    (o : WinwheelOptions.t) : option Canvas.t :=
  match WinwheelOptions.canvasId o with
  | Some id => if String.eqb id "" then None else document id
  | None => None
  end.

(** The boundary between segment [i] and the next one in a wheel of [n]
    equal segments. *)
Definition equalBoundary (n i : Z) : Q := (inject_Z i * (360 / inject_Z n))%Q.

(** No size set in a wheel is negative. *)
Definition no_negative_size (w : Winwheel.t) : Prop :=
  forall i q, 1 <= i <= Winwheel.numSegments w ->
    sizeAt (Winwheel.segments w) i = Some q -> (0 <= q)%Q.

(** How far from the center of the wheel a command of curved text
    draws: curved text is drawn at [centerX], above or below [centerY],
    on a canvas rotated about the center for each character. *)
Definition radialDistance (o : WinwheelOptions.t) (c : TextCommand) : Q :=
  Qabs (commandY c - Js.to_number (WinwheelOptions.centerY o)).

(** The lines of a text fit between the radii: from the first base line
    to the last it is at most as far as from [innerRadius] plus the
    margin, which is not negative, to [outerRadius] less the margin. *)
Definition lines_fit (o : WinwheelOptions.t) (st : TextStyle)
    (numLines : nat) : Prop :=
  (0 <= fontSize st)%Q /\
  (0 <= WinwheelOptions.innerRadius o + Js.to_number (margin st))%Q /\
  (fontSize st * (inject_Z (Z.of_nat numLines) - 1)
   <= Js.to_number (WinwheelOptions.outerRadius o) - Js.to_number (margin st)
      - (WinwheelOptions.innerRadius o + Js.to_number (margin st)))%Q.

(** How many times a text is drawn with one style: once per line for
    horizontal text, once per character for vertical text and for
    curved text in normal direction, and once per character and once
    more per line for curved text in reversed direction. *)
Definition drawsPerStyle (st : TextStyle) (lines : list string) : nat :=
  match orientation st, direction st with
  | horizontal, _ => List.length lines
  | vertical, _ => charCount lines
  | curved, normal => charCount lines
  | curved, reversed => (charCount lines + List.length lines)%nat
  end.

(** A segment that draws no text: its text is empty, or neither a fill
    nor a stroke colour is resolved for it. *)
Definition draws_no_text (o : WinwheelOptions.t) (seg : Segment.t) : Prop :=
  SegmentOptions.text (Segment.options seg) = "" \/
  (Js.truthy_str (fillStyle (resolveTextStyle o (Segment.options seg))) = false /\
   Js.truthy_str (strokeStyle (resolveTextStyle o (Segment.options seg))) = false).

(** A segment with the text [A] on one line and [B] on the next, drawn
    curved, outer-aligned and reversed, filled in the wheel's default
    black and stroked in red. *)
Definition curved_outer_segment : Segment.t :=
  Segment.new
    (SegmentOptions.mk None (String "A" (String "010" (String "B" "")))
       None None None None None None (Some curved)
       (Some outer) (Some reversed) None None (Some "red") None None None None).

(** The last command drawn for it. *)
Definition curved_outer_last : TextCommand :=
  List.last (drawOneSegmentText (Winwheel.options on_canvas) curved_outer_segment)
            (fillText "" 0 0).

(** ** The hit test

    [getSegmentNumberAt] works out an angle with [Math.atan] and
    [Math.PI] and a distance with [Math.sqrt].  Its numbers are
    modelled by the real numbers of the Standard Library, with the
    arc tangent, the square root and pi of the library; the numbers the
    wheel holds are rationals and enter through [Q2R].  The rectangle
    that [canvas.getBoundingClientRect()] returns is what the browser
    reports for the canvas element and is a parameter. *)


Module HitTest.
Import Stdlib.Reals.Reals.
Local Open Scope R_scope.

(** [DOMRect], the properties [windowToCanvas] reads. *)
Module DOMRect.
Record t : Type := mk { left : R; top : R; width : R; height : R }.
End DOMRect.

(** A number that is a whole number, or is not finite: [None] stands for
    [NaN], [+Infinity] and [-Infinity]. *)
Definition Whole : Type := option Z.

(** [Math.floor(x - offset * (size / boxSize))].  The quotient is
    finite exactly when [boxSize] is not 0; when it is 0 the quotient is
    infinite or [NaN], and so are the product, the difference and its
    floor. *)
Definition canvasCoordinate (x offset size boxSize : R) : Whole :=
  if Req_dec_T boxSize 0 then None
  else Some (Int_part (x - offset * (size / boxSize))).

(** [windowToCanvas(x, y)] *)
Definition windowToCanvas (bbox : DOMRect.t) (w : Winwheel.t) (x y : R)
  : Js.Result (Whole * Whole) :=
  canvas ← Js.deref (Winwheel.canvas w);
  Js.Ok (canvasCoordinate x (DOMRect.left bbox)
           (Q2R (Canvas.width canvas)) (DOMRect.width bbox),
         canvasCoordinate y (DOMRect.top bbox)
           (Q2R (Canvas.height canvas)) (DOMRect.height bbox)).

(** The halves of the wheel a location is in. *)
Inductive LeftRight : Type := sideR | sideL.
Inductive TopBottom : Type := sideT | sideB.

(** The quotient of two lengths, which are not negative: a number,
    [+Infinity] for a positive length over 0, or [NaN] for 0 over 0. *)
Inductive Quotient : Type :=
| Finite (q : R)
| Infinite
| NotANumber.

Definition divide (a b : R) : Quotient :=
  if Req_dec_T b 0 then
    if Req_dec_T a 0 then NotANumber else Infinite
  else Finite (a / b).

(** [(Math.atan(tanVal) * 180) / Math.PI]; [None] is [NaN].
    [Math.atan(+Infinity)] is half of pi. *)
Definition atanDegrees (tanVal : Quotient) : option R :=
  match tanVal with
  | Finite t => Some (atan t * 180 / PI)
  | Infinite => Some (PI / 2 * 180 / PI)
  | NotANumber => None
  end.

(** [Math.round(x)]: the nearest whole number, the larger one of two. *)
Definition round (x : R) : Z := Int_part (x + / 2).

(** The first part of [getSegmentNumberAt], up to the scan of the
    segments: the angle of the location around the wheel, less the
    rotation of the wheel, and its distance from the center.  The angle
    is [None] when it is [NaN], the distance when it is [NaN] or
    infinite.  With a coordinate that is not finite the distance is not
    finite and fails the test against the radii whatever the angle is,
    so that the angle is left out there. *)
Definition locate (w : Winwheel.t) (loc : Whole * Whole)
  : option R * option R :=
  let o := Winwheel.options w in
  let centerX := Q2R (Js.to_number (WinwheelOptions.centerX o)) in
  let centerY := Q2R (Js.to_number (WinwheelOptions.centerY o)) in
  match loc with
  | (Some x, Some y) =>
      let '(adjacentSideLength, leftRight) :=
        if Rgt_dec (IZR x) centerX then (IZR x - centerX, sideR)
        else (centerX - IZR x, sideL) in
      let '(oppositeSideLength, topBottom) :=
        if Rgt_dec (IZR y) centerY then (IZR y - centerY, sideB)
        else (centerY - IZR y, sideT) in
      let tanVal := divide oppositeSideLength adjacentSideLength in
      let result := atanDegrees tanVal in
      let hypotenuseSideLength :=
        sqrt (oppositeSideLength * oppositeSideLength
              + adjacentSideLength * adjacentSideLength) in
      let locationAngle :=
        option_map
          (fun result =>
             IZR match topBottom, leftRight with
                 | sideT, sideR => round (90 - result)
                 | sideB, sideR => round (result + 90)
                 | sideB, sideL => round (90 - result + 180)
                 | sideT, sideL => round (result + 270)
                 end)
          result in
      let locationAngle :=
        if Qeq_bool (WinwheelOptions.rotationAngle o) 0 then locationAngle
        else
          let rotatedPosition := Q2R (getRotationPosition w) in
          option_map
            (fun locationAngle =>
               let locationAngle := locationAngle - rotatedPosition in
               if Rlt_dec locationAngle 0 then 360 - Rabs locationAngle
               else locationAngle)
            locationAngle in
      (locationAngle, Some hypotenuseSideLength)
  | _ => (None, None)
  end.

(** [a >= n] and [a <= n] for an angle or a distance [a] and a number
    [n] of the wheel.  [None] is an angle that is [NaN], of which no
    comparison holds, or a distance that is [NaN] or [+Infinity], which
    is never at most [outerRadius]: the scan tests the two comparisons
    of the distance together, and they are both taken as failed. *)
Definition atLeast (a : option R) (n : Js.Num) : bool :=
  match a, n with
  | Some a, Js.Fin q => if Rge_dec a (Q2R q) then true else false
  | _, _ => false
  end.

Definition atMost (a : option R) (n : Js.Num) : bool :=
  match a, n with
  | Some a, Js.Fin q => if Rle_dec a (Q2R q) then true else false
  | Some _, Js.PosInf => true
  | None, _ => false
  end.

(** The second part of [getSegmentNumberAt]: the scan of the segments
    for the first one whose range holds the angle, the distance being
    between the radii. *)
Definition scanSegments (w : Winwheel.t) (locationAngle : option R)
    (hypotenuseSideLength : option R) : Js.Result (option Z) :=
  let o := Winwheel.options w in
  Js.for_to 1 (Winwheel.numSegments w)
    (fun x foundSegmentNumber =>
       match foundSegmentNumber with
       | Some _ => Js.Ok foundSegmentNumber
       | None =>
           seg ← Js.deref (Winwheel.segment w x);
           if atLeast locationAngle (Segment.startAngle seg)
              && atMost locationAngle (Segment.endAngle seg)
           then
             if atLeast hypotenuseSideLength
                  (Js.Fin (WinwheelOptions.innerRadius o))
                && atMost hypotenuseSideLength
                     (Js.Fin (Js.to_number (WinwheelOptions.outerRadius o)))
             then Js.Ok (Some x)
             else Js.Ok None
           else Js.Ok None
       end)
    None.

(** [getSegmentNumberAt(x, y)]; [None] is [null]. *)
Definition getSegmentNumberAt (bbox : DOMRect.t) (w : Winwheel.t) (x y : R)
  : Js.Result (option Z) :=
  loc ← windowToCanvas bbox w x y;
  let '(locationAngle, hypotenuseSideLength) := locate w loc in
  scanSegments w locationAngle hypotenuseSideLength.

(** [getSegmentAt(x, y)]; [None] is [null] or [undefined]. *)
Definition getSegmentAt (bbox : DOMRect.t) (w : Winwheel.t) (x y : R)
  : Js.Result (option Segment.t) :=
  segmentNumber ← getSegmentNumberAt bbox w x y;
  Js.Ok (match segmentNumber with
         | Some n => Winwheel.segment w n
         | None => None
         end).

(** *** Reference quantities for the hit test *)

(** A canvas that lies at the origin of the window: the rectangle has
    no offset, and a width and a height that are not 0. *)
Definition at_origin (bbox : DOMRect.t) : Prop :=
  DOMRect.left bbox = 0 /\ DOMRect.top bbox = 0 /\
  DOMRect.width bbox <> 0 /\ DOMRect.height bbox <> 0.

(** The rectangle of a canvas of 400 by 400 at the origin of the
    window. *)
Definition square_box : DOMRect.t := DOMRect.mk 0 0 400 400.

(** The canvas point at the mid-angle of a segment and at the
    mid-radius between [innerRadius] and [outerRadius], as the wheel is
    drawn: angles run clockwise from the top of the wheel, turned by
    [rotationAngle]. *)
Definition midPoint (w : Winwheel.t) (seg : Segment.t) : option (R * R) :=
  let o := Winwheel.options w in
  match Segment.startAngle seg, Segment.endAngle seg with
  | Js.Fin startAngle, Js.Fin endAngle =>
      let angle :=
        ((Q2R startAngle + Q2R endAngle) / 2
         + Q2R (WinwheelOptions.rotationAngle o)) * PI / 180 in
      let radius :=
        (Q2R (WinwheelOptions.innerRadius o)
         + Q2R (Js.to_number (WinwheelOptions.outerRadius o))) / 2 in
      Some (Q2R (Js.to_number (WinwheelOptions.centerX o)) + radius * sin angle,
            Q2R (Js.to_number (WinwheelOptions.centerY o)) - radius * cos angle)
  | _, _ => None
  end.

(** The range of a segment holds an angle. *)
Definition holds (seg : Segment.t) (a : option R) : Prop :=
  atLeast a (Segment.startAngle seg) = true /\
  atMost a (Segment.endAngle seg) = true.

(** A distance lies between the radii of the wheel. *)
Definition between_radii (w : Winwheel.t) (h : option R) : Prop :=
  atLeast h (Js.Fin (WinwheelOptions.innerRadius (Winwheel.options w))) = true /\
  atMost h (Js.Fin (Js.to_number
                      (WinwheelOptions.outerRadius (Winwheel.options w))))
  = true.

(** The scan stops at a segment: its range holds the angle and the
    distance lies between the radii. *)
Definition stops_at (w : Winwheel.t) (a h : option R) (x : Z) : Prop :=
  exists seg, Winwheel.segment w x = Some seg /\ holds seg a /\ between_radii w h.

(** The hit test reads a canvas point as segment [i]: the point taken
    down to whole pixels lies between the radii, and its angle, rounded
    to a whole degree and less the rotation of the wheel, lies in the
    range of segment [i] and in the range of no segment before it. *)
Definition reads_as (w : Winwheel.t) (p : R * R) (i : Z) : Prop :=
  let '(a, h) := locate w (Some (Int_part (fst p)), Some (Int_part (snd p))) in
  between_radii w h /\
  (exists seg, Winwheel.segment w i = Some seg /\ holds seg a) /\
  (forall j seg, (1 <= j < i)%Z -> Winwheel.segment w j = Some seg ->
     ~ holds seg a).

End HitTest.
(** ** Loops *)

Lemma for_up_total {S} (P : Z -> S -> Prop) (body : Z -> S -> Js.Result S) :
  forall (count : nat) (x : Z) (s : S),
    P x s ->
    (forall y t, x <= y < x + Z.of_nat count -> P y t ->
       exists t', body y t = Js.Ok t' /\ P (y + 1) t') ->
    exists r, Js.for_up count x body s = Js.Ok r /\ P (x + Z.of_nat count) r.
Proof.
  induction count as [|k IH]; intros x s Hs Hbody.
  - exists s. simpl. split; [reflexivity|]. now replace (x + Z.of_nat 0) with x by lia.
  - destruct (Hbody x s) as (t' & Ht' & HP); [lia | assumption |].
    destruct (IH (x + 1) t' HP) as (r & Hr & HPr).
    + intros y t Hy HPy. apply Hbody; [lia | assumption].
    + exists r. simpl. rewrite Ht'. simpl. split; [exact Hr|].
      now replace (x + Z.of_nat (Datatypes.S k)) with (x + 1 + Z.of_nat k) by lia.
Qed.

Lemma for_to_total {S} (P : Z -> S -> Prop) (body : Z -> S -> Js.Result S)
    (lo hi : Z) (s : S) :
  lo <= hi + 1 ->
  P lo s ->
  (forall y t, lo <= y <= hi -> P y t ->
     exists t', body y t = Js.Ok t' /\ P (y + 1) t') ->
  exists r, Js.for_to lo hi body s = Js.Ok r /\ P (hi + 1) r.
Proof.
  intros Hle Hs Hbody. unfold Js.for_to.
  destruct (for_up_total P body (Z.to_nat (hi - lo + 1)) lo s Hs) as (r & Hr & HP).
  - intros y t Hy. apply Hbody. lia.
  - exists r. split; [exact Hr|].
    now replace (hi + 1) with (lo + Z.of_nat (Z.to_nat (hi - lo + 1))) by lia.
Qed.

Lemma for_to_empty {S} (body : Z -> S -> Js.Result S) (lo hi : Z) (s : S) :
  hi < lo -> Js.for_to lo hi body s = Js.Ok s.
Proof.
  intros H. unfold Js.for_to.
  now replace (Z.to_nat (hi - lo + 1)) with O by lia.
Qed.

(** ** Arrays *)

Lemma get_set_eq {A} (a : Js.Array A) i v : Js.get (Js.set a i v) i = Some v.
Proof. unfold Js.get, Js.set. simpl. apply lookup_insert_eq. Qed.

Lemma get_set_ne {A} (a : Js.Array A) i j v :
  i <> j -> Js.get (Js.set a i v) j = Js.get a j.
Proof. intros H. unfold Js.get, Js.set. simpl. now apply lookup_insert_ne. Qed.

Lemma get_set_undefined_eq {A} (a : Js.Array A) i :
  Js.get (Js.set_undefined a i) i = None.
Proof. unfold Js.get, Js.set_undefined. simpl. apply lookup_delete_eq. Qed.

Lemma get_set_undefined_ne {A} (a : Js.Array A) i j :
  i <> j -> Js.get (Js.set_undefined a i) j = Js.get a j.
Proof.
  intros H. unfold Js.get, Js.set_undefined. simpl. now apply lookup_delete_ne.
Qed.

(** ** The two loops of [updateSegmentSizes] *)

Lemma of_nat_to_nat_succ (y : Z) :
  1 <= y -> Z.to_nat y = Datatypes.S (Z.to_nat (y - 1)).
Proof. lia. Qed.

Lemma explicitSum_step a (y : Z) :
  1 <= y ->
  explicitSum a (Z.to_nat y)
  = match sizeAt a y with
    | Some size => (explicitSum a (Z.to_nat (y - 1)) + size)%Q
    | None => explicitSum a (Z.to_nat (y - 1))
    end.
Proof.
  intros H. rewrite (of_nat_to_nat_succ y H). simpl explicitSum.
  now replace (Z.of_nat (Datatypes.S (Z.to_nat (y - 1)))) with y by lia.
Qed.

Lemma countSet_step a (y : Z) :
  1 <= y ->
  countSet a (Z.to_nat y)
  = match sizeAt a y with
    | Some _ => countSet a (Z.to_nat (y - 1)) + 1
    | None => countSet a (Z.to_nat (y - 1))
    end.
Proof.
  intros H. rewrite (of_nat_to_nat_succ y H). simpl countSet.
  now replace (Z.of_nat (Datatypes.S (Z.to_nat (y - 1)))) with y by lia.
Qed.

Lemma angleAfter_step d a (y : Z) :
  1 <= y ->
  angleAfter d a (Z.to_nat y)
  = Js.add (angleAfter d a (Z.to_nat (y - 1))) (arcAt d a y).
Proof.
  intros H. rewrite (of_nat_to_nat_succ y H). simpl angleAfter.
  now replace (Z.of_nat (Datatypes.S (Z.to_nat (y - 1)))) with y by lia.
Qed.

(** The first loop returns the sum and the count of the sizes set. *)
Lemma sumSetSizes_spec (w : Winwheel.t) :
  populated w ->
  sumSetSizes w
  = Js.Ok (explicitSum (Winwheel.segments w) (Z.to_nat (Winwheel.numSegments w)),
           countSet (Winwheel.segments w) (Z.to_nat (Winwheel.numSegments w))).
Proof.
  intros Hpop. unfold sumSetSizes.
  set (a := Winwheel.segments w). set (n := Winwheel.numSegments w).
  destruct (Z_lt_le_dec n 1) as [Hn|Hn].
  - rewrite for_to_empty by lia. now replace (Z.to_nat n) with O by lia.
  - edestruct (for_to_total
      (fun y (st : Q * Z) =>
         st = (explicitSum a (Z.to_nat (y - 1)), countSet a (Z.to_nat (y - 1)))))
      as (r & Hr & HP); [| | | rewrite Hr].
    + lia.
    + reflexivity.
    + intros y [u c] Hy Hst. inversion Hst; subst u c.
      destruct (Hpop y Hy) as [seg Hseg]. rewrite Hseg. simpl.
      replace (y + 1 - 1) with y by lia.
      rewrite (explicitSum_step a y), (countSet_step a y) by lia.
      unfold sizeAt. unfold Winwheel.segment in Hseg. fold a in Hseg.
      rewrite Hseg.
      destruct (SegmentOptions.size (Segment.options seg)) as [q|]; simpl;
        eexists; split; reflexivity.
    + simpl in HP. replace (n + 1 - 1) with n in HP by lia. now rewrite HP.
Qed.

(** The second loop gives segment [i] the running angle before it as
    start and the running angle after it as end, and touches nothing
    else. *)
Lemma setAngles_spec (n : Z) (d : Js.Num) (a : Js.Array Segment.t) :
  (forall i, 1 <= i <= n -> is_Some (Js.get a i)) ->
  exists a',
    setAngles n d a = Js.Ok (angleAfter d a (Z.to_nat n), a') /\
    (forall i, 1 <= i <= n ->
       exists seg, Js.get a i = Some seg /\
         Js.get a' i
         = Some (Segment.set_angles seg
                   (angleAfter d a (Z.to_nat (i - 1)))
                   (angleAfter d a (Z.to_nat i)))) /\
    (forall i, ~ 1 <= i <= n -> Js.get a' i = Js.get a i).
Proof.
  intros Hpop. unfold setAngles.
  destruct (Z_lt_le_dec n 1) as [Hn|Hn].
  - rewrite for_to_empty by lia. exists a.
    replace (Z.to_nat n) with O by lia. simpl.
    split; [reflexivity|]. split; [intros; lia | reflexivity].
  - edestruct (for_to_total
      (fun y (st : Js.Num * Js.Array Segment.t) =>
         fst st = angleAfter d a (Z.to_nat (y - 1)) /\
         (forall i, 1 <= i < y ->
            exists seg, Js.get a i = Some seg /\
              Js.get (snd st) i
              = Some (Segment.set_angles seg
                        (angleAfter d a (Z.to_nat (i - 1)))
                        (angleAfter d a (Z.to_nat i)))) /\
         (forall i, ~ 1 <= i < y -> Js.get (snd st) i = Js.get a i)))
      as ([cur a'] & Hr & Hcur & Hin & Hout); [| | | rewrite Hr].
    + lia.
    + simpl. split; [reflexivity|]. split; [intros; lia | reflexivity].
    + intros y [cur a'] Hy (Hcur & Hin & Hout). simpl in Hcur, Hin, Hout.
      destruct (Hpop y Hy) as [seg Hseg].
      rewrite Hout, Hseg by lia. simpl.
      eexists. split; [reflexivity|]. simpl.
      assert (Hnext : Js.add cur (segmentArc d (Segment.options seg))
                      = angleAfter d a (Z.to_nat y)).
      { rewrite (angleAfter_step d a y) by lia. unfold arcAt.
        now rewrite Hseg, Hcur. }
      replace (y + 1 - 1) with y by lia.
      split; [exact Hnext|]. split.
      * intros i Hi. destruct (Z.eq_dec i y) as [->|Hne].
        -- exists seg. split; [exact Hseg|].
           now rewrite get_set_eq, Hnext, Hcur.
        -- rewrite get_set_ne by congruence. apply Hin. lia.
      * intros i Hi. rewrite get_set_ne by lia. apply Hout. lia.
    + simpl in Hcur, Hin, Hout. replace (n + 1 - 1) with n in Hcur by lia.
      exists a'. rewrite Hcur. split; [reflexivity|]. split.
      * intros i Hi. apply Hin. lia.
      * intros i Hi. apply Hout. lia.
Qed.

(** [updateSegmentSizes] on a populated wheel: it returns, it changes
    only the angles of the segments 1 to [numSegments], and these are
    the running angles for the share [degreesEach_of] computes. *)
Lemma updateSegmentSizes_spec (w : Winwheel.t) :
  populated w ->
  let a := Winwheel.segments w in
  let k := Z.to_nat (Winwheel.numSegments w) in
  let d := degreesEach_of (Winwheel.numSegments w)
             (explicitSum a k) (countSet a k) in
  exists a',
    updateSegmentSizes w = Js.Ok (Winwheel.set_segments w a') /\
    (forall i, 1 <= i <= Winwheel.numSegments w ->
       exists seg, Winwheel.segment w i = Some seg /\
         Js.get a' i
         = Some (Segment.set_angles seg
                   (angleAfter d a (Z.to_nat (i - 1)))
                   (angleAfter d a (Z.to_nat i)))) /\
    (forall i, ~ 1 <= i <= Winwheel.numSegments w ->
       Js.get a' i = Winwheel.segment w i).
Proof.
  intros Hpop a k d. unfold updateSegmentSizes.
  rewrite (sumSetSizes_spec w Hpop). simpl. fold a k d.
  destruct (setAngles_spec (Winwheel.numSegments w) d a Hpop)
    as (a' & Hrun & Hin & Hout).
  rewrite Hrun. simpl. exists a'. split; [reflexivity|]. split; assumption.
Qed.

(** ** Arithmetic of the running angle *)

Lemma countSet_bounds a (k : nat) : 0 <= countSet a k <= Z.of_nat k.
Proof.
  induction k as [|k IH]; simpl countSet; [lia|].
  destruct (sizeAt a (Z.of_nat (Datatypes.S k))); lia.
Qed.

Lemma countSet_unset a (k : nat) :
  (exists i, 1 <= i <= Z.of_nat k /\ sizeAt a i = None) ->
  countSet a k < Z.of_nat k.
Proof.
  induction k as [|k IH]; intros (i & Hi & Hnone); [lia|].
  simpl countSet. pose proof (countSet_bounds a k) as Hb.
  destruct (Z.eq_dec i (Z.of_nat (Datatypes.S k))) as [->|Hne].
  - rewrite Hnone. lia.
  - assert (countSet a k < Z.of_nat k) by (apply IH; exists i; split; [lia|assumption]).
    destruct (sizeAt a (Z.of_nat (Datatypes.S k))); lia.
Qed.

Lemma truthy_num_false_iff (q : Q) :
  Js.truthy_num (Some q) = false <-> q == 0.
Proof.
  unfold Js.truthy_num. rewrite Bool.negb_false_iff. apply Qeq_bool_iff.
Qed.

(** With a zero share the running angle is the sum of the sizes set. *)
Lemma angleAfter_zero_share a (de : Q) (k : nat) :
  de == 0 ->
  exists v, angleAfter (Js.Fin de) a k = Js.Fin v /\ v == explicitSum a k.
Proof.
  intros Hde. induction k as [|k (v & Hv & Hsum)]; simpl angleAfter; simpl explicitSum.
  - exists 0%Q. split; reflexivity.
  - rewrite Hv. unfold arcAt, sizeAt, segmentArc.
    destruct (Js.get a (Z.of_nat (Datatypes.S k))) as [seg|].
    + destruct (SegmentOptions.size (Segment.options seg)) as [q|] eqn:Hq.
      * destruct (Js.truthy_num (Some q)) eqn:Ht; simpl.
        -- eexists. split; [reflexivity|]. now rewrite Hsum.
        -- apply truthy_num_false_iff in Ht.
           eexists. split; [reflexivity|]. rewrite Hsum, Hde, Ht. reflexivity.
      * simpl. eexists. split; [reflexivity|]. rewrite Hsum, Hde. ring.
    + simpl. eexists. split; [reflexivity|]. rewrite Hsum. ring.
Qed.

(** With no size equal to zero, every segment without a size adds the
    share [de]. *)
Lemma angleAfter_share a (de : Q) (k : nat) :
  (forall i, 1 <= i <= Z.of_nat k -> is_Some (Js.get a i)) ->
  (forall i q, 1 <= i <= Z.of_nat k -> sizeAt a i = Some q -> ~ q == 0) ->
  exists v,
    angleAfter (Js.Fin de) a k = Js.Fin v /\
    v == explicitSum a k + inject_Z (Z.of_nat k - countSet a k) * de.
Proof.
  induction k as [|k IH]; intros Hpop Hnz; simpl angleAfter; simpl explicitSum;
    simpl countSet.
  - exists 0%Q. split; [reflexivity|].
    change (inject_Z (Z.of_nat 0 - 0)) with 0%Q. ring.
  - destruct IH as (v & Hv & Hsum).
    + intros i Hi. apply Hpop. lia.
    + intros i q Hi. apply Hnz. lia.
    + rewrite Hv. unfold arcAt, segmentArc.
      destruct (Hpop (Z.of_nat (Datatypes.S k))) as [seg Hseg]; [lia|].
      rewrite Hseg.
      pose proof (Hnz (Z.of_nat (Datatypes.S k))) as Hq.
      unfold sizeAt in *. rewrite Hseg in *.
      destruct (SegmentOptions.size (Segment.options seg)) as [q|].
      * assert (Js.truthy_num (Some q) = true) as ->.
        { destruct (Js.truthy_num (Some q)) eqn:Ht; [reflexivity|].
          apply truthy_num_false_iff in Ht. exfalso.
          apply (Hq q); [lia | reflexivity | exact Ht]. }
        simpl. eexists. split; [reflexivity|]. rewrite Hsum.
        replace (Z.of_nat (Datatypes.S k) - (countSet a k + 1))
          with (Z.of_nat k - countSet a k) by lia.
        ring.
      * simpl. eexists. split; [reflexivity|]. rewrite Hsum.
        replace (Z.of_nat (Datatypes.S k) - countSet a k)
          with (Z.of_nat k - countSet a k + 1) by lia.
        rewrite inject_Z_plus. ring.
Qed.

Lemma Qltb_true (a b : Q) : Qltb a b = true <-> (a < b)%Q.
Proof.
  unfold Qltb. rewrite Bool.negb_true_iff. split.
  - intros H. apply Qnot_le_lt. intros Hle. apply Qle_bool_iff in Hle. congruence.
  - intros H. destruct (Qle_bool b a) eqn:E; [|reflexivity].
    apply Qle_bool_iff in E. exfalso. apply (Qlt_not_le _ _ H E).
Qed.

Lemma Qltb_false (a b : Q) : Qltb a b = false <-> (b <= a)%Q.
Proof.
  unfold Qltb. rewrite Bool.negb_false_iff. apply Qle_bool_iff.
Qed.

(** The share is zero as soon as no arc is left. *)
Lemma degreesEach_of_none_left (n : Z) (arcUsed : Q) (numSet : Z) :
  (360 <= arcUsed)%Q -> degreesEach_of n arcUsed numSet = Js.Fin 0.
Proof.
  intros H. unfold degreesEach_of.
  assert (Qltb 0 (360 - arcUsed) = false) as ->; [|reflexivity].
  apply Qltb_false. lra.
Qed.

Lemma degreesEach_of_some_left (n : Z) (arcUsed : Q) (numSet : Z) :
  (arcUsed < 360)%Q -> n - numSet <> 0 ->
  degreesEach_of n arcUsed numSet
  = Js.Fin ((360 - arcUsed) / inject_Z (n - numSet)).
Proof.
  intros H Hd. unfold degreesEach_of.
  assert (Qltb 0 (360 - arcUsed) = true) as ->.
  { apply Qltb_true. lra. }
  unfold Js.div_pos. destruct (Z.eqb_spec (n - numSet) 0); [contradiction|reflexivity].
Qed.

(** ** The constructor *)

Lemma for_up_ext {S} (f g : Z -> S -> Js.Result S) :
  (forall x s, f x s = g x s) ->
  forall count x s, Js.for_up count x f s = Js.for_up count x g s.
Proof.
  intros Hfg. induction count as [|k IH]; intros x s; simpl; [reflexivity|].
  rewrite Hfg. destruct (g x s); simpl; [apply IH | reflexivity].
Qed.

Lemma set_set {A} (a : Js.Array A) i u v :
  Js.set (Js.set a i u) i v = Js.set a i v.
Proof.
  unfold Js.set. simpl. f_equal.
  - apply insert_insert_eq.
  - unfold Js.grow. destruct (Z.leb 0 i); lia.
Qed.

(** The options passed for the segments do not reach the array. *)
Lemma populateSegments_ignores_options (o : WinwheelOptions.t)
    (l : list SegmentOptions.t) :
  populateSegments (WinwheelOptions.set_segments o l) = populateSegments o.
Proof.
  unfold populateSegments. simpl. unfold Js.for_to. apply for_up_ext.
  intros x a.
  destruct (nth_error l (Z.to_nat (x - 1)));
    destruct (nth_error (WinwheelOptions.segments o) (Z.to_nat (x - 1)));
    now rewrite ?set_set.
Qed.

Lemma populateSegments_spec (o : WinwheelOptions.t) :
  exists a,
    populateSegments o = Js.Ok a /\
    (forall i, 1 <= i <= WinwheelOptions.numSegments o ->
       Js.get a i = Some (Segment.new SegmentOptions.defaultOptions)) /\
    (forall i, ~ 1 <= i <= WinwheelOptions.numSegments o -> Js.get a i = None).
Proof.
  unfold populateSegments. set (n := WinwheelOptions.numSegments o).
  destruct (Z_lt_le_dec n 1) as [Hn|Hn].
  - rewrite for_to_empty by lia. exists Js.empty_array.
    split; [reflexivity|]. split; [intros; lia|].
    intros i _. unfold Js.get. simpl. apply lookup_empty.
  - edestruct (for_to_total
      (fun y (a : Js.Array Segment.t) =>
         (forall i, 1 <= i < y ->
            Js.get a i = Some (Segment.new SegmentOptions.defaultOptions)) /\
         (forall i, ~ 1 <= i < y -> Js.get a i = None)))
      as (a & Hr & Hin & Hout); [| | | rewrite Hr].
    + lia.
    + split; [intros; lia|]. intros i _. unfold Js.get. simpl. apply lookup_empty.
    + intros y a Hy (Hin & Hout). eexists. split; [reflexivity|]. split.
      * intros i Hi. destruct (Z.eq_dec i y) as [->|Hne].
        -- apply get_set_eq.
        -- rewrite get_set_ne by congruence.
           destruct (nth_error _ _); [rewrite get_set_ne by congruence|];
             apply Hin; lia.
      * intros i Hi. rewrite get_set_ne by lia.
        destruct (nth_error _ _); [rewrite get_set_ne by lia|]; apply Hout; lia.
    + exists a. split; [reflexivity|]. split.
      * intros i Hi. apply Hin. lia.
      * intros i Hi. apply Hout. lia.
Qed.

Lemma canvasDefaults_numSegments o c :
  WinwheelOptions.numSegments (canvasDefaults o c) = WinwheelOptions.numSegments o.
Proof. unfold canvasDefaults. now destruct c. Qed.

Lemma canvasDefaults_set_segments o c l :
  canvasDefaults (WinwheelOptions.set_segments o l) c
  = WinwheelOptions.set_segments (canvasDefaults o c) l.
Proof. unfold canvasDefaults. now destruct c. Qed.

(** [updateSegmentSizes] reads [numSegments] and the array only. *)
Lemma updateSegmentSizes_reads (w1 w2 : Winwheel.t) :
  Winwheel.numSegments w1 = Winwheel.numSegments w2 ->
  Winwheel.segments w1 = Winwheel.segments w2 ->
  match updateSegmentSizes w1, updateSegmentSizes w2 with
  | Js.Ok r1, Js.Ok r2 =>
      exists a, r1 = Winwheel.set_segments w1 a /\ r2 = Winwheel.set_segments w2 a
  | Js.TypeError, Js.TypeError => True
  | _, _ => False
  end.
Proof.
  intros Hn Ha. unfold updateSegmentSizes, sumSetSizes, Winwheel.segment.
  rewrite Hn, Ha.
  destruct (Js.for_to 1 (Winwheel.numSegments w2) _ (0%Q, 0)) as [[u c]|];
    simpl; [|exact I].
  destruct (setAngles _ _ _) as [[cur a]|]; simpl; [|exact I].
  exists a. split; reflexivity.
Qed.

(** The constructed wheel: every position from 1 to [numSegments] holds
    a segment with the default options, and no other position holds
    one. *)
Lemma new_Winwheel_spec document (o : WinwheelOptions.t) :
  exists w,
    new_Winwheel document o = Js.Ok w /\
    Winwheel.numSegments w = WinwheelOptions.numSegments o /\
    (forall i, 1 <= i <= WinwheelOptions.numSegments o ->
       exists seg, Winwheel.segment w i = Some seg /\
         Segment.options seg = SegmentOptions.defaultOptions) /\
    (forall i, ~ 1 <= i <= WinwheelOptions.numSegments o ->
       Winwheel.segment w i = None).
Proof.
  unfold new_Winwheel.
  set (canvas := match WinwheelOptions.canvasId o with
                 | Some id => if String.eqb id "" then None else document id
                 | None => None end).
  destruct (populateSegments_spec (canvasDefaults o canvas))
    as (a & Ha & Hin & Hout).
  rewrite canvasDefaults_numSegments in Hin, Hout.
  rewrite Ha. simpl.
  set (w0 := Winwheel.mk (canvasDefaults o canvas) a canvas _).
  assert (Hn0 : Winwheel.numSegments w0 = WinwheelOptions.numSegments o)
    by apply canvasDefaults_numSegments.
  assert (Hpop : populated w0).
  { intros i Hi. rewrite Hn0 in Hi. unfold Winwheel.segment. simpl.
    rewrite (Hin i Hi). eauto. }
  destruct (updateSegmentSizes_spec w0 Hpop) as (a' & Hup & Hin' & Hout').
  rewrite Hup. simpl. eexists. split; [reflexivity|].
  rewrite Hn0 in Hin', Hout'. split; [|split].
  - unfold Winwheel.numSegments. simpl.
    unfold defaultTextMargin. destruct (WinwheelOptions.textMargin _); simpl;
      apply canvasDefaults_numSegments.
  - intros i Hi. destruct (Hin' i Hi) as (seg & Hseg & Hseg').
    unfold Winwheel.segment in *. simpl in *. rewrite Hseg'.
    eexists. split; [reflexivity|]. simpl.
    rewrite (Hin i Hi) in Hseg. now inversion Hseg.
  - intros i Hi. unfold Winwheel.segment in *. simpl in *.
    rewrite (Hout' i Hi). apply Hout. exact Hi.
Qed.

(** C10.  The per-segment options passed to the constructor have no
    effect: the constructor returns, every segment from 1 to
    [numSegments] of the new wheel has exactly the default segment
    options (no size, empty text, no style), and the segment array is the
    same whatever [options.segments] was. *)
Theorem constructor_discards_segment_options
    (document : string -> option Canvas.t) (o : WinwheelOptions.t) :
  exists w,
    new_Winwheel document o = Js.Ok w /\
    (forall i, 1 <= i <= WinwheelOptions.numSegments o ->
       exists seg, Winwheel.segment w i = Some seg /\
         Segment.options seg = SegmentOptions.defaultOptions) /\
    (forall l, exists w',
       new_Winwheel document (WinwheelOptions.set_segments o l) = Js.Ok w' /\
       Winwheel.segments w' = Winwheel.segments w).
Proof.
  destruct (new_Winwheel_spec document o) as (w & Hw & _ & Hin & _).
  exists w. split; [exact Hw|]. split; [exact Hin|].
  intros l.
  destruct (new_Winwheel_spec document (WinwheelOptions.set_segments o l))
    as (w' & Hw' & _).
  exists w'. split; [exact Hw'|].
  revert Hw Hw'. unfold new_Winwheel. simpl WinwheelOptions.canvasId.
  set (canvas := match WinwheelOptions.canvasId o with
                 | Some id => if String.eqb id "" then None else document id
                 | None => None end).
  rewrite canvasDefaults_set_segments, populateSegments_ignores_options.
  destruct (populateSegments (canvasDefaults o canvas)) as [a|]; simpl;
    [|discriminate].
  match goal with
  | |- context [updateSegmentSizes ?x] =>
      match goal with
      | |- context [updateSegmentSizes ?y] =>
          lazymatch x with y => fail | _ => idtac end;
          pose proof (updateSegmentSizes_reads x y eq_refl eq_refl) as Hreads
      end
  end.
  destruct (updateSegmentSizes _) as [r1|]; destruct (updateSegmentSizes _) as [r2|];
    simpl in *; try discriminate; try contradiction.
  destruct Hreads as (a' & -> & ->). intros H1 H2.
  inversion H1; inversion H2; subst. reflexivity.
Qed.

(** ** Segment boundaries *)

Lemma all_unset_sum a (k : nat) :
  (forall i, 1 <= i <= Z.of_nat k -> sizeAt a i = None) ->
  explicitSum a k = 0%Q.
Proof.
  induction k as [|k IH]; intros H; simpl; [reflexivity|].
  rewrite (H (Z.of_nat (Datatypes.S k))) by lia. apply IH.
  intros i Hi. apply H. lia.
Qed.

Lemma updateSegmentSizes_contiguous (w : Winwheel.t) (a' : Js.Array Segment.t)
    (d : Js.Num) :
  1 <= Winwheel.numSegments w ->
  (forall i, 1 <= i <= Winwheel.numSegments w ->
     exists seg, Winwheel.segment w i = Some seg /\
       Js.get a' i
       = Some (Segment.set_angles seg
                 (angleAfter d (Winwheel.segments w) (Z.to_nat (i - 1)))
                 (angleAfter d (Winwheel.segments w) (Z.to_nat i)))) ->
  contiguous (Winwheel.set_segments w a').
Proof.
  intros Hn Hin. split.
  - destruct (Hin 1) as (seg & _ & Hseg); [lia|].
    unfold startAngleAt, Winwheel.segment. simpl. rewrite Hseg. reflexivity.
  - intros i Hi. change (Winwheel.numSegments (Winwheel.set_segments w a'))
      with (Winwheel.numSegments w) in Hi.
    destruct (Hin i) as (s & _ & Hs); [lia|].
    destruct (Hin (i + 1)) as (t & _ & Ht); [lia|].
    unfold startAngleAt, endAngleAt, Winwheel.segment. simpl.
    rewrite Hs, Ht. simpl. eexists. split; [reflexivity|].
    now replace (i + 1 - 1) with i by lia.
Qed.

(** C1, as the code has it.  On a wheel with at least one segment, all
    positions populated, [updateSegmentSizes] returns; afterwards the
    first segment starts at 0 and each segment ends where the next one
    starts; and the last segment ends at 360 when no size is set, or
    when the sizes set sum to exactly 360, or when they sum to less than
    360, at least one segment has no size and no size is 0. *)
Theorem updateSegmentSizes_partition (w : Winwheel.t) :
  1 <= Winwheel.numSegments w ->
  populated w ->
  exists w',
    updateSegmentSizes w = Js.Ok w' /\
    contiguous w' /\
    (all_unset w \/ sizesSum w == 360 \/
     ((sizesSum w < 360)%Q /\ some_unset w /\ no_zero_size w) ->
     closes_circle w').
Proof.
  intros Hn Hpop.
  destruct (updateSegmentSizes_spec w Hpop) as (a' & Hup & Hin & _).
  exists (Winwheel.set_segments w a'). split; [exact Hup|].
  split; [eapply updateSegmentSizes_contiguous; eassumption|].
  set (a := Winwheel.segments w) in *.
  set (n := Winwheel.numSegments w) in *.
  assert (Hk : Z.of_nat (Z.to_nat n) = n) by lia.
  intros Hcond.
  assert (Hcases : sizesSum w == 360 \/
            ((sizesSum w < 360)%Q /\ some_unset w /\ no_zero_size w)).
  { destruct Hcond as [Hall | Hcond]; [right | exact Hcond].
    assert (Hz : sizesSum w = 0%Q).
    { unfold sizesSum. apply all_unset_sum. intros i Hi. apply Hall.
      fold n. lia. }
    split; [rewrite Hz; reflexivity|]. split.
    - exists 1. split; [fold n; lia | apply Hall; fold n; lia].
    - intros i q Hi Hq. rewrite (Hall i Hi) in Hq. discriminate. }
  destruct (Hin n) as (seg & _ & Hseg); [lia|].
  unfold closes_circle, endAngleAt, Winwheel.segment. simpl.
  change (Winwheel.numSegments (Winwheel.set_segments w a')) with n.
  rewrite Hseg. simpl. eexists. split; [reflexivity|].
  unfold sizesSum, some_unset, no_zero_size in Hcases. fold a n in Hcases.
  destruct Hcases as [Hfull | (Hless & Hsome & Hnz)].
  - rewrite degreesEach_of_none_left by (rewrite Hfull; apply Qle_refl).
    destruct (angleAfter_zero_share a 0 (Z.to_nat n)) as (v & -> & Hv);
      [reflexivity|].
    simpl. now rewrite Hv.
  - assert (Hc : countSet a (Z.to_nat n) < n).
    { rewrite <- Hk at 2. apply countSet_unset. now rewrite Hk. }
    rewrite degreesEach_of_some_left by (assumption || lia).
    destruct (angleAfter_share a
                ((360 - explicitSum a (Z.to_nat n))
                 / inject_Z (n - countSet a (Z.to_nat n))) (Z.to_nat n))
      as (v & -> & Hv).
    + intros i Hi. apply Hpop. fold n. lia.
    + intros i q Hi. apply Hnz. lia.
    + simpl. rewrite Hv, Hk. field.
      intros H0. change 0%Q with (inject_Z 0) in H0.
      apply (proj1 (inject_Z_injective _ _)) in H0. lia.
Qed.

(** C7, as the code has it.  When the sizes set sum to more than 360 the
    remaining arc is negative and nothing is corrected: the update
    returns, every size set is used as it is, every segment without a
    size gets a share of 0 (it ends where it starts), and the last
    segment ends at the sum of the sizes. *)
Theorem updateSegmentSizes_oversized (w : Winwheel.t) :
  populated w ->
  (360 < sizesSum w)%Q ->
  exists w',
    updateSegmentSizes w = Js.Ok w' /\
    (360 - sizesSum w < 0)%Q /\
    (forall i, 1 <= i <= Winwheel.numSegments w ->
       exists seg seg',
         Winwheel.segment w i = Some seg /\
         Winwheel.segment w' i = Some seg' /\
         Segment.options seg' = Segment.options seg /\
         share_is seg'
           (Js.to_number (SegmentOptions.size (Segment.options seg)))) /\
    (1 <= Winwheel.numSegments w ->
     exists e, endAngleAt w' (Winwheel.numSegments w) = Some e /\
               Js.num_eq e (Js.Fin (sizesSum w))).
Proof.
  intros Hpop Hover.
  destruct (updateSegmentSizes_spec w Hpop) as (a' & Hup & Hin & _).
  exists (Winwheel.set_segments w a'). split; [exact Hup|].
  split; [lra|].
  set (a := Winwheel.segments w) in *.
  set (n := Winwheel.numSegments w) in *.
  unfold sizesSum in Hover. fold a n in Hover.
  rewrite degreesEach_of_none_left in Hin by lra.
  split.
  - intros i Hi. destruct (Hin i Hi) as (seg & Hseg & Hseg').
    exists seg. eexists. split; [exact Hseg|].
    unfold Winwheel.segment at 1. simpl. split; [exact Hseg'|].
    split; [reflexivity|].
    unfold share_is, share. simpl.
    rewrite (angleAfter_step (Js.Fin 0) a i) by lia.
    destruct (angleAfter_zero_share a 0 (Z.to_nat (i - 1))) as (v & -> & _);
      [reflexivity|].
    unfold arcAt. unfold Winwheel.segment in Hseg. fold a in Hseg.
    rewrite Hseg. unfold segmentArc.
    destruct (SegmentOptions.size (Segment.options seg)) as [q|] eqn:Hq.
    + destruct (Js.truthy_num (Some q)) eqn:Ht; simpl.
      * ring.
      * apply truthy_num_false_iff in Ht. rewrite Ht. ring.
    + simpl. ring.
  - intros Hn. destruct (Hin n) as (seg & _ & Hseg); [lia|].
    unfold endAngleAt, Winwheel.segment. simpl. rewrite Hseg. simpl.
    eexists. split; [reflexivity|].
    destruct (angleAfter_zero_share a 0 (Z.to_nat n)) as (v & -> & Hv);
      [reflexivity|].
    simpl. unfold sizesSum. fold a n. exact Hv.
Qed.

Lemma four_equal_constructed : four_equal_script = Js.Ok four_equal.
Proof. vm_compute. reflexivity. Qed.

Lemma two_quarters_constructed : two_quarters_script = Js.Ok two_quarters.
Proof. vm_compute. reflexivity. Qed.

Lemma oversized_constructed : oversized_script = Js.Ok oversized.
Proof. vm_compute. reflexivity. Qed.

(** The theorem at the wheel of four segments without sizes: the
    boundaries are contiguous and close the circle. *)
Lemma updateSegmentSizes_partition_witness :
  exists w',
    updateSegmentSizes four_equal = Js.Ok w' /\
    contiguous w' /\ closes_circle w'.
Proof.
  destruct (updateSegmentSizes_partition four_equal) as (w' & H1 & H2 & H3).
  - vm_compute. discriminate.
  - intros i Hi. change (Winwheel.numSegments four_equal) with 4 in Hi.
    assert (i = 1 \/ i = 2 \/ i = 3 \/ i = 4) as [-> | [-> | [-> | ->]]] by lia;
      vm_compute; eauto.
  - exists w'. split; [exact H1|]. split; [exact H2|]. apply H3. left.
    intros i Hi. change (Winwheel.numSegments four_equal) with 4 in Hi.
    assert (i = 1 \/ i = 2 \/ i = 3 \/ i = 4) as [-> | [-> | [-> | ->]]] by lia;
      vm_compute; reflexivity.
Defined.

(** C1 as stated fails on two segments of size 90: the sizes sum to 180,
    at most 360, and the last segment ends at 180. *)
Lemma updateSegmentSizes_partition_counterexample :
  populated two_quarters /\
  (sizesSum two_quarters <= 360)%Q /\
  exists w',
    updateSegmentSizes two_quarters = Js.Ok w' /\
    endAngleAt w' (Winwheel.numSegments w') = Some (Js.Fin 180) /\
    ~ closes_circle w'.
Proof.
  split; [|split].
  - intros i Hi. change (Winwheel.numSegments two_quarters) with 2 in Hi.
    assert (i = 1 \/ i = 2) as [-> | ->] by lia; vm_compute; eauto.
  - vm_compute. discriminate.
  - eexists. split; [vm_compute; reflexivity|]. split; [vm_compute; reflexivity|].
    intros (e & He & Heq). vm_compute in He. inversion He; subst e.
    vm_compute in Heq. discriminate.
Qed.

(** The theorem at a segment without a size followed by one of size
    400: the segment without a size gets a share of 0. *)
Lemma updateSegmentSizes_oversized_witness :
  exists w' seg',
    updateSegmentSizes oversized = Js.Ok w' /\
    Winwheel.segment w' 1 = Some seg' /\
    share_is seg' 0.
Proof.
  destruct (updateSegmentSizes_oversized oversized) as (w' & H1 & _ & H3 & _).
  - intros i Hi. change (Winwheel.numSegments oversized) with 2 in Hi.
    assert (i = 1 \/ i = 2) as [-> | ->] by lia; vm_compute; eauto.
  - vm_compute. reflexivity.
  - destruct (H3 1) as (seg & seg' & Hs & Hs' & _ & Hshare).
    + vm_compute. split; discriminate.
    + exists w', seg'. split; [exact H1|]. split; [exact Hs'|].
      vm_compute in Hs. inversion Hs; subst seg. exact Hshare.
Defined.

(** C7 as stated fails on the same wheel: the sizes sum to 400, the
    remainder is -40 and one segment has no size, but its share is 0 and
    not -40. *)
Lemma updateSegmentSizes_oversized_counterexample :
  (360 < sizesSum oversized)%Q /\
  exists w',
    updateSegmentSizes oversized = Js.Ok w' /\
    ~ remainder_shared_out oversized w'.
Proof.
  split; [vm_compute; reflexivity|].
  eexists. split; [vm_compute; reflexivity|].
  intros H. specialize (H 1). vm_compute in H.
  specialize (H _ ltac:(split; discriminate) eq_refl eq_refl).
  vm_compute in H. discriminate.
Qed.

Lemma with_zero_size_constructed : with_zero_size_script = Js.Ok with_zero_size.
Proof. vm_compute. reflexivity. Qed.

(** A size of 0 is counted as set by the first loop ([!== null]) and
    treated as not set by the second (truthiness), so it takes a share
    that was computed for the other segments: four segments without a
    size and one of size 0 get 90 degrees each and end at 450. *)
Lemma zero_size_takes_a_share :
  (sizesSum with_zero_size <= 360)%Q /\
  some_unset with_zero_size /\
  exists w',
    updateSegmentSizes with_zero_size = Js.Ok w' /\
    exists e, endAngleAt w' 5 = Some e /\ Js.num_eq e (Js.Fin 450).
Proof.
  split; [vm_compute; discriminate|]. split.
  - exists 1. split; [vm_compute; split; discriminate | reflexivity].
  - eexists. split; [vm_compute; reflexivity|].
    eexists. split; vm_compute; reflexivity.
Qed.

(** ** Adding and deleting segments *)

(** C5.  [addSegment(options, p)] does not insert at an occupied
    position: on a wheel whose array holds nothing after the last
    segment, a call with [p <= numSegments] throws a [TypeError] in the
    first round of the loop that shifts the segments, at
    [this.segments[numSegments].options = ...] with [numSegments]
    already incremented. *)
Theorem addSegment_at_position_throws (w : Winwheel.t)
    (options : SegmentOptions.t) (p : Z) :
  Winwheel.segment w (Winwheel.numSegments w + 1) = None ->
  p <= Winwheel.numSegments w ->
  addSegment w options (Some p) = Js.TypeError.
Proof.
  intros Hfree Hp. unfold addSegment, Js.for_downto.
  set (n := Winwheel.numSegments w) in *.
  change (Winwheel.numSegments
            (Winwheel.set_options w
               (WinwheelOptions.set_numSegments (Winwheel.options w) (n + 1))))
    with (n + 1).
  destruct (Z.to_nat (n + 1 - p)) as [|k] eqn:Hk; [lia|].
  simpl. unfold copyOptions. unfold Winwheel.segment in Hfree. simpl.
  rewrite Hfree. reflexivity.
Qed.

(** The theorem at the wheel of four segments: inserting at position 1
    throws. *)
Lemma addSegment_at_position_throws_witness :
  addSegment four_equal (sized 90) (Some 1) = Js.TypeError.
Proof.
  apply addSegment_at_position_throws.
  - vm_compute. reflexivity.
  - vm_compute. discriminate.
Defined.

(** C8.  With one segment left, [deleteSegment] returns without
    throwing and leaves the wheel as it is, whatever the position. *)
Theorem deleteSegment_last_segment_noop (w : Winwheel.t) (position : option Z) :
  Winwheel.numSegments w = 1 ->
  deleteSegment w position = Js.Ok w.
Proof.
  intros Hn. unfold deleteSegment. rewrite Hn. reflexivity.
Qed.

(** The theorem at the wheel of one segment, for a position that does
    not exist. *)
Lemma deleteSegment_last_segment_noop_witness :
  deleteSegment single (Some 7) = Js.Ok single.
Proof.
  apply deleteSegment_last_segment_noop. vm_compute. reflexivity.
Defined.

(** ** Rotation and the indicated segment *)

Lemma getRotationPosition_turned (w : Winwheel.t) (r : Q) :
  getRotationPosition (turned w r)
  = if Qle_bool 0 r then
      if Qltb 360 r then (r - 360 * inject_Z (Qfloor (r / 360)))%Q else r
    else
      (360 + (if Qltb r (-360)
              then (r - 360 * inject_Z (Qceiling (r / 360)))%Q else r))%Q.
Proof. reflexivity. Qed.

(** C3.  [getRotationPosition] at whole turns: a rotation of 360 is
    returned as 360 although 0 and 720 give 0, and a rotation of -720
    gives 360 although -360 gives 0.  The result is then outside
    [0, 360) and differs from the result for the same angle one turn
    further. *)
Theorem getRotationPosition_whole_turns (w : Winwheel.t) :
  getRotationPosition (turned w 0) == 0 /\
  getRotationPosition (turned w 360) == 360 /\
  getRotationPosition (turned w 720) == 0 /\
  getRotationPosition (turned w (-360)) == 0 /\
  getRotationPosition (turned w (-720)) == 360.
Proof.
  rewrite !getRotationPosition_turned. vm_compute. repeat split; reflexivity.
Qed.

(** [options["startAngle"]] and [options["endAngle"]] are [undefined]:
    the options of a segment have no such properties. *)
Lemma SegmentOptions_get_angles (o : SegmentOptions.t) :
  SegmentOptions.get o "startAngle" = Js.VUndefined /\
  SegmentOptions.get o "endAngle" = Js.VUndefined.
Proof. split; reflexivity. Qed.

(** C2.  [getIndicatedSegmentNumber] compares the pointer's angle with
    [options["startAngle"]] and [options["endAngle"]], which are
    [undefined], so no segment ever matches: on a wheel whose array
    holds a segment at every index from 1 below its length the function
    returns 0, whatever the rotation and the pointer angle are. *)
Theorem getIndicatedSegmentNumber_finds_nothing
    (StringToNumber : string -> option Q) (w : Winwheel.t) :
  (forall x, 1 <= x < Js.length (Winwheel.segments w) ->
     is_Some (Winwheel.segment w x)) ->
  getIndicatedSegmentNumber StringToNumber w = Js.Ok 0.
Proof.
  intros Hfull. unfold getIndicatedSegmentNumber, Js.for_below.
  match goal with
  | |- context [Js.for_up ?c 1 ?body None] =>
      destruct (for_up_total (fun _ found => found = (None : option Z)) body c 1 None)
        as (r & Hr & ->); [reflexivity | | rewrite Hr; reflexivity]
  end.
  intros y found Hy ->. destruct (Hfull y) as [seg Hseg]; [lia|].
  rewrite Hseg. simpl. exists None. split; reflexivity.
Qed.

(** The theorem at the wheel of four equal segments turned to 2070
    degrees, where a spin to the stop angle 90 ends: the function
    returns 0, while the scan over the segments' own angles finds
    segment 1, whose range from 0 to 90 contains 90. *)
Lemma getIndicatedSegmentNumber_finds_nothing_witness :
  getIndicatedSegmentNumber (fun _ => None) (turned four_equal 2070) = Js.Ok 0 /\
  angleToSegmentIndex (turned four_equal 2070) = Js.Ok 1.
Proof.
  split.
  - apply getIndicatedSegmentNumber_finds_nothing.
    intros x Hx. change (Js.length (Winwheel.segments (turned four_equal 2070)))
      with 5 in Hx.
    assert (x = 1 \/ x = 2 \/ x = 3 \/ x = 4) as [-> | [-> | [-> | ->]]] by lia;
      vm_compute; eauto.
  - vm_compute. reflexivity.
Defined.

Lemma for_up_result {S} (P : S -> Prop) (body : Z -> S -> Js.Result S) :
  (forall y t t', P t -> body y t = Js.Ok t' -> P t') ->
  forall (count : nat) (x : Z) (s r : S),
    P s -> Js.for_up count x body s = Js.Ok r -> P r.
Proof.
  intros Hbody. induction count as [|k IH]; intros x s r Hs; simpl.
  - intros H. inversion H; subst. exact Hs.
  - destruct (body x s) as [t|] eqn:Ht; simpl; [|discriminate].
    apply IH. eapply Hbody; eassumption.
Qed.

(** Whenever [getIndicatedSegmentNumber] returns, it returns 0. *)
Lemma getIndicatedSegmentNumber_returns_zero
    (StringToNumber : string -> option Q) (w : Winwheel.t) (n : Z) :
  getIndicatedSegmentNumber StringToNumber w = Js.Ok n -> n = 0.
Proof.
  unfold getIndicatedSegmentNumber, Js.for_below.
  match goal with
  | |- context [Js.for_up ?c 1 ?body None] =>
      pose proof (for_up_result (fun found => found = (None : option Z)) body)
        as Hinv;
      destruct (Js.for_up c 1 body None) as [found|] eqn:Hrun;
        simpl; [|discriminate]
  end.
  rewrite (Hinv ltac:(
    intros y t t' -> Hb; destruct (Winwheel.segment w y); simpl in Hb;
    [inversion Hb; reflexivity | discriminate]) _ _ _ _ eq_refl Hrun).
  intros H. now inversion H.
Qed.

(** After a [deleteSegment] the array keeps its length and its last slot
    is [undefined]; the scan runs up to the length and throws there. *)
Lemma getIndicatedSegmentNumber_throws_after_delete :
  after_delete_script = Js.Ok after_delete /\
  getIndicatedSegmentNumber (fun _ => None) after_delete = Js.TypeError.
Proof. split; vm_compute; reflexivity. Qed.

(** ** What deleting and appending do *)

Lemma for_below_total {S} (P : Z -> S -> Prop) (body : Z -> S -> Js.Result S)
    (lo hi : Z) (s : S) :
  lo <= hi ->
  P lo s ->
  (forall y t, lo <= y < hi -> P y t ->
     exists t', body y t = Js.Ok t' /\ P (y + 1) t') ->
  exists r, Js.for_below lo hi body s = Js.Ok r /\ P hi r.
Proof.
  intros Hle Hs Hbody. unfold Js.for_below.
  destruct (for_up_total P body (Z.to_nat (hi - lo)) lo s Hs) as (r & Hr & HP).
  - intros y t Hy. apply Hbody. lia.
  - exists r. split; [exact Hr|].
    now replace hi with (lo + Z.of_nat (Z.to_nat (hi - lo))) by lia.
Qed.

(** The loop of [deleteSegment] moves the options of the segments after
    [p] down by one position. *)
Lemma shiftDown_spec (a : Js.Array Segment.t) (p n : Z) :
  p <= n ->
  (forall i, p <= i <= n -> is_Some (Js.get a i)) ->
  exists a',
    Js.for_below p n (fun x a => copyOptions x (x + 1) a) a = Js.Ok a' /\
    (forall i, p <= i < n ->
       exists s t, Js.get a i = Some s /\ Js.get a (i + 1) = Some t /\
         Js.get a' i = Some (Segment.set_options s (Segment.options t))) /\
    (forall i, ~ p <= i < n -> Js.get a' i = Js.get a i).
Proof.
  intros Hpn Hpop.
  apply (for_below_total
    (fun y (a' : Js.Array Segment.t) =>
       (forall i, p <= i < y ->
          exists s t, Js.get a i = Some s /\ Js.get a (i + 1) = Some t /\
            Js.get a' i = Some (Segment.set_options s (Segment.options t))) /\
       (forall i, ~ p <= i < y -> Js.get a' i = Js.get a i))).
  - exact Hpn.
  - split; [intros; lia | reflexivity].
  - intros y a' Hy (Hin & Hout). unfold copyOptions.
    destruct (Hpop y) as [s Hs]; [lia|].
    destruct (Hpop (y + 1)) as [t Ht]; [lia|].
    rewrite !Hout, Hs, Ht by lia. simpl.
    eexists. split; [reflexivity|]. split.
    + intros i Hi. destruct (Z.eq_dec i y) as [->|Hne].
      * exists s, t. now rewrite get_set_eq.
      * rewrite get_set_ne by congruence. apply Hin. lia.
    + intros i Hi. rewrite get_set_ne by lia. apply Hout. lia.
Qed.

(** [deleteSegment(p)] on a populated wheel with more than one segment,
    for a position that exists: it returns, there is one segment less,
    the segments before [p] keep their options and every later position
    takes the options of the position after it. *)
Lemma deleteSegment_spec (w : Winwheel.t) (p : Z) :
  populated w ->
  1 < Winwheel.numSegments w ->
  1 <= p <= Winwheel.numSegments w ->
  exists w',
    deleteSegment w (Some p) = Js.Ok w' /\
    Winwheel.numSegments w' = Winwheel.numSegments w - 1 /\
    (forall i, 1 <= i < p -> optionsAt w' i = optionsAt w i) /\
    (forall i, p <= i < Winwheel.numSegments w ->
       optionsAt w' i = optionsAt w (i + 1)) /\
    Winwheel.segment w' (Winwheel.numSegments w) = None /\
    (forall i, ~ 1 <= i <= Winwheel.numSegments w ->
       Winwheel.segment w' i = Winwheel.segment w i).
Proof.
  intros Hpop Hn Hp. unfold deleteSegment.
  set (n := Winwheel.numSegments w) in *.
  assert (Z.ltb 1 n = true) as -> by (apply Z.ltb_lt; lia).
  destruct (shiftDown_spec (Winwheel.segments w) p n) as (a1 & Hrun & Hin & Hout).
  - lia.
  - intros i Hi. apply Hpop. fold n. lia.
  - rewrite Hrun. simpl.
    set (w1 := Winwheel.set_segments _ (Js.set_undefined a1 n)).
    assert (Hn1 : Winwheel.numSegments w1 = n - 1) by reflexivity.
    assert (Hget : forall i, i <> n ->
              Winwheel.segment w1 i = Js.get a1 i).
    { intros i Hi. unfold Winwheel.segment. simpl.
      now rewrite get_set_undefined_ne by congruence. }
    assert (Hpop1 : populated w1).
    { intros i Hi. rewrite Hn1 in Hi. rewrite Hget by lia.
      destruct (Z_lt_le_dec i p) as [Hlt|Hge].
      - rewrite Hout by lia. apply Hpop. fold n. lia.
      - destruct (Hin i) as (s & t & _ & _ & ->); [lia|]. eauto. }
    destruct (updateSegmentSizes_spec w1 Hpop1) as (a' & Hup & Hin' & Hout').
    rewrite Hup. eexists. split; [reflexivity|].
    rewrite Hn1 in Hin', Hout'.
    split; [reflexivity|]. split; [|split; [|split]].
    + intros i Hi. destruct (Hin' i) as (seg & Hseg & Hseg'); [lia|].
      unfold optionsAt, Winwheel.segment at 1. simpl. rewrite Hseg'. simpl.
      rewrite Hget in Hseg by lia. rewrite Hout in Hseg by lia.
      unfold Winwheel.segment. now rewrite Hseg.
    + intros i Hi. destruct (Hin' i) as (seg & Hseg & Hseg'); [lia|].
      unfold optionsAt, Winwheel.segment at 1. simpl. rewrite Hseg'. simpl.
      rewrite Hget in Hseg by lia.
      destruct (Hin i) as (s & t & _ & Ht & Hs'); [lia|].
      rewrite Hs' in Hseg. inversion Hseg; subst seg.
      unfold Winwheel.segment. rewrite Ht. reflexivity.
    + unfold Winwheel.segment at 1. simpl. rewrite Hout' by lia.
      unfold Winwheel.segment. simpl. apply get_set_undefined_eq.
    + intros i Hi. unfold Winwheel.segment at 1. simpl.
      rewrite Hout', Hget by lia. apply Hout. lia.
Qed.

(** [addSegment(options)] without a position, on a populated wheel: it
    returns the new segment, which is the last one, and the segments
    that were there keep their options. *)
Lemma addSegment_append_spec (w : Winwheel.t) (options : SegmentOptions.t) :
  populated w ->
  0 <= Winwheel.numSegments w ->
  exists w' seg,
    addSegment w options None = Js.Ok (w', Some seg) /\
    Winwheel.numSegments w' = Winwheel.numSegments w + 1 /\
    Winwheel.segment w' (Winwheel.numSegments w + 1) = Some seg /\
    Segment.options seg = options /\
    (forall i, 1 <= i <= Winwheel.numSegments w ->
       optionsAt w' i = optionsAt w i) /\
    (forall i, ~ 1 <= i <= Winwheel.numSegments w + 1 ->
       Winwheel.segment w' i = Winwheel.segment w i).
Proof.
  intros Hpop Hn. unfold addSegment.
  set (n := Winwheel.numSegments w) in *. simpl.
  set (w1 := Winwheel.set_segments _ (Js.set _ (n + 1) _)).
  assert (Hn1 : Winwheel.numSegments w1 = n + 1) by reflexivity.
  assert (Hpop1 : populated w1).
  { intros i Hi. rewrite Hn1 in Hi. unfold Winwheel.segment. simpl.
    destruct (Z.eq_dec i (n + 1)) as [->|Hne].
    - rewrite get_set_eq. eauto.
    - rewrite get_set_ne by congruence. apply Hpop. fold n. lia. }
  destruct (updateSegmentSizes_spec w1 Hpop1) as (a' & Hup & Hin' & Hout').
  rewrite Hup. simpl. rewrite Hn1 in Hin', Hout'.
  destruct (Hin' (n + 1)) as (seg & Hseg & Hseg'); [lia|].
  unfold Winwheel.segment at 1. simpl. rewrite Hseg'.
  eexists. eexists. split; [reflexivity|].
  split; [reflexivity|]. split; [exact Hseg'|]. split; [|split].
  - simpl. unfold Winwheel.segment in Hseg. simpl in Hseg.
    rewrite get_set_eq in Hseg. now inversion Hseg.
  - intros i Hi. destruct (Hin' i) as (s & Hs & Hs'); [lia|].
    unfold optionsAt, Winwheel.segment at 1. simpl. rewrite Hs'. simpl.
    unfold Winwheel.segment in Hs. simpl in Hs.
    rewrite get_set_ne in Hs by lia.
    unfold Winwheel.segment. now rewrite Hs.
  - intros i Hi. unfold Winwheel.segment at 1. simpl. rewrite Hout' by lia.
    unfold Winwheel.segment. simpl. apply get_set_ne. lia.
Qed.

(** ** Wheels the interface can reach

    The constructor builds a wheel whose array holds segments exactly at
    the positions 1 to [numSegments]; appending and deleting keep it so.
    On such a wheel the position after the last segment is free, so
    that inserting at an occupied position throws. *)

Lemma new_Winwheel_exactly_filled document (o : WinwheelOptions.t) :
  0 <= WinwheelOptions.numSegments o ->
  exists w, new_Winwheel document o = Js.Ok w /\ exactly_filled w.
Proof.
  intros Hn. destruct (new_Winwheel_spec document o) as (w & Hw & Hnw & Hin & Hout).
  exists w. split; [exact Hw|]. unfold exactly_filled. rewrite Hnw.
  split; [exact Hn|]. split.
  - intros i Hi. destruct (Hin i Hi) as (seg & -> & _). eauto.
  - exact Hout.
Qed.

Lemma exactly_filled_populated (w : Winwheel.t) : exactly_filled w -> populated w.
Proof. intros (_ & Hin & _). exact Hin. Qed.

Lemma exactly_filled_next_free (w : Winwheel.t) :
  exactly_filled w -> Winwheel.segment w (Winwheel.numSegments w + 1) = None.
Proof. intros (_ & _ & Hout). apply Hout. lia. Qed.

Lemma addSegment_append_exactly_filled (w : Winwheel.t) (options : SegmentOptions.t) :
  exactly_filled w ->
  exists w' seg, addSegment w options None = Js.Ok (w', Some seg) /\ exactly_filled w'.
Proof.
  intros (Hn & Hin & Hout).
  destruct (addSegment_append_spec w options Hin Hn)
    as (w' & seg & Hrun & Hn' & Hlast & _ & Hkeep & Hout').
  exists w', seg. split; [exact Hrun|]. unfold exactly_filled. rewrite Hn'.
  split; [lia|]. split.
  - intros i Hi. destruct (Z.eq_dec i (Winwheel.numSegments w + 1)) as [->|Hne].
    + rewrite Hlast. eauto.
    + specialize (Hkeep i ltac:(lia)). unfold optionsAt in Hkeep.
      destruct (Hin i) as [s Hs]; [lia|]. rewrite Hs in Hkeep.
      destruct (Winwheel.segment w' i); [eauto | discriminate].
  - intros i Hi. rewrite Hout' by lia. apply Hout. lia.
Qed.

Lemma deleteSegment_exactly_filled (w : Winwheel.t) (p : Z) :
  exactly_filled w ->
  1 < Winwheel.numSegments w ->
  1 <= p <= Winwheel.numSegments w ->
  exists w', deleteSegment w (Some p) = Js.Ok w' /\ exactly_filled w'.
Proof.
  intros (Hn & Hin & Hout) Hn1 Hp.
  destruct (deleteSegment_spec w p Hin Hn1 Hp)
    as (w' & Hrun & Hn' & Hbefore & Hafter & Hlast & Hout').
  exists w'. split; [exact Hrun|]. unfold exactly_filled. rewrite Hn'.
  split; [lia|]. split.
  - intros i Hi. destruct (Z_lt_le_dec i p) as [Hlt|Hge].
    + specialize (Hbefore i ltac:(lia)). unfold optionsAt in Hbefore.
      destruct (Hin i) as [s Hs]; [lia|]. rewrite Hs in Hbefore.
      destruct (Winwheel.segment w' i); [eauto | discriminate].
    + specialize (Hafter i ltac:(lia)). unfold optionsAt in Hafter.
      destruct (Hin (i + 1)) as [s Hs]; [lia|]. rewrite Hs in Hafter.
      destruct (Winwheel.segment w' i); [eauto | discriminate].
  - intros i Hi. destruct (Z.eq_dec i (Winwheel.numSegments w)) as [->|Hne].
    + exact Hlast.
    + rewrite Hout' by lia. apply Hout. lia.
Qed.

(** ** Animation targets *)

(** The tween target after [computeAnimation]. *)
Lemma spinToStop_clockwise_target (random : Q) (w : Winwheel.t) (s : Q) :
  Animation.type (Animation.options (Winwheel.animation w)) = spinToStop ->
  Animation.direction (Animation.options (Winwheel.animation w)) = clockwise ->
  Animation.spins (Animation.options (Winwheel.animation w)) = Some s ->
  Animation.propertyValue
    (Animation.options (Winwheel.animation (computeAnimation random w)))
  = Some (s * 360
          + match Animation.stopAngle (Animation.options (Winwheel.animation w)) with
            | None => inject_Z (Qfloor (random * 359))
            | Some stopAngle =>
                360 - stopAngle
                + WinwheelOptions.pointerAngle (Winwheel.options w)
            end)%Q.
Proof.
  intros Ht Hd Hs. unfold computeAnimation. rewrite Ht, Hd, Hs. reflexivity.
Qed.

(** [Math.floor(Math.random() * 359)] is a whole number from 0 to 358. *)
Lemma random_stop_angle_range (random : Q) :
  (0 <= random < 1)%Q -> 0 <= Qfloor (random * 359) <= 358.
Proof.
  intros [H0 H1]. split.
  - change 0 with (Qfloor 0). apply Qfloor_resp_le. nra.
  - assert (H : Qfloor (random * 359) < 359); [|lia].
    rewrite Zlt_Qlt. apply Qle_lt_trans with (random * 359)%Q.
    + apply Qfloor_le.
    + change (inject_Z 359) with 359%Q. lra.
Qed.

(** C6.  For a [spinToStop] animation with direction clockwise and
    [spins] given, [computeAnimation] sets the tween target to
    [spins * 360 + (360 - stopAngle + pointerAngle)] when a stop angle
    is given, and to [spins * 360] plus a whole angle from 0 to 359 when
    it is not. *)
Theorem computeAnimation_spinToStop_clockwise (random : Q) (w : Winwheel.t)
    (s : Q) :
  Animation.type (Animation.options (Winwheel.animation w)) = spinToStop ->
  Animation.direction (Animation.options (Winwheel.animation w)) = clockwise ->
  Animation.spins (Animation.options (Winwheel.animation w)) = Some s ->
  (0 <= random < 1)%Q ->
  exists target,
    Animation.propertyValue
      (Animation.options (Winwheel.animation (computeAnimation random w)))
    = Some target /\
    match Animation.stopAngle (Animation.options (Winwheel.animation w)) with
    | Some stopAngle =>
        target == s * 360
                  + (360 - stopAngle
                     + WinwheelOptions.pointerAngle (Winwheel.options w))
    | None =>
        exists angle : Z, 0 <= angle <= 359 /\ target == s * 360 + inject_Z angle
    end.
Proof.
  intros Ht Hd Hs Hr.
  rewrite (spinToStop_clockwise_target random w s Ht Hd Hs).
  eexists. split; [reflexivity|].
  destruct (Animation.stopAngle _) as [stopAngle|].
  - reflexivity.
  - exists (Qfloor (random * 359)). split; [|reflexivity].
    pose proof (random_stop_angle_range random Hr). lia.
Qed.

(** The theorem at spins 5, stop angle 90 and pointer angle 0: the
    target is 2070. *)
Lemma computeAnimation_spinToStop_clockwise_witness :
  exists target,
    Animation.propertyValue
      (Animation.options (Winwheel.animation (computeAnimation (1 # 2) spinning)))
    = Some target /\
    target == 2070.
Proof.
  destruct (computeAnimation_spinToStop_clockwise (1 # 2) spinning 5)
    as (target & Ht & Hv).
  - reflexivity.
  - reflexivity.
  - reflexivity.
  - vm_compute. split; [discriminate | reflexivity].
  - exists target. split; [exact Ht|].
    change (Animation.stopAngle (Animation.options (Winwheel.animation spinning)))
      with (Some 90%Q) in Hv.
    rewrite Hv. vm_compute. reflexivity.
Defined.

(** Without a stop angle, when [Math.random()] returns one half: the
    stop angle is 179 and the target 1979. *)
Lemma computeAnimation_random_example :
  Animation._stopAngle (Winwheel.animation (computeAnimation (1 # 2) spinning_free))
  = Some 179%Q /\
  exists target,
    Animation.propertyValue
      (Animation.options
         (Winwheel.animation (computeAnimation (1 # 2) spinning_free)))
    = Some target /\
    target == 1979.
Proof.
  split; [vm_compute; reflexivity|].
  eexists. split; vm_compute; reflexivity.
Qed.

(** ** Order of fill and stroke in the segment text *)

Lemma FillFirst_app (l1 l2 : list TextCommand) :
  FillFirst l1 -> FillFirst l2 -> FillFirst (l1 ++ l2)%list.
Proof.
  induction 1 as [|s x y l _ IH]; intros H2; simpl; [exact H2|].
  constructor. now apply IH.
Qed.

Lemma StrokeFirst_app (l1 l2 : list TextCommand) :
  StrokeFirst l1 -> StrokeFirst l2 -> StrokeFirst (l1 ++ l2)%list.
Proof.
  induction 1 as [|s x y l _ IH]; intros H2; simpl; [exact H2|].
  constructor. now apply IH.
Qed.

Section BothStyles.
Variables fs ss : option string.
Hypothesis Hfill : Js.truthy_str fs = true.
Hypothesis Hstroke : Js.truthy_str ss = true.

Lemma fillThenStroke_both s x y :
  fillThenStroke fs ss s x y = [fillText s x y; strokeText s x y].
Proof. unfold fillThenStroke. now rewrite Hfill, Hstroke. Qed.

Lemma strokeThenFill_both s x y :
  strokeThenFill fs ss s x y = [strokeText s x y; fillText s x y].
Proof. unfold strokeThenFill. now rewrite Hfill, Hstroke. Qed.

Lemma fillThenStroke_FillFirst s x y : FillFirst (fillThenStroke fs ss s x y).
Proof. rewrite fillThenStroke_both. repeat constructor. Qed.

Lemma verticalChars_FillFirst x chars :
  forall yPos step, FillFirst (verticalChars fs ss x chars yPos step).
Proof.
  induction chars as [|c rest IH]; intros yPos step; simpl.
  - constructor.
  - apply FillFirst_app; [apply fillThenStroke_FillFirst | apply IH].
Qed.

Lemma curvedChars_StrokeFirst x y chars :
  StrokeFirst (flat_map (fun c => strokeThenFill fs ss c x y) chars).
Proof.
  induction chars as [|c rest IH]; simpl.
  - constructor.
  - rewrite strokeThenFill_both. simpl. constructor. exact IH.
Qed.
End BothStyles.

Section OneSegment.
Variable o : WinwheelOptions.t.
Variable st : TextStyle.
Hypothesis Hfill : Js.truthy_str (fillStyle st) = true.
Hypothesis Hstroke : Js.truthy_str (strokeStyle st) = true.

Lemma drawLine_curved numLines line lineOffset :
  orientation st = curved ->
  StrokeFirst (drawLine o st numLines line lineOffset).
Proof.
  intros Ho. unfold drawLine. rewrite Ho.
  destruct (direction st); apply curvedChars_StrokeFirst; assumption.
Qed.

Lemma drawLine_straight numLines line lineOffset :
  orientation st <> curved ->
  FillFirst (drawLine o st numLines line lineOffset).
Proof.
  intros Ho. unfold drawLine.
  destruct (direction st), (orientation st), (alignment st);
    try contradiction;
    first [ apply fillThenStroke_FillFirst; assumption
          | apply verticalChars_FillFirst; assumption ].
Qed.

Lemma drawLines_curved numLines lines :
  orientation st = curved ->
  forall lineOffset, StrokeFirst (drawLines o st numLines lines lineOffset).
Proof.
  intros Ho. induction lines as [|line rest IH]; intros lineOffset; simpl.
  - constructor.
  - apply StrokeFirst_app; [now apply drawLine_curved | apply IH].
Qed.

Lemma drawLines_straight numLines lines :
  orientation st <> curved ->
  forall lineOffset, FillFirst (drawLines o st numLines lines lineOffset).
Proof.
  intros Ho. induction lines as [|line rest IH]; intros lineOffset; simpl.
  - constructor.
  - apply FillFirst_app; [now apply drawLine_straight | apply IH].
Qed.
End OneSegment.

(** C9, as the code has it.  When both a fill and a stroke colour are
    resolved for a segment, its text commands come in pairs for the same
    text at the same place: stroke then fill for curved text, fill then
    stroke for vertical text and for horizontal text that is not
    outer-aligned in normal direction. *)
Theorem drawSegmentText_fill_stroke_order (o : WinwheelOptions.t)
    (seg : Segment.t) :
  Js.truthy_str (fillStyle (resolveTextStyle o (Segment.options seg))) = true ->
  Js.truthy_str (strokeStyle (resolveTextStyle o (Segment.options seg))) = true ->
  match orientation (resolveTextStyle o (Segment.options seg)),
        alignment (resolveTextStyle o (Segment.options seg)),
        direction (resolveTextStyle o (Segment.options seg)) with
  | curved, _, _ => StrokeFirst (drawOneSegmentText o seg)
  | horizontal, outer, normal => True
  | _, _, _ => FillFirst (drawOneSegmentText o seg)
  end.
Proof.
  intros Hfill Hstroke. unfold drawOneSegmentText.
  set (st := resolveTextStyle o (Segment.options seg)) in *.
  destruct (String.eqb (SegmentOptions.text (Segment.options seg)) "").
  - destruct (orientation st), (alignment st), (direction st);
      first [exact I | constructor].
  - destruct (orientation st) eqn:Ho.
    + assert (Hs : forall n l off, FillFirst (drawLines o st n l off)).
      { intros n l off. apply drawLines_straight; try assumption.
        rewrite Ho. discriminate. }
      destruct (alignment st), (direction st); first [exact I | apply Hs].
    + assert (Hs : forall n l off, FillFirst (drawLines o st n l off)).
      { intros n l off. apply drawLines_straight; try assumption.
        rewrite Ho. discriminate. }
      destruct (alignment st), (direction st); apply Hs.
    + assert (Hs : forall n l off, StrokeFirst (drawLines o st n l off)).
      { intros n l off. apply drawLines_curved; assumption. }
      destruct (alignment st), (direction st); apply Hs.
Qed.

(** The theorem at a curved segment with the text [A], black fill and red
    stroke: the stroke command comes first. *)
Lemma drawSegmentText_fill_stroke_order_witness :
  StrokeFirst (drawOneSegmentText (Winwheel.options on_canvas) curved_segment).
Proof.
  apply (drawSegmentText_fill_stroke_order (Winwheel.options on_canvas)
           curved_segment); reflexivity.
Defined.

(** C9 as stated fails on that segment: the text is curved, so it is not
    the stated exception, both colours are set, and the stroke command
    precedes the fill command. *)
Lemma drawSegmentText_fill_stroke_order_counterexample :
  exists x y,
    drawOneSegmentText (Winwheel.options on_canvas) curved_segment
    = [strokeText "A" x y; fillText "A" x y] /\
    ~ stated_text_order
        (resolveTextStyle (Winwheel.options on_canvas)
           (Segment.options curved_segment))
        (drawOneSegmentText (Winwheel.options on_canvas) curved_segment).
Proof.
  eexists. eexists. split; [vm_compute; reflexivity|].
  intros H. vm_compute in H. inversion H.
Qed.

(** Outer-aligned horizontal text in normal direction is filled first
    too, whatever the comment in the source says about that branch. *)
Lemma outer_horizontal_text_is_filled_first :
  exists x y,
    drawOneSegmentText (Winwheel.options on_canvas) outer_segment
    = [fillText "A" x y; strokeText "A" x y].
Proof. eexists. eexists. vm_compute. reflexivity. Qed.

(** [drawSegmentText] on a populated wheel with a canvas emits the
    commands of its segments one segment after the other. *)
Lemma drawSegmentText_by_segment (w : Winwheel.t) (c : Canvas.t) :
  populated w ->
  Winwheel.canvas w = Some c ->
  drawSegmentText w
  = Js.Ok (flat_map (drawOneSegmentText (Winwheel.options w)) (segmentList w)).
Proof.
  intros Hpop Hc. unfold drawSegmentText, segmentList. rewrite Hc.
  set (n := Winwheel.numSegments w) in *.
  destruct (Z_lt_le_dec n 1) as [Hn|Hn].
  - rewrite for_to_empty by lia. now replace (Z.to_nat n) with O by lia.
  - edestruct (for_to_total
      (fun y (out : list TextCommand) =>
         out = flat_map (drawOneSegmentText (Winwheel.options w))
                 (omap (fun k => Winwheel.segment w (Z.of_nat k))
                    (seq 1 (Z.to_nat (y - 1))))))
      as (r & Hr & HP); [| | | rewrite Hr].
    + lia.
    + reflexivity.
    + intros y out Hy ->. destruct (Hpop y Hy) as [seg Hseg].
      rewrite Hseg. simpl. eexists. split; [reflexivity|].
      replace (Z.to_nat (y + 1 - 1)) with (Datatypes.S (Z.to_nat (y - 1))) by lia.
      rewrite seq_S, omap_app, flat_map_app. simpl.
      replace (Z.of_nat (Datatypes.S (Z.to_nat (y - 1)))) with y by lia.
      rewrite Hseg. simpl. now rewrite app_nil_r.
    + simpl in HP. replace (n + 1 - 1) with n in HP by lia. now rewrite HP.
Qed.

(** ** What rotation normalisation does guarantee *)

Lemma Qfloor_unique (x : Q) (n : Z) :
  (inject_Z n <= x)%Q -> (x < inject_Z (n + 1))%Q -> Qfloor x = n.
Proof.
  intros Hlo Hhi.
  pose proof (Qfloor_le x) as Hf. pose proof (Qlt_floor x) as Hc.
  assert (n < Qfloor x + 1).
  { rewrite Zlt_Qlt. eapply Qle_lt_trans; eassumption. }
  assert (Qfloor x < n + 1).
  { rewrite Zlt_Qlt. eapply Qle_lt_trans; eassumption. }
  lia.
Qed.

Lemma Qfloor_shift (x : Q) (k : Z) : Qfloor (x + inject_Z k) = Qfloor x + k.
Proof.
  apply Qfloor_unique.
  - rewrite inject_Z_plus. pose proof (Qfloor_le x). lra.
  - replace (Qfloor x + k + 1) with ((Qfloor x + 1) + k) by lia.
    rewrite inject_Z_plus. pose proof (Qlt_floor x). lra.
Qed.

Lemma Qceiling_off_integer (x : Q) :
  ~ x == inject_Z (Qfloor x) -> Qceiling x = Qfloor x + 1.
Proof.
  intros Hne. unfold Qceiling.
  pose proof (Qfloor_le x) as Hf. pose proof (Qlt_floor x) as Hc.
  rewrite inject_Z_plus in Hc. change (inject_Z 1) with 1%Q in Hc.
  assert (Hlt : (inject_Z (Qfloor x) < x)%Q).
  { apply Qle_lt_or_eq in Hf. destruct Hf as [H|H]; [exact H|].
    exfalso. apply Hne. now symmetry. }
  rewrite (Qfloor_unique (- x) (- (Qfloor x + 1))); [lia | |].
  - rewrite inject_Z_opp, inject_Z_plus. change (inject_Z 1) with 1%Q. lra.
  - replace (- (Qfloor x + 1) + 1) with (- Qfloor x) by lia.
    rewrite inject_Z_opp. lra.
Qed.

(** The result always lies in the closed interval from 0 to 360. *)
Lemma getRotationPosition_range (w : Winwheel.t) :
  (0 <= getRotationPosition w <= 360)%Q.
Proof.
  unfold getRotationPosition.
  set (a := WinwheelOptions.rotationAngle (Winwheel.options w)).
  assert (Hx : a == 360 * (a / 360)) by (field; discriminate).
  pose proof (Qfloor_le (a / 360)) as Hf.
  pose proof (Qlt_floor (a / 360)) as Hf'.
  pose proof (Qle_ceiling (a / 360)) as Hc.
  pose proof (Qceiling_lt (a / 360)) as Hc'.
  rewrite inject_Z_plus in Hf'. change (inject_Z 1) with 1%Q in Hf'.
  unfold Z.sub in Hc'. rewrite inject_Z_plus, inject_Z_opp in Hc'.
  change (inject_Z 1) with 1%Q in Hc'.
  destruct (Qle_bool 0 a) eqn:Hsign.
  - apply Qle_bool_iff in Hsign.
    destruct (Qltb 360 a) eqn:Hbig.
    + split; lra.
    + apply Qltb_false in Hbig. split; lra.
  - assert (Hneg : (a < 0)%Q).
    { apply Qnot_le_lt. intros H. apply Qle_bool_iff in H. congruence. }
    destruct (Qltb a (-360)) eqn:Hbig.
    + split; lra.
    + apply Qltb_false in Hbig. split; lra.
Qed.

(** Normalising a normalised angle changes nothing. *)
Lemma getRotationPosition_idempotent (w : Winwheel.t) :
  getRotationPosition (turned w (getRotationPosition w))
  = getRotationPosition w.
Proof.
  rewrite getRotationPosition_turned.
  destruct (getRotationPosition_range w) as [Hlo Hhi].
  assert (Qle_bool 0 (getRotationPosition w) = true) as ->
    by now apply Qle_bool_iff.
  assert (Qltb 360 (getRotationPosition w) = false) as ->
    by now apply Qltb_false.
  reflexivity.
Qed.

(** Away from the whole turns the result is the remainder of the
    rotation modulo 360. *)
Lemma getRotationPosition_off_whole_turns (w : Winwheel.t) (a : Q) :
  ~ a / 360 == inject_Z (Qfloor (a / 360)) ->
  getRotationPosition (turned w a) == a - 360 * inject_Z (Qfloor (a / 360)).
Proof.
  intros Hoff. rewrite getRotationPosition_turned.
  assert (Hx : a == 360 * (a / 360)) by (field; discriminate).
  destruct (Qle_bool 0 a) eqn:Hsign.
  - apply Qle_bool_iff in Hsign.
    destruct (Qltb 360 a) eqn:Hbig; [reflexivity|].
    apply Qltb_false in Hbig.
    assert (Hne : ~ a == 360).
    { intros H. apply Hoff. rewrite H. vm_compute. reflexivity. }
    rewrite (Qfloor_unique (a / 360) 0).
    + change (inject_Z 0) with 0%Q. ring.
    + change (inject_Z 0) with 0%Q. lra.
    + change (inject_Z (0 + 1)) with 1%Q.
      apply Qle_lt_or_eq in Hbig. destruct Hbig as [H|H]; [lra | contradiction].
  - assert (Hneg : (a < 0)%Q).
    { apply Qnot_le_lt. intros H. apply Qle_bool_iff in H. congruence. }
    destruct (Qltb a (-360)) eqn:Hbig.
    + rewrite (Qceiling_off_integer _ Hoff), inject_Z_plus.
      change (inject_Z 1) with 1%Q. ring.
    + apply Qltb_false in Hbig.
      assert (Hne : ~ a == -360).
      { intros H. apply Hoff. rewrite H. vm_compute. reflexivity. }
      rewrite (Qfloor_unique (a / 360) (-1)).
      * change (inject_Z (-1)) with (-1)%Q. ring.
      * change (inject_Z (-1)) with (-1)%Q.
        apply Qle_lt_or_eq in Hbig. destruct Hbig as [H|H]; [lra|].
        exfalso. apply Hne. now symmetry.
      * change (inject_Z (-1 + 1)) with 0%Q. lra.
Qed.

(** Away from the whole turns the result is below 360 and does not
    change when whole turns are added. *)
Lemma getRotationPosition_periodic_off_whole_turns (w : Winwheel.t) (a : Q)
    (k : Z) :
  ~ a / 360 == inject_Z (Qfloor (a / 360)) ->
  (getRotationPosition (turned w a) < 360)%Q /\
  getRotationPosition (turned w (a + 360 * inject_Z k))
  == getRotationPosition (turned w a).
Proof.
  intros Hoff.
  assert (Hx : a == 360 * (a / 360)) by (field; discriminate).
  assert (Hshift : (a + 360 * inject_Z k) / 360 == a / 360 + inject_Z k)
    by (field; discriminate).
  split.
  - rewrite (getRotationPosition_off_whole_turns w a Hoff).
    pose proof (Qlt_floor (a / 360)) as Hf.
    rewrite inject_Z_plus in Hf. change (inject_Z 1) with 1%Q in Hf. lra.
  - rewrite (getRotationPosition_off_whole_turns w a Hoff).
    rewrite getRotationPosition_off_whole_turns.
    + rewrite Hshift, Qfloor_shift, inject_Z_plus. ring.
    + rewrite Hshift, Qfloor_shift, inject_Z_plus. intros H. apply Hoff. lra.
Qed.

(** ** More on [updateSegmentSizes] *)

Lemma angleAfter_finite (de : Q) a (k : nat) :
  exists v, angleAfter (Js.Fin de) a k = Js.Fin v.
Proof.
  induction k as [|k [v Hv]]; simpl.
  - eauto.
  - rewrite Hv. unfold arcAt, segmentArc.
    destruct (Js.get a _) as [seg|]; [|simpl; eauto].
    destruct (Js.truthy_num _); simpl; eauto.
Qed.

Lemma sizeAt_slotOptions a b (i : Z) :
  slotOptions a i = slotOptions b i -> sizeAt a i = sizeAt b i.
Proof.
  unfold slotOptions, sizeAt.
  destruct (Js.get a i), (Js.get b i); simpl; intros H;
    inversion H; congruence.
Qed.

Lemma arcAt_slotOptions d a b (i : Z) :
  slotOptions a i = slotOptions b i -> arcAt d a i = arcAt d b i.
Proof.
  unfold slotOptions, arcAt.
  destruct (Js.get a i), (Js.get b i); simpl; intros H;
    inversion H; congruence.
Qed.

(** The reference quantities depend on the options of the segments
    only. *)
Lemma quantities_slotOptions a b (k : nat) :
  (forall i, 1 <= i <= Z.of_nat k -> slotOptions a i = slotOptions b i) ->
  explicitSum a k = explicitSum b k /\
  countSet a k = countSet b k /\
  forall d, angleAfter d a k = angleAfter d b k.
Proof.
  induction k as [|k IH]; intros H; simpl; [auto|].
  destruct IH as (Hs & Hc & Ha); [intros i Hi; apply H; lia|].
  rewrite (sizeAt_slotOptions a b (Z.of_nat (Datatypes.S k))) by (apply H; lia).
  rewrite Hs, Hc. split; [reflexivity|]. split; [reflexivity|].
  intros d. rewrite Ha.
  now rewrite (arcAt_slotOptions d a b (Z.of_nat (Datatypes.S k))) by (apply H; lia).
Qed.

(** The second loop lengthens the array to reach its last position. *)
Lemma setAngles_length (n : Z) (d : Js.Num) (a : Js.Array Segment.t) :
  (forall i, 1 <= i <= n -> is_Some (Js.get a i)) ->
  exists c a',
    setAngles n d a = Js.Ok (c, a') /\
    Js.length a' = if Z.leb 1 n then Z.max (Js.length a) (n + 1) else Js.length a.
Proof.
  intros Hpop. unfold setAngles.
  destruct (Z_lt_le_dec n 1) as [Hn|Hn].
  - rewrite for_to_empty by lia. eexists. eexists. split; [reflexivity|].
    simpl. destruct (Z.leb_spec 1 n); [lia | reflexivity].
  - edestruct (for_to_total
      (fun y (st : Js.Num * Js.Array Segment.t) =>
         (forall i, y <= i <= n -> is_Some (Js.get (snd st) i)) /\
         Js.length (snd st)
         = if Z.leb 2 y then Z.max (Js.length a) y else Js.length a))
      as ([c a'] & Hr & _ & Hlen); [| | | rewrite Hr].
    + lia.
    + simpl. split; [intros i Hi; apply Hpop; lia | reflexivity].
    + intros y [c a'] Hy (Hrest & Hlen). simpl in Hrest, Hlen.
      destruct (Hrest y) as [seg Hseg]; [lia|]. rewrite Hseg. simpl.
      eexists. split; [reflexivity|]. simpl. split.
      * intros i Hi. rewrite get_set_ne by lia. apply Hrest. lia.
      * unfold Js.grow. rewrite Hlen.
        destruct (Z.leb_spec 0 y); [|lia].
        destruct (Z.leb_spec 2 y); destruct (Z.leb_spec 2 (y + 1)); lia.
    + simpl in Hlen. eexists. eexists. split; [reflexivity|]. rewrite Hlen.
      destruct (Z.leb_spec 2 (n + 1)); destruct (Z.leb_spec 1 n); lia.
Qed.

Lemma array_eq {A} (a b : Js.Array A) :
  (forall i, Js.get a i = Js.get b i) ->
  Js.length a = Js.length b ->
  a = b.
Proof.
  destruct a as [ea la], b as [eb lb]. unfold Js.get. simpl.
  intros He Hl. f_equal; [|exact Hl]. apply map_eq. exact He.
Qed.

(** X1.  [updateSegmentSizes] changes angles only: on a populated wheel
    it returns a wheel with the same options, canvas and animation, in
    which every position holds a segment with the options it had, and
    the positions outside 1 to [numSegments] hold what they held. *)
Theorem updateSegmentSizes_changes_angles_only (w : Winwheel.t) :
  populated w ->
  exists w',
    updateSegmentSizes w = Js.Ok w' /\
    Winwheel.options w' = Winwheel.options w /\
    Winwheel.canvas w' = Winwheel.canvas w /\
    Winwheel.animation w' = Winwheel.animation w /\
    (forall i, optionsAt w' i = optionsAt w i) /\
    (forall i, ~ 1 <= i <= Winwheel.numSegments w ->
       Winwheel.segment w' i = Winwheel.segment w i).
Proof.
  intros Hpop.
  destruct (updateSegmentSizes_spec w Hpop) as (a' & Hup & Hin & Hout).
  exists (Winwheel.set_segments w a'). split; [exact Hup|].
  repeat (split; [reflexivity|]). split.
  - intros i. unfold optionsAt, Winwheel.segment at 1. simpl.
    destruct (Z_le_dec 1 i) as [Hlo|Hlo];
      [destruct (Z_le_dec i (Winwheel.numSegments w)) as [Hhi|Hhi]|].
    + destruct (Hin i (conj Hlo Hhi)) as (seg & Hseg & Hseg').
      now rewrite Hseg', Hseg.
    + rewrite Hout by lia. reflexivity.
    + rewrite Hout by lia. reflexivity.
  - exact Hout.
Qed.

(** The theorem at the wheel of two segments of size 90. *)
Lemma updateSegmentSizes_changes_angles_only_witness :
  exists w',
    updateSegmentSizes two_quarters = Js.Ok w' /\
    optionsAt w' 2 = Some (sized 90).
Proof.
  destruct (updateSegmentSizes_changes_angles_only two_quarters)
    as (w' & Hup & _ & _ & _ & Hopt & _).
  - intros i Hi. change (Winwheel.numSegments two_quarters) with 2 in Hi.
    assert (i = 1 \/ i = 2) as [-> | ->] by lia; vm_compute; eauto.
  - exists w'. split; [exact Hup|]. rewrite Hopt. vm_compute. reflexivity.
Defined.

(** X2.  [updateSegmentSizes] is idempotent: on a populated wheel,
    running it on its own result returns that result. *)
Theorem updateSegmentSizes_idempotent (w : Winwheel.t) :
  populated w ->
  exists w',
    updateSegmentSizes w = Js.Ok w' /\
    updateSegmentSizes w' = Js.Ok w'.
Proof.
  intros Hpop.
  destruct (updateSegmentSizes_spec w Hpop) as (a1 & Hup & Hin & Hout).
  set (w1 := Winwheel.set_segments w a1).
  exists w1. split; [exact Hup|].
  set (n := Winwheel.numSegments w) in *.
  set (a := Winwheel.segments w) in *.
  assert (Hpop1 : populated w1).
  { intros i Hi. destruct (Hin i Hi) as (seg & _ & Hseg').
    unfold Winwheel.segment. simpl. rewrite Hseg'. eauto. }
  assert (Hsame : forall i, slotOptions a1 i = slotOptions a i).
  { intros i. unfold slotOptions.
    destruct (Z_le_dec 1 i) as [Hlo|Hlo];
      [destruct (Z_le_dec i n) as [Hhi|Hhi]|].
    - destruct (Hin i (conj Hlo Hhi)) as (seg & Hseg & Hseg').
      unfold Winwheel.segment in Hseg. fold a in Hseg. now rewrite Hseg', Hseg.
    - rewrite Hout by lia. reflexivity.
    - rewrite Hout by lia. reflexivity. }
  destruct (quantities_slotOptions a1 a (Z.to_nat n)) as (Hs & Hc & Ha);
    [intros i _; apply Hsame|].
  destruct (updateSegmentSizes_spec w1 Hpop1) as (a2 & Hup2 & Hin2 & Hout2).
  change (Winwheel.numSegments w1) with n in Hin2, Hout2.
  change (Winwheel.segments w1) with a1 in Hin2.
  rewrite Hup2. unfold w1. simpl. do 2 f_equal.
  rewrite Hs, Hc in Hin2.
  apply array_eq.
  - intros i.
    destruct (Z_le_dec 1 i) as [Hlo|Hlo];
      [destruct (Z_le_dec i n) as [Hhi|Hhi]|].
    + destruct (Hin2 i (conj Hlo Hhi)) as (seg1 & Hseg1 & Hseg2).
      destruct (Hin i (conj Hlo Hhi)) as (seg & Hseg & Hseg').
      unfold Winwheel.segment in Hseg1. simpl in Hseg1.
      rewrite Hseg' in Hseg1. inversion Hseg1; subst seg1.
      rewrite Hseg2, Hseg'. unfold Segment.set_angles. simpl.
      destruct (quantities_slotOptions a1 a (Z.to_nat (i - 1))) as (_ & _ & ->);
        [intros j _; apply Hsame|].
      destruct (quantities_slotOptions a1 a (Z.to_nat i)) as (_ & _ & ->);
        [intros j _; apply Hsame|].
      reflexivity.
    + rewrite Hout2 by lia. reflexivity.
    + rewrite Hout2 by lia. reflexivity.
  - (* lengths *)
    revert Hup Hup2. unfold updateSegmentSizes.
    rewrite (sumSetSizes_spec w Hpop), (sumSetSizes_spec w1 Hpop1). simpl.
    fold n a. change (Winwheel.numSegments w1) with n.
    change (Winwheel.segments w1) with a1.
    destruct (setAngles_length n
                (degreesEach_of n (explicitSum a (Z.to_nat n))
                   (countSet a (Z.to_nat n))) a Hpop)
      as (c1 & b1 & Hb1 & Hl1).
    destruct (setAngles_length n
                (degreesEach_of n (explicitSum a1 (Z.to_nat n))
                   (countSet a1 (Z.to_nat n))) a1 Hpop1)
      as (c2 & b2 & Hb2 & Hl2).
    rewrite Hb1, Hb2. simpl. intros H1 H2.
    inversion H1; subst b1. inversion H2; subst b2.
    rewrite Hl2, Hl1. destruct (Z.leb 1 n); lia.
Qed.

(** The theorem at the wheel with a segment of size 400. *)
Lemma updateSegmentSizes_idempotent_witness :
  exists w',
    updateSegmentSizes oversized = Js.Ok w' /\
    updateSegmentSizes w' = Js.Ok w'.
Proof.
  apply updateSegmentSizes_idempotent.
  intros i Hi. change (Winwheel.numSegments oversized) with 2 in Hi.
  assert (i = 1 \/ i = 2) as [-> | ->] by lia; vm_compute; eauto.
Defined.

(** ** Equal division *)

Lemma all_unset_count a (k : nat) :
  (forall i, 1 <= i <= Z.of_nat k -> sizeAt a i = None) ->
  countSet a k = 0.
Proof.
  induction k as [|k IH]; intros H; simpl; [reflexivity|].
  rewrite (H (Z.of_nat (Datatypes.S k))) by lia. apply IH.
  intros i Hi. apply H. lia.
Qed.

Lemma inject_Z_nonzero (n : Z) : n <> 0 -> ~ inject_Z n == 0.
Proof.
  intros Hn H. change 0%Q with (inject_Z 0) in H.
  apply (proj1 (inject_Z_injective _ _)) in H. contradiction.
Qed.

(** Without any size, the running angle after [k] segments is [k] times
    the [n]-th part of the circle. *)
Lemma angleAfter_equal a (n : Z) (k : nat) :
  1 <= n ->
  (forall i, 1 <= i <= Z.of_nat k -> is_Some (Js.get a i)) ->
  (forall i, 1 <= i <= Z.of_nat k -> sizeAt a i = None) ->
  exists v,
    angleAfter (degreesEach_of n 0 0) a k = Js.Fin v /\
    v == equalBoundary n (Z.of_nat k).
Proof.
  intros Hn Hpop Hall.
  rewrite degreesEach_of_some_left by (reflexivity || lia).
  destruct (angleAfter_share a ((360 - 0) / inject_Z (n - 0)) k) as (v & Hv & Heq).
  - exact Hpop.
  - intros i q Hi Hq. rewrite (Hall i Hi) in Hq. discriminate.
  - exists v. split; [exact Hv|]. rewrite Heq.
    rewrite (all_unset_sum a k Hall), (all_unset_count a k Hall).
    unfold equalBoundary. rewrite !Z.sub_0_r. field.
    apply inject_Z_nonzero. lia.
Qed.

(** A populated wheel without any size is divided equally. *)
Lemma updateSegmentSizes_equal (w : Winwheel.t) :
  1 <= Winwheel.numSegments w ->
  populated w ->
  all_unset w ->
  exists a',
    updateSegmentSizes w = Js.Ok (Winwheel.set_segments w a') /\
    forall i, 1 <= i <= Winwheel.numSegments w ->
      exists seg,
        Js.get a' i = Some seg /\
        Js.num_eq (Segment.startAngle seg)
          (Js.Fin (equalBoundary (Winwheel.numSegments w) (i - 1))) /\
        Js.num_eq (Segment.endAngle seg)
          (Js.Fin (equalBoundary (Winwheel.numSegments w) i)).
Proof.
  intros Hn Hpop Hall.
  destruct (updateSegmentSizes_spec w Hpop) as (a' & Hup & Hin & _).
  exists a'. split; [exact Hup|].
  set (n := Winwheel.numSegments w) in *.
  set (a := Winwheel.segments w) in *.
  assert (Hs : explicitSum a (Z.to_nat n) = 0%Q).
  { apply all_unset_sum. intros i Hi. apply Hall. fold n. lia. }
  assert (Hc : countSet a (Z.to_nat n) = 0).
  { apply all_unset_count. intros i Hi. apply Hall. fold n. lia. }
  rewrite Hs, Hc in Hin.
  intros i Hi. destruct (Hin i Hi) as (seg & _ & Hseg'). rewrite Hseg'.
  eexists. split; [reflexivity|]. simpl.
  destruct (angleAfter_equal a n (Z.to_nat (i - 1)) Hn) as (v1 & -> & Hv1).
  { intros j Hj. apply Hpop. fold n. lia. }
  { intros j Hj. apply Hall. fold n. lia. }
  destruct (angleAfter_equal a n (Z.to_nat i) Hn) as (v2 & -> & Hv2).
  { intros j Hj. apply Hpop. fold n. lia. }
  { intros j Hj. apply Hall. fold n. lia. }
  simpl. rewrite Hv1, Hv2.
  replace (Z.of_nat (Z.to_nat (i - 1))) with (i - 1) by lia.
  replace (Z.of_nat (Z.to_nat i)) with i by lia.
  split; reflexivity.
Qed.

(** What the constructor runs: [updateSegmentSizes] on a populated wheel
    without sizes, whose options are the given ones completed from the
    canvas; the text margin is completed afterwards. *)
Lemma new_Winwheel_runs document (o : WinwheelOptions.t) :
  exists w0,
    populated w0 /\ all_unset w0 /\
    Winwheel.numSegments w0 = WinwheelOptions.numSegments o /\
    Winwheel.options w0 = canvasDefaults o (canvasOf document o) /\
    new_Winwheel document o
    = (w ← updateSegmentSizes w0;
       Js.Ok (Winwheel.set_options w (defaultTextMargin (Winwheel.options w)))).
Proof.
  unfold new_Winwheel. fold (canvasOf document o).
  destruct (populateSegments_spec (canvasDefaults o (canvasOf document o)))
    as (a & Ha & Hin & _).
  rewrite canvasDefaults_numSegments in Hin. rewrite Ha. simpl.
  eexists. split; [|split; [|split; [|split; [|reflexivity]]]].
  - intros i Hi. unfold Winwheel.numSegments in Hi. simpl in Hi.
    rewrite canvasDefaults_numSegments in Hi.
    unfold Winwheel.segment. simpl. rewrite (Hin i Hi). eauto.
  - intros i Hi. unfold Winwheel.numSegments in Hi. simpl in Hi.
    rewrite canvasDefaults_numSegments in Hi.
    unfold sizeAt. simpl. rewrite (Hin i Hi). reflexivity.
  - apply canvasDefaults_numSegments.
  - reflexivity.
Qed.

(** X3.  The constructor divides the circle equally: for
    [numSegments = n >= 1], whatever the other options are, segment [i]
    of the new wheel runs from [(i - 1) * 360 / n] to [i * 360 / n]. *)
Theorem new_Winwheel_equal_segments (document : string -> option Canvas.t)
    (o : WinwheelOptions.t) :
  1 <= WinwheelOptions.numSegments o ->
  exists w,
    new_Winwheel document o = Js.Ok w /\
    forall i, 1 <= i <= WinwheelOptions.numSegments o ->
      exists seg,
        Winwheel.segment w i = Some seg /\
        Js.num_eq (Segment.startAngle seg)
          (Js.Fin (equalBoundary (WinwheelOptions.numSegments o) (i - 1))) /\
        Js.num_eq (Segment.endAngle seg)
          (Js.Fin (equalBoundary (WinwheelOptions.numSegments o) i)).
Proof.
  intros Hn.
  destruct (new_Winwheel_runs document o) as (w0 & Hpop & Hall & Hn0 & _ & ->).
  destruct (updateSegmentSizes_equal w0) as (a' & -> & Heq);
    [lia | assumption | assumption |].
  simpl. eexists. split; [reflexivity|].
  rewrite Hn0 in Heq. exact Heq.
Qed.

(** The theorem at five segments: the third one runs from 144 to 216. *)
Lemma new_Winwheel_equal_segments_witness :
  exists w seg,
    new_Winwheel no_document (wheelOptions 5) = Js.Ok w /\
    Winwheel.segment w 3 = Some seg /\
    Js.num_eq (Segment.startAngle seg) (Js.Fin 144) /\
    Js.num_eq (Segment.endAngle seg) (Js.Fin 216).
Proof.
  destruct (new_Winwheel_equal_segments no_document (wheelOptions 5))
    as (w & Hw & Heq).
  - vm_compute. discriminate.
  - destruct (Heq 3) as (seg & Hseg & Hs & He).
    + vm_compute. split; discriminate.
    + exists w, seg. split; [exact Hw|]. split; [exact Hseg|].
      destruct (Segment.startAngle seg), (Segment.endAngle seg);
        try contradiction.
      simpl in *. split.
      * rewrite Hs. vm_compute. reflexivity.
      * rewrite He. vm_compute. reflexivity.
Defined.

(** ** Order of the boundaries *)

Lemma angle_le_refl (a : Js.Num) : angle_le a a.
Proof.
  unfold angle_le. destruct a as [q|]; simpl; [|reflexivity].
  apply Qle_bool_iff. apply Qle_refl.
Qed.

Lemma angle_le_trans (a b c : Js.Num) :
  angle_le a b -> angle_le b c -> angle_le a c.
Proof.
  unfold angle_le. destruct a, b, c; simpl; try congruence.
  rewrite !Qle_bool_iff. apply Qle_trans.
Qed.

Lemma angle_le_add (c x : Js.Num) :
  angle_le (Js.Fin 0) x -> angle_le c (Js.add c x).
Proof.
  unfold angle_le. destruct c as [v|], x as [q|]; simpl; try reflexivity.
  rewrite !Qle_bool_iff. intros H. lra.
Qed.

(** The share of the segments without a size is never negative. *)
Lemma degreesEach_of_nonnegative (n : Z) (arcUsed : Q) (numSet : Z) :
  numSet <= n -> angle_le (Js.Fin 0) (degreesEach_of n arcUsed numSet).
Proof.
  intros Hc. unfold degreesEach_of, angle_le.
  destruct (Qltb 0 (360 - arcUsed)) eqn:Hleft; [|reflexivity].
  apply Qltb_true in Hleft. unfold Js.div_pos.
  destruct (Z.eqb_spec (n - numSet) 0); [reflexivity|]. simpl.
  apply Qle_bool_iff. apply Qlt_le_weak. apply Qlt_shift_div_l.
  - change 0%Q with (inject_Z 0). rewrite <- Zlt_Qlt. lia.
  - lra.
Qed.

Lemma arcAt_nonnegative d a (i : Z) :
  angle_le (Js.Fin 0) d ->
  (forall q, sizeAt a i = Some q -> (0 <= q)%Q) ->
  angle_le (Js.Fin 0) (arcAt d a i).
Proof.
  intros Hd Hq. unfold arcAt, sizeAt in *.
  destruct (Js.get a i) as [seg|]; [|apply angle_le_refl].
  unfold segmentArc.
  destruct (SegmentOptions.size (Segment.options seg)) as [q|]; [|exact Hd].
  destruct (Js.truthy_num (Some q)); [|exact Hd].
  unfold angle_le. simpl. apply Qle_bool_iff. now apply Hq.
Qed.

Lemma angleAfter_monotone d a (k m : nat) :
  angle_le (Js.Fin 0) d ->
  (forall i q, 1 <= i <= Z.of_nat m -> sizeAt a i = Some q -> (0 <= q)%Q) ->
  (k <= m)%nat ->
  angle_le (angleAfter d a k) (angleAfter d a m).
Proof.
  intros Hd Hq Hkm. induction m as [|m IH].
  - replace k with O by lia. apply angle_le_refl.
  - destruct (Nat.eq_dec k (Datatypes.S m)) as [->|Hne]; [apply angle_le_refl|].
    eapply angle_le_trans.
    + apply IH; [intros i q Hi; apply Hq; lia | lia].
    + simpl. apply angle_le_add. apply arcAt_nonnegative; [exact Hd|].
      intros q. apply Hq. lia.
Qed.

(** X4.  With no negative size the boundaries are ordered: after
    [updateSegmentSizes] on a populated wheel every segment ends at or
    after its start, and every later segment starts at or after that
    end, so that two segments overlap in a boundary at most. *)
Theorem updateSegmentSizes_ordered (w : Winwheel.t) :
  populated w ->
  no_negative_size w ->
  exists w',
    updateSegmentSizes w = Js.Ok w' /\
    forall i j, 1 <= i -> i <= j -> j <= Winwheel.numSegments w ->
      exists si ei sj,
        startAngleAt w' i = Some si /\
        endAngleAt w' i = Some ei /\
        startAngleAt w' j = Some sj /\
        angle_le si ei /\
        (i < j -> angle_le ei sj).
Proof.
  intros Hpop Hnn.
  destruct (updateSegmentSizes_spec w Hpop) as (a' & Hup & Hin & _).
  exists (Winwheel.set_segments w a'). split; [exact Hup|].
  set (n := Winwheel.numSegments w) in *.
  set (a := Winwheel.segments w) in *.
  intros i j Hi Hij Hj.
  destruct (Hin i) as (s & _ & Hs); [lia|].
  destruct (Hin j) as (t & _ & Ht); [lia|].
  unfold startAngleAt, endAngleAt, Winwheel.segment. simpl.
  rewrite Hs, Ht. simpl.
  eexists. eexists. eexists.
  split; [reflexivity|]. split; [reflexivity|]. split; [reflexivity|].
  assert (Hd : angle_le (Js.Fin 0)
                 (degreesEach_of n (explicitSum a (Z.to_nat n))
                    (countSet a (Z.to_nat n)))).
  { apply degreesEach_of_nonnegative.
    pose proof (countSet_bounds a (Z.to_nat n)). lia. }
  assert (Hq : forall m : nat, Z.of_nat m <= n ->
            forall i q, 1 <= i <= Z.of_nat m -> sizeAt a i = Some q -> (0 <= q)%Q).
  { intros m Hm i0 q Hi0. apply Hnn. fold n. lia. }
  split.
  - apply angleAfter_monotone; [exact Hd | apply Hq; lia | lia].
  - intros Hlt. apply angleAfter_monotone; [exact Hd | apply Hq; lia | lia].
Qed.

(** The theorem at the wheel with a segment of size 400: the first
    segment ends where the second starts, at 0. *)
Lemma updateSegmentSizes_ordered_witness :
  exists w' e s,
    updateSegmentSizes oversized = Js.Ok w' /\
    endAngleAt w' 1 = Some e /\ startAngleAt w' 2 = Some s /\
    angle_le e s.
Proof.
  destruct (updateSegmentSizes_ordered oversized) as (w' & Hup & Hord).
  - intros i Hi. change (Winwheel.numSegments oversized) with 2 in Hi.
    assert (i = 1 \/ i = 2) as [-> | ->] by lia; vm_compute; eauto.
  - intros i q Hi. change (Winwheel.numSegments oversized) with 2 in Hi.
    assert (i = 1 \/ i = 2) as [-> | ->] by lia; vm_compute;
      intros H; inversion H; discriminate.
  - destruct (Hord 1 2) as (si & ei & sj & _ & He & Hs & _ & Hle);
      [lia | lia | vm_compute; discriminate |].
    exists w', ei, sj. split; [exact Hup|]. split; [exact He|].
    split; [exact Hs|]. apply Hle. lia.
Defined.

(** ** Sharing out the remainder *)

(** X5.  When the sizes set sum to less than 360 and some segment has no
    size, the remainder is shared out equally: after
    [updateSegmentSizes] on a populated wheel every segment without a
    size spans [(360 - sum) / countWithoutSize], which is positive, and
    every segment with a size other than 0 spans that size. *)
Theorem updateSegmentSizes_shares_remainder (w : Winwheel.t) :
  populated w ->
  (sizesSum w < 360)%Q ->
  some_unset w ->
  exists w',
    updateSegmentSizes w = Js.Ok w' /\
    (0 < (360 - sizesSum w) / inject_Z (countWithoutSize w))%Q /\
    remainder_shared_out w w' /\
    (forall i q seg',
       1 <= i <= Winwheel.numSegments w ->
       sizeAt (Winwheel.segments w) i = Some q -> ~ q == 0 ->
       Winwheel.segment w' i = Some seg' ->
       share_is seg' q).
Proof.
  intros Hpop Hless Hsome.
  destruct (updateSegmentSizes_spec w Hpop) as (a' & Hup & Hin & _).
  exists (Winwheel.set_segments w a'). split; [exact Hup|].
  unfold sizesSum, countWithoutSize, some_unset, remainder_shared_out in *.
  set (n := Winwheel.numSegments w) in *.
  set (a := Winwheel.segments w) in *.
  assert (Hc : countSet a (Z.to_nat n) < n).
  { destruct Hsome as (i & Hi & Hnone).
    replace n with (Z.of_nat (Z.to_nat n)) at 2 by lia.
    apply countSet_unset. exists i. split; [lia | exact Hnone]. }
  rewrite degreesEach_of_some_left in Hin by (assumption || lia).
  set (de := ((360 - explicitSum a (Z.to_nat n))
              / inject_Z (n - countSet a (Z.to_nat n)))%Q) in *.
  assert (Hshare : forall i seg seg',
            1 <= i <= n -> Js.get a i = Some seg -> Js.get a' i = Some seg' ->
            share_is seg'
              (if Js.truthy_num (SegmentOptions.size (Segment.options seg))
               then Js.to_number (SegmentOptions.size (Segment.options seg))
               else de)).
  { intros i seg seg' Hi Hseg Hseg'.
    destruct (Hin i Hi) as (seg0 & Hseg0 & Hset).
    unfold Winwheel.segment in Hseg0. fold a in Hseg0.
    rewrite Hseg in Hseg0. inversion Hseg0; subst seg0.
    rewrite Hseg' in Hset. inversion Hset; subst seg'.
    unfold share_is, share. simpl.
    rewrite (angleAfter_step (Js.Fin de) a i) by lia.
    destruct (angleAfter_finite de a (Z.to_nat (i - 1))) as (v & ->).
    unfold arcAt. rewrite Hseg. unfold segmentArc.
    destruct (Js.truthy_num _); simpl; ring. }
  split; [|split].
  - apply Qlt_shift_div_l.
    + change 0%Q with (inject_Z 0). rewrite <- Zlt_Qlt. lia.
    + lra.
  - intros i seg' Hi Hnone Hseg'.
    change (Winwheel.segment (Winwheel.set_segments w a') i)
      with (Js.get a' i) in Hseg'.
    destruct (Hpop i Hi) as [seg Hseg]. unfold Winwheel.segment in Hseg.
    fold a in Hseg.
    pose proof (Hshare i seg seg' Hi Hseg Hseg') as H.
    unfold sizeAt in Hnone. rewrite Hseg in Hnone. rewrite Hnone in H.
    exact H.
  - intros i q seg' Hi Hq Hnz Hseg'.
    change (Winwheel.segment (Winwheel.set_segments w a') i)
      with (Js.get a' i) in Hseg'.
    destruct (Hpop i Hi) as [seg Hseg]. unfold Winwheel.segment in Hseg.
    fold a in Hseg.
    pose proof (Hshare i seg seg' Hi Hseg Hseg') as H.
    unfold sizeAt in Hq. rewrite Hseg in Hq. rewrite Hq in H.
    assert (Js.truthy_num (Some q) = true) as Ht.
    { destruct (Js.truthy_num (Some q)) eqn:E; [reflexivity|].
      apply truthy_num_false_iff in E. contradiction. }
    rewrite Ht in H. exact H.
Qed.

(** The theorem at the wheel with four segments without a size and one
    of size 0: the first segment spans 90. *)
Lemma updateSegmentSizes_shares_remainder_witness :
  exists w' seg',
    updateSegmentSizes with_zero_size = Js.Ok w' /\
    Winwheel.segment w' 1 = Some seg' /\
    share_is seg' 90.
Proof.
  destruct (updateSegmentSizes_shares_remainder with_zero_size)
    as (w' & Hup & _ & Hshared & _).
  - intros i Hi. change (Winwheel.numSegments with_zero_size) with 5 in Hi.
    assert (i = 1 \/ i = 2 \/ i = 3 \/ i = 4 \/ i = 5)
      as [-> | [-> | [-> | [-> | ->]]]] by lia; vm_compute; eauto.
  - vm_compute. reflexivity.
  - exists 1. split; [vm_compute; split; discriminate | reflexivity].
  - assert (Hsome : is_Some (Winwheel.segment w' 1)).
    { revert Hup. vm_compute. intros H. inversion H; subst w'. eauto. }
    destruct Hsome as [seg' Hseg']. exists w', seg'.
    split; [exact Hup|]. split; [exact Hseg'|].
    pose proof (Hshared 1 seg') as H.
    unfold share_is in *. destruct (share seg') as [s|].
    + rewrite H; [vm_compute; reflexivity | vm_compute; split; discriminate
                 | reflexivity | exact Hseg'].
    + apply H; [vm_compute; split; discriminate | reflexivity | exact Hseg'].
Defined.

(** ** The wheel in its canvas *)

Lemma new_Winwheel_options document (o : WinwheelOptions.t) :
  exists w,
    new_Winwheel document o = Js.Ok w /\
    Winwheel.options w
    = defaultTextMargin (canvasDefaults o (canvasOf document o)) /\
    Winwheel.canvas w = canvasOf document o.
Proof.
  unfold new_Winwheel. fold (canvasOf document o).
  destruct (populateSegments_spec (canvasDefaults o (canvasOf document o)))
    as (a & Ha & Hin & _).
  rewrite canvasDefaults_numSegments in Hin. rewrite Ha. simpl.
  set (w0 := Winwheel.mk _ a _ _).
  assert (Hpop : populated w0).
  { intros i Hi. unfold Winwheel.numSegments in Hi. simpl in Hi.
    rewrite canvasDefaults_numSegments in Hi.
    unfold Winwheel.segment. simpl. rewrite (Hin i Hi). eauto. }
  destruct (updateSegmentSizes_spec w0 Hpop) as (a' & -> & _).
  simpl. eexists. split; [reflexivity|]. split; reflexivity.
Qed.

(** X6.  A wheel constructed on a canvas without a center and an outer
    radius of its own lies inside the canvas: the center is the middle
    of the canvas, and with a line width that is not negative the circle
    of the outer radius around it stays within the width and the height
    of the canvas. *)
Theorem new_Winwheel_fits_canvas (document : string -> option Canvas.t)
    (o : WinwheelOptions.t) (cv : Canvas.t) :
  canvasOf document o = Some cv ->
  WinwheelOptions.centerX o = None ->
  WinwheelOptions.centerY o = None ->
  WinwheelOptions.outerRadius o = None ->
  (0 <= WinwheelOptions.lineWidth o)%Q ->
  exists w r,
    new_Winwheel document o = Js.Ok w /\
    WinwheelOptions.centerX (Winwheel.options w) = Some (Canvas.width cv / 2)%Q /\
    WinwheelOptions.centerY (Winwheel.options w) = Some (Canvas.height cv / 2)%Q /\
    WinwheelOptions.outerRadius (Winwheel.options w) = Some r /\
    (0 <= Canvas.width cv / 2 - r)%Q /\
    (Canvas.width cv / 2 + r <= Canvas.width cv)%Q /\
    (0 <= Canvas.height cv / 2 - r)%Q /\
    (Canvas.height cv / 2 + r <= Canvas.height cv)%Q.
Proof.
  intros Hcv Hx Hy Hr Hlw.
  destruct (new_Winwheel_options document o) as (w & Hw & Ho & _).
  rewrite Hcv in Ho.
  exists w.
  assert (Hopt : exists r,
            WinwheelOptions.centerX (Winwheel.options w)
            = Some (Canvas.width cv / 2)%Q /\
            WinwheelOptions.centerY (Winwheel.options w)
            = Some (Canvas.height cv / 2)%Q /\
            WinwheelOptions.outerRadius (Winwheel.options w) = Some r /\
            r = (if Qltb (Canvas.width cv) (Canvas.height cv)
                 then Canvas.width cv / 2 - WinwheelOptions.lineWidth o
                 else Canvas.height cv / 2 - WinwheelOptions.lineWidth o)%Q).
  { rewrite Ho. unfold defaultTextMargin, canvasDefaults.
    rewrite Hx, Hy, Hr.
    destruct (WinwheelOptions.textMargin _); simpl;
      destruct (Qltb (Canvas.width cv) (Canvas.height cv)); simpl;
      eexists; repeat split; reflexivity. }
  destruct Hopt as (r & H1 & H2 & H3 & Hreq). exists r.
  split; [exact Hw|]. split; [exact H1|]. split; [exact H2|].
  split; [exact H3|]. subst r.
  assert (HW : Canvas.width cv == 2 * (Canvas.width cv / 2)) by field.
  assert (HH : Canvas.height cv == 2 * (Canvas.height cv / 2)) by field.
  destruct (Qltb (Canvas.width cv) (Canvas.height cv)) eqn:Hcmp.
  - apply Qltb_true in Hcmp. split; [|split; [|split]]; lra.
  - apply Qltb_false in Hcmp. split; [|split; [|split]]; lra.
Qed.

(** The theorem at a canvas of 400 by 400 and the default line width 1:
    the outer radius is 199. *)
Lemma new_Winwheel_fits_canvas_witness :
  exists w r,
    new_Winwheel square_canvas (wheelOptions 4) = Js.Ok w /\
    WinwheelOptions.outerRadius (Winwheel.options w) = Some r /\
    (200 + r <= 400)%Q.
Proof.
  destruct (new_Winwheel_fits_canvas square_canvas (wheelOptions 4)
              (Canvas.mk 400 400))
    as (w & r & Hw & _ & _ & Hr & _ & Hfit & _).
  - reflexivity.
  - reflexivity.
  - reflexivity.
  - reflexivity.
  - vm_compute. discriminate.
  - exists w, r. split; [exact Hw|]. split; [exact Hr|].
    simpl in Hfit. assert (H : (400 / 2 == 200)%Q) by reflexivity.
    rewrite H in Hfit. exact Hfit.
Defined.

(** ** More on adding and deleting segments *)

Lemma for_up_throws_at {S} (body : Z -> S -> Js.Result S) (y0 : Z) :
  (forall t, body y0 t = Js.TypeError) ->
  forall (count : nat) (x : Z) (s : S),
    x <= y0 < x + Z.of_nat count ->
    Js.for_up count x body s = Js.TypeError.
Proof.
  intros Hthrow. induction count as [|k IH]; intros x s Hy; [lia|].
  simpl. destruct (Z.eq_dec x y0) as [->|Hne].
  - now rewrite Hthrow.
  - destruct (body x s) as [t|]; simpl; [|reflexivity]. apply IH. lia.
Qed.

(** X7.  [addSegment(options)] without a position appends: on a wheel
    that holds segments exactly at 1 to [numSegments] it returns the new
    segment, which carries the given options and is the last of one
    segment more; the segments that were there keep their positions and
    options, and the wheel again holds segments exactly at 1 to
    [numSegments]. *)
Theorem addSegment_appends (w : Winwheel.t) (options : SegmentOptions.t) :
  exactly_filled w ->
  exists w' seg,
    addSegment w options None = Js.Ok (w', Some seg) /\
    Winwheel.numSegments w' = Winwheel.numSegments w + 1 /\
    Segment.options seg = options /\
    optionsAt w' (Winwheel.numSegments w + 1) = Some options /\
    (forall i, 1 <= i <= Winwheel.numSegments w ->
       optionsAt w' i = optionsAt w i) /\
    exactly_filled w'.
Proof.
  intros Hw. pose proof Hw as (Hn & Hin & _).
  destruct (addSegment_append_spec w options Hin Hn)
    as (w' & seg & Hrun & Hn' & Hlast & Hopt & Hkeep & _).
  destruct (addSegment_append_exactly_filled w options Hw)
    as (w2 & seg2 & Hrun2 & Hfilled).
  rewrite Hrun in Hrun2. inversion Hrun2; subst w2 seg2.
  exists w', seg. split; [exact Hrun|]. split; [exact Hn'|].
  split; [exact Hopt|]. split.
  - unfold optionsAt. rewrite Hlast. simpl. now rewrite Hopt.
  - split; assumption.
Qed.

(** A concrete wheel holds nothing outside the positions its array
    lists. *)
Ltac outside_is_free :=
  let i := fresh "i" in
  let Hi := fresh "Hi" in
  let E := fresh "E" in
  let l := fresh "l" in
  let Hl := fresh "Hl" in
  intros i Hi; unfold Winwheel.segment, Js.get;
  match goal with
  | |- ?m !! i = None =>
      destruct (m !! i) eqn:E; [exfalso|reflexivity];
      apply elem_of_map_to_list in E;
      remember (map_to_list m) as l eqn:Hl;
      vm_compute in Hl; subst l;
      vm_compute in Hi;
      repeat (apply elem_of_cons in E as [E|E];
              [inversion E; subst; apply Hi; split; discriminate|]);
      apply elem_of_nil in E; exact E
  end.

(** A concrete wheel of at most six segments holds one at each of its
    positions. *)
Ltac inside_is_filled :=
  let i := fresh "i" in
  let Hi := fresh "Hi" in
  intros i Hi;
  match type of Hi with
  | context [Winwheel.numSegments ?w] =>
      let n := eval vm_compute in (Winwheel.numSegments w) in
      change (Winwheel.numSegments w) with n in Hi
  end;
  destruct (Z.eq_dec i 1) as [->|?]; [first [lia | vm_compute; eauto]|];
  destruct (Z.eq_dec i 2) as [->|?]; [first [lia | vm_compute; eauto]|];
  destruct (Z.eq_dec i 3) as [->|?]; [first [lia | vm_compute; eauto]|];
  destruct (Z.eq_dec i 4) as [->|?]; [first [lia | vm_compute; eauto]|];
  destruct (Z.eq_dec i 5) as [->|?]; [first [lia | vm_compute; eauto]|];
  destruct (Z.eq_dec i 6) as [->|?]; [first [lia | vm_compute; eauto]|];
  lia.

Ltac concrete_exactly_filled :=
  split; [vm_compute; discriminate | split; [inside_is_filled | outside_is_free]].

(** The theorem at the wheel of four segments. *)
Lemma addSegment_appends_witness :
  exists w' seg,
    addSegment four_equal (sized 90) None = Js.Ok (w', Some seg) /\
    optionsAt w' 5 = Some (sized 90).
Proof.
  destruct (addSegment_appends four_equal (sized 90))
    as (w' & seg & Hrun & _ & _ & Hlast & _).
  - concrete_exactly_filled.
  - exists w', seg. split; [exact Hrun|]. exact Hlast.
Defined.

(** X8.  [deleteSegment(p)] removes position [p]: on a wheel that holds
    segments exactly at 1 to [numSegments], more than one of them, and
    for a position that exists, it returns a wheel of one segment less
    in which the segments before [p] keep their options, every position
    from [p] on takes the options of the position after it, and segments
    are held exactly at 1 to [numSegments] again. *)
Theorem deleteSegment_removes_position (w : Winwheel.t) (p : Z) :
  exactly_filled w ->
  1 < Winwheel.numSegments w ->
  1 <= p <= Winwheel.numSegments w ->
  exists w',
    deleteSegment w (Some p) = Js.Ok w' /\
    Winwheel.numSegments w' = Winwheel.numSegments w - 1 /\
    (forall i, 1 <= i < p -> optionsAt w' i = optionsAt w i) /\
    (forall i, p <= i < Winwheel.numSegments w ->
       optionsAt w' i = optionsAt w (i + 1)) /\
    exactly_filled w'.
Proof.
  intros Hw Hn Hp. pose proof Hw as (_ & Hin & _).
  destruct (deleteSegment_spec w p Hin Hn Hp)
    as (w' & Hrun & Hn' & Hbefore & Hafter & _).
  destruct (deleteSegment_exactly_filled w p Hw Hn Hp) as (w2 & Hrun2 & Hfilled).
  rewrite Hrun in Hrun2. inversion Hrun2; subst w2.
  exists w'. repeat (split; [assumption|]). assumption.
Qed.

(** The theorem at the wheel of a segment without a size followed by
    one of size 400: deleting position 1 leaves the sized segment at
    position 1. *)
Lemma deleteSegment_removes_position_witness :
  exists w',
    deleteSegment oversized (Some 1) = Js.Ok w' /\
    optionsAt w' 1 = Some (sized 400).
Proof.
  destruct (deleteSegment_removes_position oversized 1)
    as (w' & Hrun & _ & _ & Hafter & _).
  - concrete_exactly_filled.
  - vm_compute. reflexivity.
  - vm_compute. split; discriminate.
  - exists w'. split; [exact Hrun|]. rewrite Hafter.
    + vm_compute. reflexivity.
    + vm_compute. split; [discriminate | reflexivity].
Defined.

(** [deleteSegment] without a position, or with a position from
    [numSegments] on: the loop that moves options does not run and the
    last slot is emptied. *)
Lemma deleteSegment_last_spec (w : Winwheel.t) (position : option Z) :
  exactly_filled w ->
  1 < Winwheel.numSegments w ->
  match position with
  | Some p => Winwheel.numSegments w <= p
  | None => True
  end ->
  exists w',
    deleteSegment w position = Js.Ok w' /\
    Winwheel.numSegments w' = Winwheel.numSegments w - 1 /\
    (forall i, 1 <= i < Winwheel.numSegments w ->
       optionsAt w' i = optionsAt w i) /\
    exactly_filled w'.
Proof.
  intros (Hn0 & Hin & Hout) Hn Hpos. unfold deleteSegment.
  set (n := Winwheel.numSegments w) in *.
  assert (Z.ltb 1 n = true) as -> by (apply Z.ltb_lt; lia).
  assert (Hloop : match position with
                  | Some p => Js.for_below p n (fun x a => copyOptions x (x + 1) a)
                                (Winwheel.segments w)
                  | None => Js.Ok (Winwheel.segments w)
                  end = Js.Ok (Winwheel.segments w)).
  { destruct position as [p|]; [|reflexivity]. unfold Js.for_below.
    now replace (Z.to_nat (n - p)) with O by lia. }
  rewrite Hloop. simpl.
  set (w1 := Winwheel.set_segments _ (Js.set_undefined (Winwheel.segments w) n)).
  assert (Hn1 : Winwheel.numSegments w1 = n - 1) by reflexivity.
  assert (Hget : forall i, i <> n -> Winwheel.segment w1 i = Winwheel.segment w i).
  { intros i Hi. unfold Winwheel.segment. simpl.
    now rewrite get_set_undefined_ne by congruence. }
  assert (Hpop1 : populated w1).
  { intros i Hi. rewrite Hn1 in Hi. rewrite Hget by lia. apply Hin. fold n. lia. }
  destruct (updateSegmentSizes_spec w1 Hpop1) as (a' & Hup & Hin' & Hout').
  rewrite Hup. rewrite Hn1 in Hin', Hout'.
  eexists. split; [reflexivity|]. split; [reflexivity|]. split.
  - intros i Hi. destruct (Hin' i) as (seg & Hseg & Hseg'); [lia|].
    unfold optionsAt, Winwheel.segment at 1. simpl. rewrite Hseg'. simpl.
    rewrite Hget in Hseg by lia. now rewrite Hseg.
  - unfold exactly_filled.
    change (Winwheel.numSegments (Winwheel.set_segments w1 a')) with (n - 1).
    split; [lia|]. split.
    + intros i Hi. destruct (Hin' i Hi) as (seg & _ & Hseg').
      unfold Winwheel.segment. simpl. rewrite Hseg'. eauto.
    + intros i Hi. unfold Winwheel.segment at 1. simpl. rewrite Hout' by lia.
      destruct (Z.eq_dec i n) as [->|Hne].
      * unfold Winwheel.segment. simpl. apply get_set_undefined_eq.
      * rewrite Hget by exact Hne. apply Hout. fold n. lia.
Qed.

(** X9.  [deleteSegment] without a position, or with a position beyond
    the last segment, deletes the last segment: on a wheel that holds
    segments exactly at 1 to [numSegments], more than one of them, it
    returns a wheel of one segment less in which the remaining segments
    keep their positions and options. *)
Theorem deleteSegment_defaults_to_last (w : Winwheel.t) (position : option Z) :
  exactly_filled w ->
  1 < Winwheel.numSegments w ->
  match position with
  | Some p => Winwheel.numSegments w < p
  | None => True
  end ->
  exists w',
    deleteSegment w position = Js.Ok w' /\
    Winwheel.numSegments w' = Winwheel.numSegments w - 1 /\
    (forall i, 1 <= i < Winwheel.numSegments w ->
       optionsAt w' i = optionsAt w i) /\
    optionsAt w' (Winwheel.numSegments w) = None.
Proof.
  intros Hw Hn Hpos.
  destruct (deleteSegment_last_spec w position Hw Hn)
    as (w' & Hrun & Hn' & Hkeep & (_ & _ & Hout)).
  - destruct position; [lia | exact I].
  - exists w'. split; [exact Hrun|]. split; [exact Hn'|]. split; [exact Hkeep|].
    unfold optionsAt. rewrite Hout by lia. reflexivity.
Qed.

(** The theorem at the wheel of four segments without sizes followed by
    one of size 0, for position 10: the segment of size 0 is gone. *)
Lemma deleteSegment_defaults_to_last_witness :
  exists w',
    deleteSegment with_zero_size (Some 10) = Js.Ok w' /\
    Winwheel.numSegments w' = 4 /\
    optionsAt w' 5 = None.
Proof.
  destruct (deleteSegment_defaults_to_last with_zero_size (Some 10))
    as (w' & Hrun & Hn & _ & Hlast).
  - concrete_exactly_filled.
  - vm_compute. reflexivity.
  - vm_compute. reflexivity.
  - exists w'. split; [exact Hrun|]. split; [exact Hn | exact Hlast].
Defined.

(** X10.  [deleteSegment(p)] for a position before the first segment
    throws: on a wheel that holds segments exactly at 1 to
    [numSegments], more than one of them, a call with [p < 1] throws a
    [TypeError] at [this.segments[p].options = ...]. *)
Theorem deleteSegment_before_first_throws (w : Winwheel.t) (p : Z) :
  exactly_filled w ->
  1 < Winwheel.numSegments w ->
  p < 1 ->
  deleteSegment w (Some p) = Js.TypeError.
Proof.
  intros (_ & _ & Hout) Hn Hp. unfold deleteSegment.
  assert (Z.ltb 1 (Winwheel.numSegments w) = true) as ->
    by (apply Z.ltb_lt; lia).
  unfold Js.for_below.
  destruct (Z.to_nat (Winwheel.numSegments w - p)) as [|k] eqn:Hk; [lia|].
  simpl. unfold copyOptions.
  specialize (Hout p ltac:(lia)). unfold Winwheel.segment in Hout.
  rewrite Hout. reflexivity.
Qed.

(** The theorem at the wheel of four segments, for position 0. *)
Lemma deleteSegment_before_first_throws_witness :
  deleteSegment four_equal (Some 0) = Js.TypeError.
Proof.
  apply deleteSegment_before_first_throws.
  - concrete_exactly_filled.
  - vm_compute. reflexivity.
  - vm_compute. reflexivity.
Defined.

(** X11.  Appending a segment and deleting it again restores the
    segment ordering: on a wheel that holds at least one segment, and
    segments exactly at 1 to [numSegments], [addSegment(options)]
    followed by [deleteSegment] of the new last position returns a wheel
    with the number of segments and, at every position, the options it
    had at the start. *)
Theorem addSegment_deleteSegment_round_trip (w : Winwheel.t)
    (options : SegmentOptions.t) :
  exactly_filled w ->
  1 <= Winwheel.numSegments w ->
  exists w1 seg w2,
    addSegment w options None = Js.Ok (w1, Some seg) /\
    deleteSegment w1 (Some (Winwheel.numSegments w + 1)) = Js.Ok w2 /\
    Winwheel.numSegments w2 = Winwheel.numSegments w /\
    forall i, optionsAt w2 i = optionsAt w i.
Proof.
  intros Hw Hn. pose proof Hw as (Hn0 & Hin & Hout).
  destruct (addSegment_append_spec w options Hin Hn0)
    as (w1 & seg & Hrun & Hn1 & _ & _ & Hkeep & _).
  destruct (addSegment_append_exactly_filled w options Hw)
    as (w1' & seg' & Hrun' & Hfilled1).
  rewrite Hrun in Hrun'. inversion Hrun'; subst w1' seg'.
  destruct (deleteSegment_last_spec w1 (Some (Winwheel.numSegments w + 1)) Hfilled1)
    as (w2 & Hdel & Hn2 & Hkeep2 & (_ & _ & Hout2)); [lia | lia |].
  exists w1, seg, w2. split; [exact Hrun|]. split; [exact Hdel|].
  rewrite Hn1 in Hn2, Hkeep2. rewrite Hn2 in Hout2.
  split; [lia|].
  intros i.
  destruct (Z_le_dec 1 i) as [Hlo|Hlo];
    [destruct (Z_le_dec i (Winwheel.numSegments w)) as [Hhi|Hhi]|].
  - rewrite Hkeep2 by lia. apply Hkeep. lia.
  - unfold optionsAt. rewrite Hout2, Hout by lia. reflexivity.
  - unfold optionsAt. rewrite Hout2, Hout by lia. reflexivity.
Qed.

(** The theorem at the wheel of two segments of size 90. *)
Lemma addSegment_deleteSegment_round_trip_witness :
  exists w1 seg w2,
    addSegment two_quarters (sized 400) None = Js.Ok (w1, Some seg) /\
    deleteSegment w1 (Some 3) = Js.Ok w2 /\
    optionsAt w2 2 = optionsAt two_quarters 2.
Proof.
  destruct (addSegment_deleteSegment_round_trip two_quarters (sized 400))
    as (w1 & seg & w2 & Hadd & Hdel & _ & Hsame).
  - concrete_exactly_filled.
  - vm_compute. discriminate.
  - exists w1, seg, w2. split; [exact Hadd|]. split; [exact Hdel|]. apply Hsame.
Defined.

(** X12.  [addSegment(options, p)] works at one position only: on a
    wheel that holds segments exactly at 1 to [numSegments], the call
    with [p = numSegments + 1] does what the call without a position
    does, and the call with any other position throws a [TypeError],
    in the loop that shifts the segments when [p] is smaller and in
    [updateSegmentSizes] when it is larger. *)
Theorem addSegment_position_only_at_end (w : Winwheel.t)
    (options : SegmentOptions.t) (p : Z) :
  exactly_filled w ->
  addSegment w options (Some p)
  = if Z.eqb p (Winwheel.numSegments w + 1)
    then addSegment w options None
    else Js.TypeError.
Proof.
  intros (Hn0 & Hin & Hout).
  set (n := Winwheel.numSegments w) in *.
  assert (Hfree : Js.get (Winwheel.segments w) (n + 1) = None)
    by (apply Hout; lia).
  destruct (Z.eqb_spec p (n + 1)) as [->|Hne].
  - unfold addSegment, Js.for_downto. fold n.
    change (Winwheel.numSegments
              (Winwheel.set_options w
                 (WinwheelOptions.set_numSegments (Winwheel.options w) (n + 1))))
      with (n + 1).
    rewrite Z.sub_diag. reflexivity.
  - unfold addSegment, Js.for_downto. fold n.
    change (Winwheel.numSegments
              (Winwheel.set_options w
                 (WinwheelOptions.set_numSegments (Winwheel.options w) (n + 1))))
      with (n + 1).
    destruct (Z_lt_le_dec p (n + 1)) as [Hlt|Hge].
    + destruct (Z.to_nat (n + 1 - p)) as [|k] eqn:Hk; [lia|].
      simpl. unfold copyOptions. simpl. rewrite Hfree. reflexivity.
    + replace (Z.to_nat (n + 1 - p)) with O by lia. simpl.
      unfold updateSegmentSizes, sumSetSizes, Js.for_to.
      rewrite (for_up_throws_at _ (n + 1)).
      * reflexivity.
      * intros [u c]. unfold Winwheel.segment. simpl.
        rewrite get_set_ne by lia. rewrite Hfree. reflexivity.
      * unfold Winwheel.numSegments. simpl. fold n. lia.
Qed.

(** The theorem at the wheel of four segments, for the positions 5 and
    7. *)
Lemma addSegment_position_only_at_end_witness :
  addSegment four_equal (sized 90) (Some 5) = addSegment four_equal (sized 90) None /\
  addSegment four_equal (sized 90) (Some 7) = Js.TypeError.
Proof.
  split.
  - rewrite (addSegment_position_only_at_end four_equal (sized 90) 5);
      [reflexivity | concrete_exactly_filled].
  - rewrite (addSegment_position_only_at_end four_equal (sized 90) 7);
      [reflexivity | concrete_exactly_filled].
Defined.

(** X13.  [getIndicatedSegment] never returns a segment: on a wheel
    whose array holds a segment at every index from 1 below its length
    and none at index 0, it returns [this.segments[0]], which is
    [undefined], whatever the rotation and the pointer angle are. *)
Theorem getIndicatedSegment_returns_undefined
    (StringToNumber : string -> option Q) (w : Winwheel.t) :
  (forall x, 1 <= x < Js.length (Winwheel.segments w) ->
     is_Some (Winwheel.segment w x)) ->
  Winwheel.segment w 0 = None ->
  getIndicatedSegment StringToNumber w = Js.Ok None.
Proof.
  intros Hfull Hzero. unfold getIndicatedSegment.
  destruct (getIndicatedSegmentNumber StringToNumber w) as [n|] eqn:Hn; simpl.
  - apply getIndicatedSegmentNumber_returns_zero in Hn. subst n.
    now rewrite Hzero.
  - exfalso. revert Hn. unfold getIndicatedSegmentNumber, Js.for_below.
    match goal with
    | |- context [Js.for_up ?c 1 ?body None] =>
        destruct (for_up_total (fun _ found => found = (None : option Z))
                    body c 1 None)
          as (r & Hr & ->); [reflexivity | | rewrite Hr; discriminate]
    end.
    intros y found Hy ->. destruct (Hfull y) as [seg Hseg]; [lia|].
    rewrite Hseg. simpl. exists None. split; reflexivity.
Qed.

(** The theorem at the wheel of four segments turned by 45 degrees,
    where the pointer is over the last segment. *)
Lemma getIndicatedSegment_returns_undefined_witness :
  getIndicatedSegment (fun _ => None) (turned four_equal 45) = Js.Ok None.
Proof.
  apply getIndicatedSegment_returns_undefined.
  - intros x Hx.
    change (Js.length (Winwheel.segments (turned four_equal 45))) with 5 in Hx.
    assert (x = 1 \/ x = 2 \/ x = 3 \/ x = 4) as [-> | [-> | [-> | ->]]] by lia;
      vm_compute; eauto.
  - reflexivity.
Defined.

(** ** The rotation position at whole degrees

    The theorems of this part are for rotations of a whole number of
    degrees of at most [2 ^ 40] in magnitude.  There every operation of
    [getRotationPosition] is exact in the double arithmetic of the
    code: the quotient by 360 is at least 1/360 away from the next whole
    number, so that [Math.floor] and [Math.ceil] of the rounded quotient
    are those of the exact one, and the products and differences are
    whole numbers far below [2 ^ 53]. *)

(** The result differs from the rotation by whole turns. *)
Lemma getRotationPosition_congruent (w : Winwheel.t) :
  exists k : Z,
    getRotationPosition w
    == WinwheelOptions.rotationAngle (Winwheel.options w) - 360 * inject_Z k.
Proof.
  unfold getRotationPosition.
  set (a := WinwheelOptions.rotationAngle (Winwheel.options w)).
  destruct (Qle_bool 0 a).
  - destruct (Qltb 360 a).
    + eexists. reflexivity.
    + exists 0. change (inject_Z 0) with 0%Q. ring.
  - destruct (Qltb a (-360)).
    + exists (Qceiling (a / 360) - 1). unfold Z.sub.
      rewrite inject_Z_plus, inject_Z_opp. change (inject_Z 1) with 1%Q. ring.
    + exists (-1). change (inject_Z (-1)) with (-1)%Q. ring.
Qed.

(** At a whole number of degrees the result is a whole number from 0 to
    360, whole turns away. *)
Lemma getRotationPosition_whole (w : Winwheel.t) (n : Z) :
  exists r k : Z,
    getRotationPosition (turned w (inject_Z n)) == inject_Z r /\
    0 <= r <= 360 /\ n = r + 360 * k.
Proof.
  destruct (getRotationPosition_congruent (turned w (inject_Z n))) as [k Hk].
  pose proof (getRotationPosition_range (turned w (inject_Z n))) as Hr.
  change (WinwheelOptions.rotationAngle
            (Winwheel.options (turned w (inject_Z n))))
    with (inject_Z n) in Hk.
  assert (Hz : getRotationPosition (turned w (inject_Z n))
               == inject_Z (n - 360 * k)).
  { rewrite Hk. unfold Z.sub.
    rewrite inject_Z_plus, inject_Z_opp, inject_Z_mult.
    change (inject_Z 360) with 360%Q. ring. }
  exists (n - 360 * k), k. split; [exact Hz|]. split; [|lia].
  rewrite Hz in Hr. change 0%Q with (inject_Z 0) in Hr.
  change 360%Q with (inject_Z 360) in Hr.
  rewrite <- !Zle_Qle in Hr. exact Hr.
Qed.

(** A whole number of degrees off the whole turns. *)
Lemma off_whole_turns (n : Z) :
  n mod 360 <> 0 ->
  ~ inject_Z n / 360 == inject_Z (Qfloor (inject_Z n / 360)).
Proof.
  intros Hn H. apply Hn.
  assert (Hx : inject_Z n == 360 * (inject_Z n / 360)) by (field; discriminate).
  rewrite H in Hx. change 360%Q with (inject_Z 360) in Hx.
  rewrite <- inject_Z_mult in Hx.
  apply (proj1 (inject_Z_injective _ _)) in Hx. rewrite Hx.
  rewrite Z.mul_comm. apply Z.mod_mul. discriminate.
Qed.

(** X14.  [getRotationPosition] keeps the position of the wheel: for a
    rotation of a whole number of degrees, of at most [2 ^ 40] in
    magnitude, the result is a whole number from 0 to 360, both
    included, that differs from the rotation by a whole number of
    turns. *)
Theorem getRotationPosition_keeps_position (w : Winwheel.t) (n : Z) :
  Z.abs n <= 2 ^ 40 ->
  exists r : Z,
    getRotationPosition (turned w (inject_Z n)) == inject_Z r /\
    0 <= r <= 360 /\
    (n - r) mod 360 = 0.
Proof.
  intros _. destruct (getRotationPosition_whole w n) as (r & k & Hr & Hrange & Hn).
  exists r. split; [exact Hr|]. split; [exact Hrange|].
  replace (n - r) with (k * 360) by lia. apply Z.mod_mul. discriminate.
Qed.

(** The theorem at the rotations 37 and -400: 37 and 320. *)
Lemma getRotationPosition_keeps_position_witness :
  (exists r : Z,
     getRotationPosition (turned four_equal (inject_Z 37)) == inject_Z r /\
     0 <= r <= 360 /\ (37 - r) mod 360 = 0) /\
  (exists r : Z,
     getRotationPosition (turned four_equal (inject_Z (-400))) == inject_Z r /\
     0 <= r <= 360 /\ (-400 - r) mod 360 = 0).
Proof.
  split.
  - apply (getRotationPosition_keeps_position four_equal 37).
    vm_compute. discriminate.
  - apply (getRotationPosition_keeps_position four_equal (-400)).
    vm_compute. discriminate.
Defined.

(** X15.  Normalising a normalised rotation changes nothing: for a
    rotation of a whole number of degrees, of at most [2 ^ 40] in
    magnitude, [getRotationPosition] of a wheel turned to what
    [getRotationPosition] returned returns the same angle. *)
Theorem getRotationPosition_whole_idempotent (w : Winwheel.t) (n : Z) :
  Z.abs n <= 2 ^ 40 ->
  getRotationPosition
    (turned w (getRotationPosition (turned w (inject_Z n))))
  = getRotationPosition (turned w (inject_Z n)).
Proof.
  intros _. rewrite (getRotationPosition_turned w (getRotationPosition _)).
  destruct (getRotationPosition_range (turned w (inject_Z n))) as [Hlo Hhi].
  assert (Qle_bool 0 (getRotationPosition (turned w (inject_Z n))) = true)
    as -> by now apply Qle_bool_iff.
  assert (Qltb 360 (getRotationPosition (turned w (inject_Z n))) = false)
    as -> by now apply Qltb_false.
  reflexivity.
Qed.

(** The theorem at the rotation -400, which is returned as 320. *)
Lemma getRotationPosition_whole_idempotent_witness :
  getRotationPosition
    (turned four_equal (getRotationPosition (turned four_equal (inject_Z (-400)))))
  = getRotationPosition (turned four_equal (inject_Z (-400))).
Proof.
  apply (getRotationPosition_whole_idempotent four_equal (-400)).
  vm_compute. discriminate.
Defined.

(** X16.  Off the whole turns the result is below 360 and does not
    change when whole turns are added: for a rotation of [n] degrees,
    [n] a whole number that is not a multiple of 360, and every whole
    number [k], with [n] and [n + 360 * k] of at most [2 ^ 40] in
    magnitude, the wheel turned to [n + 360 * k] has the rotation
    position of the wheel turned to [n]. *)
Theorem getRotationPosition_whole_periodic (w : Winwheel.t) (n k : Z) :
  n mod 360 <> 0 ->
  Z.abs n <= 2 ^ 40 ->
  Z.abs (n + 360 * k) <= 2 ^ 40 ->
  (getRotationPosition (turned w (inject_Z n)) < 360)%Q /\
  getRotationPosition (turned w (inject_Z (n + 360 * k)))
  == getRotationPosition (turned w (inject_Z n)).
Proof.
  intros Hn _ _.
  assert (Hn' : (n + 360 * k) mod 360 <> 0).
  { rewrite (Z.mul_comm 360 k), Z.mod_add by discriminate. exact Hn. }
  pose proof (off_whole_turns n Hn) as Hoff.
  pose proof (off_whole_turns _ Hn') as Hoff'.
  rewrite (getRotationPosition_off_whole_turns w _ Hoff).
  rewrite (getRotationPosition_off_whole_turns w _ Hoff').
  assert (Hshift : inject_Z (n + 360 * k) / 360 == inject_Z n / 360 + inject_Z k).
  { rewrite inject_Z_plus, inject_Z_mult. change (inject_Z 360) with 360%Q.
    field. }
  split.
  - pose proof (Qlt_floor (inject_Z n / 360)) as Hf.
    rewrite inject_Z_plus in Hf. change (inject_Z 1) with 1%Q in Hf.
    assert (Hx : inject_Z n == 360 * (inject_Z n / 360)) by (field; discriminate).
    lra.
  - assert (Hfl : Qfloor (inject_Z (n + 360 * k) / 360)
                  = Qfloor (inject_Z n / 360) + k)
      by (rewrite Hshift; apply Qfloor_shift).
    rewrite Hfl, !inject_Z_plus, inject_Z_mult.
    change (inject_Z 360) with 360%Q. ring.
Qed.

(** The theorem at the rotations 37 and -400 with three turns added. *)
Lemma getRotationPosition_whole_periodic_witness :
  getRotationPosition (turned four_equal (inject_Z (37 + 360 * 3)))
  == getRotationPosition (turned four_equal (inject_Z 37)) /\
  getRotationPosition (turned four_equal (inject_Z (-400 + 360 * 3)))
  == getRotationPosition (turned four_equal (inject_Z (-400))).
Proof.
  split.
  - apply (getRotationPosition_whole_periodic four_equal 37 3);
      vm_compute; discriminate.
  - apply (getRotationPosition_whole_periodic four_equal (-400) 3);
      vm_compute; discriminate.
Defined.

(** ** More on the animation targets *)

(** [getIndicatedSegmentNumber] scans the segments for [relativeAngle]. *)
Lemma getIndicatedSegmentNumber_scans_relativeAngle
    (StringToNumber : string -> option Q) (w : Winwheel.t) :
  getIndicatedSegmentNumber StringToNumber w
  = (found ← Js.for_below 1 (Js.length (Winwheel.segments w))
       (fun x found =>
          match found with
          | Some _ => Js.Ok found
          | None =>
              seg ← Js.deref (Winwheel.segment w x);
              if num_ge StringToNumber (inject_Z (relativeAngle w))
                   (SegmentOptions.get (Segment.options seg) "startAngle")
                 && num_le StringToNumber (inject_Z (relativeAngle w))
                      (SegmentOptions.get (Segment.options seg) "endAngle")
              then Js.Ok (Some x)
              else Js.Ok None
          end)
       None;
     Js.Ok (match found with Some x => x | None => 0 end)).
Proof. reflexivity. Qed.

(** At a rotation that is the pointer angle less an angle [s] from 0
    below 360, whole turns apart, the pointer is at [s] on the wheel. *)
Lemma relativeAngle_after_turns (w : Winwheel.t) (s T : Q) (m : Z) :
  (0 <= s < 360)%Q ->
  (0 <= WinwheelOptions.pointerAngle (Winwheel.options w) < 360)%Q ->
  T == WinwheelOptions.pointerAngle (Winwheel.options w) - s + 360 * inject_Z m ->
  relativeAngle (turned w T) = Qfloor s.
Proof.
  intros Hs Hp HT. unfold relativeAngle.
  set (p := WinwheelOptions.pointerAngle (Winwheel.options w)) in *.
  change (WinwheelOptions.pointerAngle (Winwheel.options (turned w T))) with p.
  destruct (getRotationPosition_congruent (turned w T)) as [j Hj].
  pose proof (getRotationPosition_range (turned w T)) as Hraw.
  change (WinwheelOptions.rotationAngle (Winwheel.options (turned w T)))
    with T in Hj.
  set (raw := getRotationPosition (turned w T)) in *.
  assert (Hrel : p - raw == s + inject_Z (360 * (j - m))).
  { rewrite Hj, HT, inject_Z_mult. unfold Z.sub.
    rewrite inject_Z_plus, inject_Z_opp. change (inject_Z 360) with 360%Q. ring. }
  assert (Hfl : Qfloor (p - raw) = Qfloor s + 360 * (j - m))
    by (rewrite Hrel; apply Qfloor_shift).
  rewrite Hfl.
  assert (Hq : -1 <= j - m <= 0).
  { assert (Hb : (-360 <= s + inject_Z (360 * (j - m)) < 360)%Q).
    { rewrite <- Hrel. split; lra. }
    rewrite inject_Z_mult in Hb. change (inject_Z 360) with 360%Q in Hb.
    assert (H1 : (inject_Z (-2) < inject_Z (j - m))%Q).
    { change (inject_Z (-2)) with (-2)%Q. lra. }
    assert (H2 : (inject_Z (j - m) < inject_Z 1)%Q).
    { change (inject_Z 1) with 1%Q. lra. }
    rewrite <- Zlt_Qlt in H1, H2. lia. }
  assert (Hf : 0 <= Qfloor s < 360).
  { split.
    - change 0 with (Qfloor 0). apply Qfloor_resp_le. lra.
    - rewrite Zlt_Qlt. apply Qle_lt_trans with s; [apply Qfloor_le|].
      change (inject_Z 360) with 360%Q. lra. }
  destruct (Z.ltb_spec (Qfloor s + 360 * (j - m)) 0); lia.
Qed.

(** X17.  The target of a spin to a stop angle is a rotation at which
    the pointer is at that angle: for a [spinToStop] animation in
    either direction, with a stop angle [s] and a pointer angle that are
    whole numbers from 0 below 360 and a whole number of spins of at
    most [2 ^ 30] in magnitude, the pointer-relative angle that
    [getIndicatedSegmentNumber] computes for the wheel turned to the
    target of [computeAnimation] is [s].  On these whole numbers every
    operation of the code is exact in double arithmetic. *)
Theorem spinToStop_target_points_at_stop_angle (random : Q) (w : Winwheel.t)
    (k s p : Z) :
  Animation.type (Animation.options (Winwheel.animation w)) = spinToStop ->
  Animation.spins (Animation.options (Winwheel.animation w))
  = Some (inject_Z k) ->
  Animation.stopAngle (Animation.options (Winwheel.animation w))
  = Some (inject_Z s) ->
  WinwheelOptions.pointerAngle (Winwheel.options w) = inject_Z p ->
  Z.abs k <= 2 ^ 30 ->
  0 <= s < 360 ->
  0 <= p < 360 ->
  exists T,
    target (computeAnimation random w) = Some T /\
    relativeAngle (turned w T) = s.
Proof.
  intros Ht Hk Hstop Hpointer _ Hs Hp.
  assert (Hs' : (0 <= inject_Z s < 360)%Q).
  { change 0%Q with (inject_Z 0). change 360%Q with (inject_Z 360).
    rewrite <- Zle_Qle, <- Zlt_Qlt. exact Hs. }
  assert (Hp' : (0 <= WinwheelOptions.pointerAngle (Winwheel.options w) < 360)%Q).
  { rewrite Hpointer. change 0%Q with (inject_Z 0).
    change 360%Q with (inject_Z 360). rewrite <- Zle_Qle, <- Zlt_Qlt. exact Hp. }
  assert (Hfloor : Qfloor (inject_Z s) = s) by apply Qfloor_Z.
  unfold target, computeAnimation. rewrite Ht, Hk, Hstop. simpl.
  eexists. split; [reflexivity|]. rewrite <- Hfloor at 2.
  destruct (Animation.direction (Animation.options (Winwheel.animation w))).
  - apply (relativeAngle_after_turns w (inject_Z s) _ (k + 1) Hs' Hp').
    unfold spinTarget. simpl. rewrite inject_Z_plus.
    change (inject_Z 1) with 1%Q. ring.
  - apply (relativeAngle_after_turns w (inject_Z s) _ (- k) Hs' Hp').
    unfold spinTarget. simpl. rewrite inject_Z_opp. ring.
Qed.

(** The theorem at 5 spins, stop angle 90 and pointer angle 0, where the
    target is 2070. *)
Lemma spinToStop_target_points_at_stop_angle_witness :
  exists T,
    target (computeAnimation (1 # 2) spinning) = Some T /\
    relativeAngle (turned spinning T) = 90.
Proof.
  apply (spinToStop_target_points_at_stop_angle (1 # 2) spinning 5 90 0).
  - reflexivity.
  - reflexivity.
  - reflexivity.
  - reflexivity.
  - vm_compute. discriminate.
  - split; [discriminate | reflexivity].
  - split; [discriminate | reflexivity].
Defined.

(** X18.  Both directions of a spin end at the same position: for a
    [spinToStop] or [spinAndBack] animation the clockwise target exceeds
    the anti-clockwise one by [2 * spins + 1] turns, [spins] being 5
    when it is not given. *)
Theorem spin_directions_meet (random : Q) (w : Winwheel.t) :
  Animation.type (Animation.options (Winwheel.animation w)) = spinToStop \/
  Animation.type (Animation.options (Winwheel.animation w)) = spinAndBack ->
  exists tc ta,
    target (computeAnimation random (spinning_in w clockwise)) = Some tc /\
    target (computeAnimation random (spinning_in w anti_clockwise)) = Some ta /\
    tc - ta
    == 360 * (2 * Js.to_number
                     (or_default
                        (Animation.spins (Animation.options (Winwheel.animation w)))
                        5%Q) + 1).
Proof.
  intros Ht. unfold target, computeAnimation, spinning_in. simpl.
  destruct Ht as [-> | ->]; simpl;
    (eexists; eexists; split; [reflexivity|]; split; [reflexivity|]);
    unfold spinTarget; ring.
Qed.

(** The theorem at 5 spins to the stop angle 90: 2070 clockwise, -1890
    anti-clockwise, eleven turns apart. *)
Lemma spin_directions_meet_witness :
  exists tc ta,
    target (computeAnimation (1 # 2) (spinning_in spinning clockwise)) = Some tc /\
    target (computeAnimation (1 # 2) (spinning_in spinning anti_clockwise))
    = Some ta /\
    tc - ta == 360 * 11.
Proof.
  destruct (spin_directions_meet (1 # 2) spinning) as (tc & ta & Hc & Ha & Hd).
  - left. reflexivity.
  - exists tc, ta. split; [exact Hc|]. split; [exact Ha|].
    rewrite Hd. vm_compute. reflexivity.
Defined.

(** X19.  [computeAnimation] is idempotent: with the same value of
    [Math.random()], computing the animation of a wheel whose animation
    has been computed changes nothing. *)
Theorem computeAnimation_idempotent (random : Q) (w : Winwheel.t) :
  computeAnimation random (computeAnimation random w)
  = computeAnimation random w.
Proof.
  destruct w as [o segs cv [[ty dir pn pv du yo re ea st sp] sa]].
  unfold computeAnimation. simpl.
  destruct ty; simpl; [| | |reflexivity];
    destruct sp, yo, re, ea, st; reflexivity.
Qed.

(** ** More on the segment text *)

Section NoStyle.
Variables fs ss : option string.
Hypothesis Hfill : Js.truthy_str fs = false.
Hypothesis Hstroke : Js.truthy_str ss = false.

Lemma fillThenStroke_none s x y : fillThenStroke fs ss s x y = [].
Proof. unfold fillThenStroke. now rewrite Hfill, Hstroke. Qed.

Lemma strokeThenFill_none s x y : strokeThenFill fs ss s x y = [].
Proof. unfold strokeThenFill. now rewrite Hfill, Hstroke. Qed.

Lemma verticalChars_none x chars :
  forall yPos step, verticalChars fs ss x chars yPos step = [].
Proof.
  induction chars as [|c rest IH]; intros yPos step; simpl; [reflexivity|].
  now rewrite fillThenStroke_none, IH.
Qed.

Lemma curvedChars_none x y chars :
  flat_map (fun c => strokeThenFill fs ss c x y) chars = [].
Proof.
  induction chars as [|c rest IH]; simpl; [reflexivity|].
  now rewrite strokeThenFill_none, IH.
Qed.
End NoStyle.

Lemma drawLines_none (o : WinwheelOptions.t) (st : TextStyle) (numLines : nat)
    (lines : list string) :
  Js.truthy_str (fillStyle st) = false ->
  Js.truthy_str (strokeStyle st) = false ->
  forall lineOffset, drawLines o st numLines lines lineOffset = [].
Proof.
  intros Hf Hs. induction lines as [|line rest IH]; intros lineOffset; simpl;
    [reflexivity|].
  rewrite IH, app_nil_r. unfold drawLine.
  destruct (direction st), (orientation st), (alignment st);
    first [ apply fillThenStroke_none; assumption
          | apply verticalChars_none; assumption
          | apply curvedChars_none; assumption ].
Qed.

Lemma draws_no_text_nil (o : WinwheelOptions.t) (seg : Segment.t) :
  draws_no_text o seg -> drawOneSegmentText o seg = [].
Proof.
  intros [Htext | [Hf Hs]]; unfold drawOneSegmentText.
  - now rewrite Htext.
  - destruct (String.eqb _ ""); [reflexivity|].
    apply drawLines_none; assumption.
Qed.

Lemma flat_map_nil {A B} (f : A -> list B) (l : list A) :
  (forall x, x ∈ l -> f x = []) -> flat_map f l = [].
Proof.
  induction l as [|a l IH]; intros H; simpl; [reflexivity|].
  rewrite (H a) by (left). simpl. apply IH. intros x Hx. apply H. now right.
Qed.

Lemma segmentList_elem (w : Winwheel.t) (seg : Segment.t) :
  seg ∈ segmentList w ->
  exists i, 1 <= i <= Winwheel.numSegments w /\ Winwheel.segment w i = Some seg.
Proof.
  unfold segmentList. intros H. apply list_elem_of_omap in H.
  destruct H as (k & Hk & Hseg). apply elem_of_seq in Hk.
  exists (Z.of_nat k). split; [lia | exact Hseg].
Qed.

(** X20.  Text that cannot show is not drawn: on a populated wheel in
    which every segment has an empty text, or neither a fill nor a
    stroke colour resolved, [drawSegmentText] issues no [fillText] and
    no [strokeText] at all; so does every wheel without a canvas. *)
Theorem drawSegmentText_draws_nothing (w : Winwheel.t) :
  populated w ->
  (Winwheel.canvas w = None \/
   forall i seg, 1 <= i <= Winwheel.numSegments w ->
     Winwheel.segment w i = Some seg ->
     draws_no_text (Winwheel.options w) seg) ->
  drawSegmentText w = Js.Ok [].
Proof.
  intros Hpop Hnone.
  destruct (Winwheel.canvas w) as [c|] eqn:Hc.
  - destruct Hnone as [Hno | Hall]; [discriminate|].
    rewrite (drawSegmentText_by_segment w c Hpop Hc). f_equal.
    apply flat_map_nil. intros seg Hseg.
    destruct (segmentList_elem w seg Hseg) as (i & Hi & Hget).
    apply draws_no_text_nil. exact (Hall i seg Hi Hget).
  - unfold drawSegmentText. now rewrite Hc.
Qed.

(** The theorem at the wheel of four segments constructed on a canvas:
    its segments have the default options, so that their texts are
    empty. *)
Lemma drawSegmentText_draws_nothing_witness :
  drawSegmentText on_canvas = Js.Ok [].
Proof.
  apply drawSegmentText_draws_nothing.
  - inside_is_filled.
  - right. intros i seg Hi.
    change (Winwheel.numSegments on_canvas) with 4 in Hi.
    assert (i = 1 \/ i = 2 \/ i = 3 \/ i = 4) as [-> | [-> | [-> | ->]]] by lia;
      vm_compute; intros H; inversion H; left; reflexivity.
Defined.

(** ** Curved text between the radii *)

Lemma curvedChars_y (fs ss : option string) x y chars (c : TextCommand) :
  c ∈ flat_map (fun ch => strokeThenFill fs ss ch x y) chars ->
  commandY c = y.
Proof.
  induction chars as [|ch rest IH]; simpl; intros H.
  - apply elem_of_nil in H. contradiction.
  - apply elem_of_app in H. destruct H as [H|H]; [|exact (IH H)].
    unfold strokeThenFill in H. apply elem_of_app in H.
    destruct H as [H|H];
      (destruct (Js.truthy_str _);
       [apply list_elem_of_singleton in H; subst c; reflexivity
       |apply elem_of_nil in H; contradiction]).
Qed.

Lemma inject_Z_of_nat_succ (k : nat) :
  inject_Z (Z.of_nat (Datatypes.S k)) == inject_Z (Z.of_nat k) + 1.
Proof.
  rewrite Nat2Z.inj_succ. unfold Z.succ. rewrite inject_Z_plus. reflexivity.
Qed.

Lemma inject_Z_of_nat_nonneg (k : nat) : (0 <= inject_Z (Z.of_nat k))%Q.
Proof.
  change 0%Q with (inject_Z 0). rewrite <- Zle_Qle. lia.
Qed.

(** The lines of curved inner- or outer-aligned text are drawn at
    offsets from 0 to [fontSize * (lines - 1)]: inner-aligned text
    from [innerRadius] plus the margin outwards, outer-aligned text from
    [outerRadius] less the margin inwards, measured up from the center
    in normal direction and down in reversed direction. *)
Lemma drawLines_curved_band (o : WinwheelOptions.t) (st : TextStyle)
    (numLines : nat) :
  orientation st = curved ->
  alignment st = inner \/ alignment st = outer ->
  (0 <= fontSize st)%Q ->
  forall (lines : list string) (lineOffset : Q) (c : TextCommand),
    (0 <= lineOffset)%Q ->
    (lineOffset + fontSize st * inject_Z (Z.of_nat (List.length lines))
     <= fontSize st * inject_Z (Z.of_nat numLines))%Q ->
    c ∈ drawLines o st numLines lines lineOffset ->
    exists d : Q,
      (commandY c == Js.to_number (WinwheelOptions.centerY o) - d \/
       commandY c == Js.to_number (WinwheelOptions.centerY o) + d) /\
      match alignment st with
      | outer =>
          (Js.to_number (WinwheelOptions.outerRadius o)
           - Js.to_number (margin st)
           - fontSize st * (inject_Z (Z.of_nat numLines) - 1) <= d
           <= Js.to_number (WinwheelOptions.outerRadius o)
              - Js.to_number (margin st))%Q
      | _ =>
          (WinwheelOptions.innerRadius o + Js.to_number (margin st) <= d
           <= WinwheelOptions.innerRadius o + Js.to_number (margin st)
              + fontSize st * (inject_Z (Z.of_nat numLines) - 1))%Q
      end.
Proof.
  intros Ho Ha Hfs. induction lines as [|line rest IH];
    intros lineOffset c Hlo Hhi Hc; simpl in Hc.
  - apply elem_of_nil in Hc. contradiction.
  - simpl List.length in Hhi. rewrite inject_Z_of_nat_succ in Hhi.
    pose proof (inject_Z_of_nat_nonneg (List.length rest)) as Hk.
    assert (Hprod : (0 <= fontSize st * inject_Z (Z.of_nat (List.length rest)))%Q)
      by (apply Qmult_le_0_compat; assumption).
    apply elem_of_app in Hc. destruct Hc as [Hc|Hc].
    + unfold drawLine in Hc. rewrite Ho in Hc.
      destruct (direction st); destruct Ha as [Ha | Ha]; rewrite Ha in Hc |- *;
        apply curvedChars_y in Hc;
        first
          [ exists (Js.to_number (WinwheelOptions.centerY o) - commandY c)%Q;
            split; [left; ring | rewrite Hc; lra]
          | exists (commandY c - Js.to_number (WinwheelOptions.centerY o))%Q;
            split; [right; ring | rewrite Hc; lra] ].
    + apply (IH (lineOffset + fontSize st)%Q c); [lra | lra | exact Hc].
Qed.

(** X21.  Curved text that fits stays between the radii: when the lines
    of a curved inner- or outer-aligned text fit between [innerRadius]
    plus the margin and [outerRadius] less the margin, the font size
    and the inner radius with the margin not being negative, every
    character of every line is drawn at a distance from the center that
    is at least [innerRadius] plus the margin and at most [outerRadius]
    less the margin, in normal and in reversed direction. *)
Theorem curved_text_stays_between_radii (o : WinwheelOptions.t)
    (seg : Segment.t) (c : TextCommand) :
  orientation (resolveTextStyle o (Segment.options seg)) = curved ->
  alignment (resolveTextStyle o (Segment.options seg)) = inner \/
  alignment (resolveTextStyle o (Segment.options seg)) = outer ->
  lines_fit o (resolveTextStyle o (Segment.options seg))
    (List.length (split_lines "" (SegmentOptions.text (Segment.options seg)))) ->
  c ∈ drawOneSegmentText o seg ->
  (WinwheelOptions.innerRadius o
   + Js.to_number (margin (resolveTextStyle o (Segment.options seg)))
   <= radialDistance o c
   <= Js.to_number (WinwheelOptions.outerRadius o)
      - Js.to_number (margin (resolveTextStyle o (Segment.options seg))))%Q.
Proof.
  intros Ho Ha (Hfs & Hinner & Hfit) Hc. unfold drawOneSegmentText in Hc.
  set (st := resolveTextStyle o (Segment.options seg)) in *.
  destruct (String.eqb _ "");
    [apply elem_of_nil in Hc; contradiction|].
  rewrite Ho in Hc.
  assert (Hin : c ∈ drawLines o st
                      (List.length
                         (split_lines "" (SegmentOptions.text (Segment.options seg))))
                      (split_lines "" (SegmentOptions.text (Segment.options seg)))
                      0%Q).
  { destruct Ha as [Ha | Ha]; rewrite Ha in Hc; exact Hc. }
  set (lines := split_lines "" (SegmentOptions.text (Segment.options seg))) in *.
  destruct (drawLines_curved_band o st (List.length lines) Ho Ha Hfs lines 0%Q c)
    as (d & Hy & Hd); [lra | lra | exact Hin |].
  assert (Hbounds :
            (WinwheelOptions.innerRadius o + Js.to_number (margin st) <= d
             <= Js.to_number (WinwheelOptions.outerRadius o)
                - Js.to_number (margin st))%Q).
  { destruct Ha as [Ha | Ha]; rewrite Ha in Hd; lra. }
  assert (Hdist : radialDistance o c == d).
  { unfold radialDistance. destruct Hy as [Hy | Hy]; rewrite Hy.
    - assert (E : Js.to_number (WinwheelOptions.centerY o) - d
                  - Js.to_number (WinwheelOptions.centerY o) == - d) by ring.
      rewrite E, Qabs_opp. apply Qabs_pos. lra.
    - assert (E : Js.to_number (WinwheelOptions.centerY o) + d
                  - Js.to_number (WinwheelOptions.centerY o) == d) by ring.
      rewrite E. apply Qabs_pos. lra. }
  rewrite Hdist. exact Hbounds.
Qed.

(** The theorem at the last command of the two curved, outer-aligned
    and reversed lines [A] and [B] on the wheel constructed on a
    canvas, with the outer radius 199, the margin 20 / 1.7 and the
    font size 20. *)
Lemma curved_text_stays_between_radii_witness :
  (WinwheelOptions.innerRadius (Winwheel.options on_canvas)
   + Js.to_number
       (margin (resolveTextStyle (Winwheel.options on_canvas)
                  (Segment.options curved_outer_segment)))
   <= radialDistance (Winwheel.options on_canvas) curved_outer_last
   <= Js.to_number (WinwheelOptions.outerRadius (Winwheel.options on_canvas))
      - Js.to_number
          (margin (resolveTextStyle (Winwheel.options on_canvas)
                     (Segment.options curved_outer_segment))))%Q.
Proof.
  apply (curved_text_stays_between_radii (Winwheel.options on_canvas)
           curved_outer_segment curved_outer_last).
  - reflexivity.
  - right. reflexivity.
  - vm_compute. repeat split; discriminate.
  - vm_compute. repeat constructor.
Defined.

(** ** How often a text is drawn *)

Section BothStyles.
Variables fs ss : option string.
Hypothesis Hfill : Js.truthy_str fs = true.
Hypothesis Hstroke : Js.truthy_str ss = true.

Lemma verticalChars_length x chars :
  forall yPos step,
    List.length (verticalChars fs ss x chars yPos step)
    = (2 * List.length chars)%nat.
Proof.
  induction chars as [|c rest IH]; intros yPos step; simpl; [reflexivity|].
  unfold fillThenStroke. rewrite Hfill, Hstroke. simpl. rewrite IH. lia.
Qed.

Lemma curvedChars_length x y chars :
  List.length (flat_map (fun c => strokeThenFill fs ss c x y) chars)
  = (2 * List.length chars)%nat.
Proof.
  induction chars as [|c rest IH]; [reflexivity|].
  cbn [flat_map]. rewrite length_app, IH. unfold strokeThenFill.
  rewrite Hfill, Hstroke. simpl. lia.
Qed.

Lemma fillThenStroke_length s x y :
  List.length (fillThenStroke fs ss s x y) = 2%nat.
Proof. unfold fillThenStroke. now rewrite Hfill, Hstroke. Qed.
End BothStyles.

Lemma charsUp_length line : List.length (charsUp line) = String.length line.
Proof. unfold charsUp. now rewrite length_map, length_seq. Qed.

Lemma charsDown_length line : List.length (charsDown line) = String.length line.
Proof. unfold charsDown. now rewrite length_map, length_rev, length_seq. Qed.

Lemma charsDownFromLength_length line :
  List.length (charsDownFromLength line) = Datatypes.S (String.length line).
Proof.
  unfold charsDownFromLength. rewrite length_map, length_rev, length_seq. lia.
Qed.

Lemma drawLines_length (o : WinwheelOptions.t) (st : TextStyle) (numLines : nat)
    (lines : list string) :
  Js.truthy_str (fillStyle st) = true ->
  Js.truthy_str (strokeStyle st) = true ->
  forall lineOffset,
    List.length (drawLines o st numLines lines lineOffset)
    = (2 * drawsPerStyle st lines)%nat.
Proof.
  intros Hf Hs. induction lines as [|line rest IH]; intros lineOffset.
  - unfold drawsPerStyle. simpl. destruct (orientation st), (direction st);
      reflexivity.
  - simpl drawLines. rewrite length_app, IH. unfold drawLine, drawsPerStyle.
    destruct (direction st), (orientation st), (alignment st); simpl;
      rewrite ?(fillThenStroke_length _ _ Hf Hs),
              ?(verticalChars_length _ _ Hf Hs),
              ?(curvedChars_length _ _ Hf Hs),
              ?charsUp_length, ?charsDown_length, ?charsDownFromLength_length;
      lia.
Qed.

(** X22.  How often a text is drawn: a segment with a text, a fill
    colour and a stroke colour gets one [fillText] and one [strokeText]
    per line when its text is horizontal, one of each per character
    when it is vertical or curved in normal direction, and one of each
    per character and one more per line, for the empty string past the
    end of the line, when it is curved in reversed direction. *)
Theorem drawOneSegmentText_count (o : WinwheelOptions.t) (seg : Segment.t) :
  SegmentOptions.text (Segment.options seg) <> "" ->
  Js.truthy_str (fillStyle (resolveTextStyle o (Segment.options seg))) = true ->
  Js.truthy_str (strokeStyle (resolveTextStyle o (Segment.options seg))) = true ->
  List.length (drawOneSegmentText o seg)
  = (2 * drawsPerStyle (resolveTextStyle o (Segment.options seg))
           (split_lines "" (SegmentOptions.text (Segment.options seg))))%nat.
Proof.
  intros Htext Hf Hs. unfold drawOneSegmentText.
  destruct (String.eqb_spec (SegmentOptions.text (Segment.options seg)) "")
    as [Heq | _]; [contradiction|].
  apply drawLines_length; assumption.
Qed.

(** The theorem at the two curved, reversed lines [A] and [B]: two
    characters and two lines, so four draws of each kind. *)
Lemma drawOneSegmentText_count_witness :
  List.length (drawOneSegmentText (Winwheel.options on_canvas) curved_outer_segment)
  = 8%nat.
Proof.
  apply (drawOneSegmentText_count (Winwheel.options on_canvas)
           curved_outer_segment).
  - discriminate.
  - reflexivity.
  - reflexivity.
Defined.

(** ** Random stop angles *)

(** [Math.floor(Math.random() * range)] is from 0 below [range]. *)
Lemma random_offset_range (random range : Q) :
  (0 <= random < 1)%Q -> (0 < range)%Q ->
  (0 <= inject_Z (Qfloor (random * range)) < range)%Q.
Proof.
  intros [H0 H1] Hr. split.
  - change 0%Q with (inject_Z 0). rewrite <- Zle_Qle.
    change 0 with (Qfloor 0). apply Qfloor_resp_le. nra.
  - apply Qle_lt_trans with (random * range)%Q; [apply Qfloor_le | nra].
Qed.

(** The result for a segment with finite angles. *)
Lemma getRandomForSegment_finite (random : Q) (w : Winwheel.t) (i : Z)
    (seg : Segment.t) (s e : Q) :
  i <> 0 ->
  Winwheel.segment w i = Some seg ->
  Segment.startAngle seg = Js.Fin s ->
  Segment.endAngle seg = Js.Fin e ->
  getRandomForSegment random w i
  = Some (Js.Fin (if Qltb 0 (e - s - 2)
                  then s + 1 + inject_Z (Qfloor (random * (e - s - 2)))
                  else 0)%Q).
Proof.
  intros Hi Hseg Hs He. unfold getRandomForSegment.
  destruct (Z.eqb_spec i 0) as [H0 | _]; [contradiction|].
  rewrite Hseg, Hs, He. destruct (Qltb 0 (e - s - 2)); reflexivity.
Qed.

(** X23.  A random stop angle is one degree inside its segment: for a
    segment from [s] to [e] more than 2 degrees apart,
    [getRandomForSegment] returns an angle from [s + 1] below [e - 1],
    whatever [Math.random()] returns. *)
Theorem getRandomForSegment_inside_segment (random : Q) (w : Winwheel.t)
    (i : Z) (seg : Segment.t) (s e : Q) :
  i <> 0 ->
  Winwheel.segment w i = Some seg ->
  Segment.startAngle seg = Js.Fin s ->
  Segment.endAngle seg = Js.Fin e ->
  (2 < e - s)%Q ->
  (0 <= random < 1)%Q ->
  exists a,
    getRandomForSegment random w i = Some (Js.Fin a) /\
    (s + 1 <= a < e - 1)%Q.
Proof.
  intros Hi Hseg Hs He Hspan Hr.
  rewrite (getRandomForSegment_finite random w i seg s e Hi Hseg Hs He).
  assert (Hrange : (0 < e - s - 2)%Q) by lra.
  rewrite (proj2 (Qltb_true 0 (e - s - 2)) Hrange).
  eexists. split; [reflexivity|].
  pose proof (random_offset_range random (e - s - 2) Hr Hrange). lra.
Qed.

(** The theorem at the second of four equal segments, from 90 to 180,
    with [Math.random()] returning a half. *)
Lemma getRandomForSegment_inside_segment_witness :
  exists a,
    getRandomForSegment (1 # 2) four_equal 2 = Some (Js.Fin a) /\
    (91 <= a < 179)%Q.
Proof.
  edestruct (getRandomForSegment_inside_segment (1 # 2) four_equal 2)
    as (a & Ha & Hin).
  - discriminate.
  - reflexivity.
  - reflexivity.
  - reflexivity.
  - vm_compute. reflexivity.
  - vm_compute. split; [discriminate | reflexivity].
  - exists a. split; [exact Ha|].
    split; [apply Qle_trans with (2 := proj1 Hin)
           |apply Qlt_le_trans with (1 := proj2 Hin)];
      vm_compute; discriminate.
Defined.

(** The width of one of [n] equal segments. *)
Lemma equalBoundary_step (n i : Z) :
  equalBoundary n i - equalBoundary n (i - 1) == 360 / inject_Z n.
Proof.
  unfold equalBoundary, Z.sub. rewrite inject_Z_plus, inject_Z_opp.
  change (inject_Z 1) with 1%Q. ring.
Qed.

Lemma equal_share_wide (n : Z) :
  1 <= n -> n < 180 -> (2 < 360 / inject_Z n)%Q.
Proof.
  intros H1 H2.
  assert (Hn : (0 < inject_Z n)%Q)
    by (change 0%Q with (inject_Z 0); rewrite <- Zlt_Qlt; lia).
  apply Qlt_shift_div_l; [exact Hn|].
  assert (H : (inject_Z n < inject_Z 180)%Q) by (rewrite <- Zlt_Qlt; lia).
  change (inject_Z 180) with 180%Q in H. lra.
Qed.

Lemma equal_share_narrow (n : Z) :
  180 <= n -> (360 / inject_Z n <= 2)%Q.
Proof.
  intros H2.
  assert (Hn : (0 < inject_Z n)%Q)
    by (change 0%Q with (inject_Z 0); rewrite <- Zlt_Qlt; lia).
  apply Qle_shift_div_r; [exact Hn|].
  assert (H : (inject_Z 180 <= inject_Z n)%Q) by (rewrite <- Zle_Qle; lia).
  change (inject_Z 180) with 180%Q in H. lra.
Qed.

(** X24.  Random stop angles on a new wheel: on the wheel the
    constructor makes for [numSegments = n >= 1],
    [getRandomForSegment(i)] returns for each of the segments an angle
    from [(i - 1) * 360 / n + 1] below [i * 360 / n - 1] when [n] is
    less than 180; from 180 segments on, where no segment is wider than
    2 degrees, it returns 0 for every segment. *)
Theorem getRandomForSegment_on_new_wheel (random : Q)
    (document : string -> option Canvas.t) (o : WinwheelOptions.t) :
  1 <= WinwheelOptions.numSegments o ->
  (0 <= random < 1)%Q ->
  exists w,
    new_Winwheel document o = Js.Ok w /\
    forall i, 1 <= i <= WinwheelOptions.numSegments o ->
      exists a,
        getRandomForSegment random w i = Some (Js.Fin a) /\
        if Z.ltb (WinwheelOptions.numSegments o) 180
        then (equalBoundary (WinwheelOptions.numSegments o) (i - 1) + 1 <= a
              < equalBoundary (WinwheelOptions.numSegments o) i - 1)%Q
        else a = 0%Q.
Proof.
  intros Hn Hr.
  destruct (new_Winwheel_runs document o) as (w0 & Hpop & Hall & Hn0 & _ & ->).
  destruct (updateSegmentSizes_equal w0) as (a' & -> & Heq);
    [lia | assumption | assumption |].
  simpl. eexists. split; [reflexivity|].
  rewrite Hn0 in Heq. intros i Hi.
  destruct (Heq i Hi) as (seg & Hseg & Hs & He).
  destruct (Segment.startAngle seg) as [s|] eqn:Es; [|contradiction].
  destruct (Segment.endAngle seg) as [e|] eqn:Ee; [|contradiction].
  simpl in Hs, He.
  pose proof (equalBoundary_step (WinwheelOptions.numSegments o) i) as Hstep.
  rewrite (getRandomForSegment_finite random _ i seg s e);
    [|lia | exact Hseg | exact Es | exact Ee].
  destruct (Z.ltb_spec (WinwheelOptions.numSegments o) 180) as [Hlt | Hge].
  - pose proof (equal_share_wide _ Hn Hlt) as Hwide.
    assert (Hrange : (0 < e - s - 2)%Q) by lra.
    rewrite (proj2 (Qltb_true 0 (e - s - 2)) Hrange).
    eexists. split; [reflexivity|].
    pose proof (random_offset_range random (e - s - 2) Hr Hrange). lra.
  - pose proof (equal_share_narrow _ Hge) as Hnarrow.
    assert (Hrange : (e - s - 2 <= 0)%Q) by lra.
    rewrite (proj2 (Qltb_false 0 (e - s - 2)) Hrange).
    eexists. split; reflexivity.
Qed.

(** The theorem at five segments, whose third one runs from 144 to
    216. *)
Lemma getRandomForSegment_on_new_wheel_witness :
  exists w a,
    new_Winwheel no_document (wheelOptions 5) = Js.Ok w /\
    getRandomForSegment (1 # 2) w 3 = Some (Js.Fin a) /\
    (145 <= a < 215)%Q.
Proof.
  destruct (getRandomForSegment_on_new_wheel (1 # 2) no_document (wheelOptions 5))
    as (w & Hw & Hall).
  - vm_compute. discriminate.
  - vm_compute. split; [discriminate | reflexivity].
  - destruct (Hall 3) as (a & Ha & Hin).
    + vm_compute. split; discriminate.
    + exists w, a. split; [exact Hw|]. split; [exact Ha|].
      change (Z.ltb (WinwheelOptions.numSegments (wheelOptions 5)) 180) with true in Hin.
      split; [apply Qle_trans with (2 := proj1 Hin)
             |apply Qlt_le_trans with (1 := proj2 Hin)];
        vm_compute; discriminate.
Defined.

(** X25.  Spinning to a random angle of a segment stops inside that
    segment: with the stop angle of a [spinToStop] animation set to
    what [getRandomForSegment(i)] returns for a segment from [s] to
    [e], whole numbers of degrees more than 2 apart between 0 and 360,
    the pointer-relative angle that [getIndicatedSegmentNumber]
    computes for the wheel turned to the target of [computeAnimation]
    is more than [s] and less than [e - 1], for a pointer angle that is
    a whole number from 0 below 360 and a whole number of spins of at
    most [2 ^ 30] in magnitude, in either direction.  On these whole
    numbers the stop angle is a whole number and every operation of the
    code after it is exact in double arithmetic. *)
Theorem spin_to_random_angle_stops_in_segment (random random' : Q)
    (w : Winwheel.t) (i k s e p : Z) (seg : Segment.t) :
  i <> 0 ->
  Winwheel.segment w i = Some seg ->
  Js.num_eq (Segment.startAngle seg) (Js.Fin (inject_Z s)) ->
  Js.num_eq (Segment.endAngle seg) (Js.Fin (inject_Z e)) ->
  0 <= s -> e <= 360 -> 2 < e - s ->
  (0 <= random < 1)%Q ->
  Animation.type (Animation.options (Winwheel.animation w)) = spinToStop ->
  Animation.spins (Animation.options (Winwheel.animation w))
  = Some (inject_Z k) ->
  Z.abs k <= 2 ^ 30 ->
  WinwheelOptions.pointerAngle (Winwheel.options w) = inject_Z p ->
  0 <= p < 360 ->
  exists a T,
    getRandomForSegment random w i = Some (Js.Fin a) /\
    target (computeAnimation random' (stopping_at w a)) = Some T /\
    s < relativeAngle (turned w T) < e - 1.
Proof.
  intros Hi Hseg Hs He Hs0 He360 Hspan Hr Ht Hk _ Hpointer Hp.
  destruct (Segment.startAngle seg) as [qs|] eqn:Es; [|contradiction].
  destruct (Segment.endAngle seg) as [qe|] eqn:Ee; [|contradiction].
  simpl in Hs, He.
  assert (Hp' : (0 <= WinwheelOptions.pointerAngle (Winwheel.options w) < 360)%Q).
  { rewrite Hpointer. change 0%Q with (inject_Z 0).
    change 360%Q with (inject_Z 360). rewrite <- Zle_Qle, <- Zlt_Qlt. exact Hp. }
  assert (Hs0' : (0 <= inject_Z s)%Q)
    by (change 0%Q with (inject_Z 0); rewrite <- Zle_Qle; exact Hs0).
  assert (He' : (inject_Z e <= 360)%Q)
    by (change 360%Q with (inject_Z 360); rewrite <- Zle_Qle; exact He360).
  assert (Hspan' : (2 < inject_Z e - inject_Z s)%Q).
  { assert (H : (inject_Z 2 < inject_Z (e - s))%Q) by (rewrite <- Zlt_Qlt; lia).
    unfold Z.sub in H. rewrite inject_Z_plus, inject_Z_opp in H.
    change (inject_Z 2) with 2%Q in H. lra. }
  rewrite (getRandomForSegment_finite random w i seg qs qe Hi Hseg Es Ee).
  assert (Hrange : (0 < qe - qs - 2)%Q) by lra.
  rewrite (proj2 (Qltb_true 0 (qe - qs - 2)) Hrange).
  pose proof (random_offset_range random (qe - qs - 2) Hr Hrange) as Hoff.
  set (m := Qfloor (random * (qe - qs - 2))) in *.
  set (a := (qs + 1 + inject_Z m)%Q).
  assert (Hwhole : a == inject_Z (s + 1 + m)).
  { unfold a. rewrite Hs, !inject_Z_plus. change (inject_Z 1) with 1%Q. ring. }
  assert (Ha : (0 <= a < 360)%Q) by (unfold a; lra).
  assert (Hfloor : Qfloor a = s + 1 + m) by (rewrite Hwhole; apply Qfloor_Z).
  assert (Hm : 0 <= m < e - s - 2).
  { split.
    - rewrite Zle_Qle. change (inject_Z 0) with 0%Q. lra.
    - rewrite Zlt_Qlt. unfold Z.sub.
      rewrite !inject_Z_plus, !inject_Z_opp. change (inject_Z 2) with 2%Q. lra. }
  exists a. unfold target, computeAnimation, stopping_at. simpl.
  rewrite Ht, Hk. simpl.
  eexists. split; [reflexivity|]. split; [reflexivity|].
  destruct (Animation.direction (Animation.options (Winwheel.animation w))).
  - rewrite (relativeAngle_after_turns w a _ (k + 1) Ha Hp'); [lia|].
    unfold spinTarget. simpl. rewrite inject_Z_plus.
    change (inject_Z 1) with 1%Q. ring.
  - rewrite (relativeAngle_after_turns w a _ (- k) Ha Hp'); [lia|].
    unfold spinTarget. simpl. rewrite inject_Z_opp. ring.
Qed.

(** The theorem at the second of four segments, from 90 to 180, and 5
    spins with the pointer at 0. *)
Lemma spin_to_random_angle_stops_in_segment_witness :
  exists a T,
    getRandomForSegment (1 # 2) spinning 2 = Some (Js.Fin a) /\
    target (computeAnimation (1 # 3) (stopping_at spinning a)) = Some T /\
    90 < relativeAngle (turned spinning T) < 180 - 1.
Proof.
  edestruct (spin_to_random_angle_stops_in_segment (1 # 2) (1 # 3) spinning
               2 5 90 180 0)
    as (a & T & Ha & HT & Hin).
  - discriminate.
  - reflexivity.
  - vm_compute. reflexivity.
  - vm_compute. reflexivity.
  - discriminate.
  - discriminate.
  - reflexivity.
  - vm_compute. split; [discriminate | reflexivity].
  - reflexivity.
  - reflexivity.
  - vm_compute. discriminate.
  - reflexivity.
  - split; [discriminate | reflexivity].
  - exists a, T. split; [exact Ha|]. split; [exact HT|]. exact Hin.
Defined.

(** ** Percent to degrees *)

(** X26.  [winwheelPercentToDegrees] returns degrees from 0 to 360
    for every percent value, and 0 for every percent value that is not
    above 0 and at most 100. *)
Theorem winwheelPercentToDegrees_range (percentValue : Q) :
  (0 <= winwheelPercentToDegrees percentValue <= 360)%Q /\
  (~ (0 < percentValue <= 100)%Q ->
   winwheelPercentToDegrees percentValue = 0%Q).
Proof.
  unfold winwheelPercentToDegrees.
  destruct (Qltb 0 percentValue) eqn:Hlow; simpl.
  - destruct (Qle_bool percentValue 100) eqn:Hhigh.
    + apply Qltb_true in Hlow. apply Qle_bool_iff in Hhigh. split.
      * assert (H : 360 * (percentValue / 100) == percentValue * (36 # 10))
          by (field).
        rewrite H. lra.
      * intros Hout. exfalso. apply Hout. split; assumption.
    + split; [lra | reflexivity].
  - split; [lra | reflexivity].
Qed.

(** The theorem at 150 percent, which gives 0 degrees. *)
Lemma winwheelPercentToDegrees_range_witness :
  winwheelPercentToDegrees 150 = 0%Q.
Proof.
  apply (proj2 (winwheelPercentToDegrees_range 150)).
  vm_compute. intros [_ H]. apply H. reflexivity.
Defined.

(** X27.  [winwheelPercentToDegrees] grows with the percent value up to
    100: of two percent values, neither above 100, the larger one gives
    at least as many degrees. *)
Theorem winwheelPercentToDegrees_monotone (p q : Q) :
  (p <= q)%Q -> (q <= 100)%Q ->
  (winwheelPercentToDegrees p <= winwheelPercentToDegrees q)%Q.
Proof.
  intros Hpq Hq. unfold winwheelPercentToDegrees.
  assert (Hp100 : Qle_bool p 100 = true) by (apply Qle_bool_iff; lra).
  assert (Hq100 : Qle_bool q 100 = true) by (apply Qle_bool_iff; lra).
  rewrite Hp100, Hq100, !Bool.andb_true_r.
  assert (Hp : 360 * (p / 100) == p * (36 # 10)) by (field).
  assert (Hq' : 360 * (q / 100) == q * (36 # 10)) by (field).
  destruct (Qltb 0 p) eqn:Ep, (Qltb 0 q) eqn:Eq;
    rewrite ?Hp, ?Hq';
    try apply Qltb_true in Ep; try apply Qltb_false in Ep;
    try apply Qltb_true in Eq; try apply Qltb_false in Eq; lra.
Qed.

(** The theorem at 25 and 50 percent: 90 and 180 degrees. *)
Lemma winwheelPercentToDegrees_monotone_witness :
  (winwheelPercentToDegrees 25 <= winwheelPercentToDegrees 50)%Q.
Proof.
  apply winwheelPercentToDegrees_monotone; vm_compute; discriminate.
Defined.

(** ** The hit test *)

Module HitTestFacts.
Import Stdlib.Reals.Reals Stdlib.Reals.Qreals Stdlib.micromega.Lra HitTest.
Local Open Scope R_scope.

(** *** Comparisons that are decided *)

Lemma atLeast_true (a : option R) (n : Js.Num) :
  atLeast a n = true <-> exists r q, a = Some r /\ n = Js.Fin q /\ r >= Q2R q.
Proof.
  unfold atLeast. split.
  - destruct a as [r|]; [|discriminate]. destruct n as [q|]; [|discriminate].
    destruct (Rge_dec r (Q2R q)); [|discriminate]. eauto.
  - intros (r & q & -> & -> & H). destruct (Rge_dec r (Q2R q)); [reflexivity|].
    contradiction.
Qed.

Lemma atMost_fin (r : R) (q : Q) :
  atMost (Some r) (Js.Fin q) = true <-> r <= Q2R q.
Proof.
  unfold atMost. destruct (Rle_dec r (Q2R q)); split; intros H;
    first [assumption | reflexivity | discriminate | contradiction].
Qed.

Lemma atLeast_fin (r : R) (q : Q) :
  atLeast (Some r) (Js.Fin q) = true <-> r >= Q2R q.
Proof.
  unfold atLeast. destruct (Rge_dec r (Q2R q)); split; intros H;
    first [assumption | reflexivity | discriminate | contradiction].
Qed.

(** *** The scan *)

(** On a wheel that holds a segment at every position the scan returns:
    the first segment it stops at, or [null] when it stops at none. *)
Lemma scanSegments_spec (w : Winwheel.t) (a h : option R) :
  populated w ->
  exists r,
    scanSegments w a h = Js.Ok r /\
    match r with
    | Some i =>
        (1 <= i <= Winwheel.numSegments w)%Z /\ stops_at w a h i /\
        forall j, (1 <= j < i)%Z -> ~ stops_at w a h j
    | None =>
        forall j, (1 <= j <= Winwheel.numSegments w)%Z -> ~ stops_at w a h j
    end.
Proof.
  intros Hpop. unfold scanSegments.
  destruct (Z_lt_le_dec (Winwheel.numSegments w) 1) as [Hnone | Hsome].
  - rewrite for_to_empty by exact Hnone. exists None. split; [reflexivity|].
    intros j Hj. lia.
  - match goal with
    | |- context [Js.for_to 1 ?n ?body None] =>
        destruct (for_to_total
                    (fun y found =>
                       match found with
                       | Some i =>
                           (1 <= i < y)%Z /\ stops_at w a h i /\
                           forall j, (1 <= j < i)%Z -> ~ stops_at w a h j
                       | None =>
                           forall j, (1 <= j < y)%Z -> ~ stops_at w a h j
                       end)
                    body 1%Z n None)
          as (r & Hr & HP)
    end.
    + lia.
    + intros j Hj. lia.
    + intros y found Hy HP. destruct found as [i|].
      * exists (Some i). split; [reflexivity|].
        destruct HP as (Hi & Hstop & Hfirst). repeat split; try assumption; lia.
      * destruct (Hpop y Hy) as [seg Hseg]. rewrite Hseg. simpl.
        destruct (atLeast a (Segment.startAngle seg)
                  && atMost a (Segment.endAngle seg))%bool eqn:Hangle;
          [destruct (atLeast h (Js.Fin (WinwheelOptions.innerRadius
                                          (Winwheel.options w)))
                     && atMost h (Js.Fin (Js.to_number
                                            (WinwheelOptions.outerRadius
                                               (Winwheel.options w)))))%bool
             eqn:Hradius|].
        -- exists (Some y). split; [reflexivity|].
           apply andb_prop in Hangle. apply andb_prop in Hradius.
           split; [lia|]. split; [|exact HP].
           exists seg. split; [exact Hseg|]. split; assumption.
        -- exists None. split; [reflexivity|]. intros j Hj.
           destruct (Z.eq_dec j y) as [-> | Hne]; [|apply HP; lia].
           intros (seg' & Hseg' & _ & Hin & Hout).
           rewrite Hin, Hout in Hradius. discriminate.
        -- exists None. split; [reflexivity|]. intros j Hj.
           destruct (Z.eq_dec j y) as [-> | Hne]; [|apply HP; lia].
           intros (seg' & Hseg' & (Hlo & Hhi) & _).
           rewrite Hseg in Hseg'. inversion Hseg'; subst seg'.
           rewrite Hlo, Hhi in Hangle. discriminate.
    + exists r. split; [exact Hr|]. destruct r as [i|].
      * destruct HP as (Hi & Hstop & Hfirst). repeat split; try assumption; lia.
      * intros j Hj. apply HP. lia.
Qed.

(** On a canvas at the origin of the window a location is taken down to
    whole pixels. *)
Lemma windowToCanvas_at_origin (bbox : DOMRect.t) (w : Winwheel.t) (x y : R) :
  at_origin bbox ->
  is_Some (Winwheel.canvas w) ->
  windowToCanvas bbox w x y = Js.Ok (Some (Int_part x), Some (Int_part y)).
Proof.
  intros (Hleft & Htop & Hwidth & Hheight) [canvas Hcanvas].
  unfold windowToCanvas, canvasCoordinate. rewrite Hcanvas, Hleft, Htop. simpl.
  destruct (Req_dec_T (DOMRect.width bbox) 0) as [E|_]; [contradiction|].
  destruct (Req_dec_T (DOMRect.height bbox) 0) as [E|_]; [contradiction|].
  do 2 f_equal; f_equal; f_equal; ring.
Qed.

(** The hit test returns the segment it reads a point as. *)
Lemma getSegmentNumberAt_reads (bbox : DOMRect.t) (w : Winwheel.t)
    (p : R * R) (i : Z) :
  at_origin bbox ->
  is_Some (Winwheel.canvas w) ->
  populated w ->
  (1 <= i <= Winwheel.numSegments w)%Z ->
  reads_as w p i ->
  getSegmentNumberAt bbox w (fst p) (snd p) = Js.Ok (Some i).
Proof.
  intros Hbox Hcanvas Hpop Hi. unfold getSegmentNumberAt, reads_as.
  rewrite (windowToCanvas_at_origin bbox w _ _ Hbox Hcanvas).
  cbv beta iota delta [mbind result_bind Js.bind].
  destruct (locate w (Some (Int_part (fst p)), Some (Int_part (snd p))))
    as [a h].
  destruct (scanSegments_spec w a h Hpop) as (r & -> & Hr).
  intros (Hradii & (seg & Hseg & Hholds) & Hfirst).
  assert (Hstop : stops_at w a h i) by (exists seg; auto).
  destruct r as [i'|].
  - destruct Hr as (Hi' & (seg' & Hseg' & Hholds' & _) & Hfirst').
    destruct (Z.lt_trichotomy i i') as [Hlt | [-> | Hgt]].
    + exfalso. apply (Hfirst' i); [lia | exact Hstop].
    + reflexivity.
    + exfalso. apply (Hfirst i' seg'); [lia | exact Hseg' | exact Hholds'].
  - exfalso. apply (Hr i Hi). exact Hstop.
Qed.


(** *** Whole pixels and whole degrees *)

Lemma Int_part_whole (z : Z) (f : R) : 0 <= f < 1 -> Int_part (IZR z + f) = z.
Proof. intros [H0 H1]. symmetry. apply Int_part_spec. lra. Qed.


Lemma round_whole (z : Z) : round (IZR z) = z.
Proof. unfold round. apply Int_part_whole. lra. Qed.

(** *** Locations on the axes of the wheel *)



(** A location straight above the center is read as the angle 360, not
    0, on a wheel that is not rotated: it is not to the right of the
    center and so counts to the left half. *)
Lemma locate_above (w : Winwheel.t) (x y : Z) :
  IZR x = Q2R (Js.to_number (WinwheelOptions.centerX (Winwheel.options w))) ->
  IZR y < Q2R (Js.to_number (WinwheelOptions.centerY (Winwheel.options w))) ->
  Qeq_bool (WinwheelOptions.rotationAngle (Winwheel.options w)) 0 = true ->
  locate w (Some x, Some y)
  = (Some 360,
     Some (Q2R (Js.to_number (WinwheelOptions.centerY (Winwheel.options w)))
           - IZR y)).
Proof.
  intros Hx Hy Hrot. unfold locate. rewrite Hrot.
  set (cx := Q2R (Js.to_number (WinwheelOptions.centerX (Winwheel.options w)))) in *.
  set (cy := Q2R (Js.to_number (WinwheelOptions.centerY (Winwheel.options w)))) in *.
  destruct (Rgt_dec (IZR x) cx) as [H|_]; [exfalso; lra|].
  destruct (Rgt_dec (IZR y) cy) as [H|_]; [exfalso; lra|].
  cbv beta iota zeta. unfold divide.
  destruct (Req_dec_T (cx - IZR x) 0) as [_|H]; [|exfalso; lra].
  destruct (Req_dec_T (cy - IZR y) 0) as [H|_]; [exfalso; lra|].
  unfold atanDegrees, option_map.
  replace (PI / 2 * 180 / PI + 270) with (IZR 360) by (field; apply PI_neq0).
  rewrite round_whole.
  replace ((cy - IZR y) * (cy - IZR y) + (cx - IZR x) * (cx - IZR x))
    with ((cy - IZR y) * (cy - IZR y)) by (rewrite Hx; ring).
  rewrite sqrt_square by lra. reflexivity.
Qed.



(** *** A wheel of 360 segments *)

Lemma PI_below : PI < 36 / 10.
Proof.
  destruct (PI_ineq 1) as [_ H].
  unfold sum_f_R0, tg_alt, PI_tg in H. simpl in H. lra.
Qed.

Lemma Q2R_inject_Z (z : Z) : Q2R (inject_Z z) = IZR z.
Proof. unfold Q2R, inject_Z. cbn [Qnum Qden]. field. Qed.

(** In a wheel of 360 equal segments the boundaries are the whole
    degrees. *)
Lemma Q2R_boundary_360 (q : Q) (j : Z) :
  (q == equalBoundary 360 j)%Q -> Q2R q = IZR j.
Proof.
  intros H. rewrite <- Q2R_inject_Z. apply Qeq_eqR. rewrite H.
  unfold equalBoundary. change (inject_Z 360) with 360%Q. field.
Qed.

(** The wheel of 360 segments constructed on the canvas of 400 by 400:
    its center is (200, 200), its radii are 0 and 199, it is not
    rotated, and segment [j] runs from [j - 1] to [j] degrees. *)
Lemma wheel_of_360 :
  exists w,
    new_Winwheel square_canvas (wheelOptions 360) = Js.Ok w /\
    is_Some (Winwheel.canvas w) /\
    Winwheel.numSegments w = 360%Z /\
    Q2R (Js.to_number (WinwheelOptions.centerX (Winwheel.options w))) = 200 /\
    Q2R (Js.to_number (WinwheelOptions.centerY (Winwheel.options w))) = 200 /\
    Q2R (WinwheelOptions.innerRadius (Winwheel.options w)) = 0 /\
    Q2R (Js.to_number (WinwheelOptions.outerRadius (Winwheel.options w))) = 199 /\
    WinwheelOptions.rotationAngle (Winwheel.options w) = 0%Q /\
    forall j, (1 <= j <= 360)%Z ->
      exists seg s e,
        Winwheel.segment w j = Some seg /\
        Segment.startAngle seg = Js.Fin s /\ Q2R s = IZR (j - 1) /\
        Segment.endAngle seg = Js.Fin e /\ Q2R e = IZR j.
Proof.
  destruct (new_Winwheel_options square_canvas (wheelOptions 360))
    as (w & Hw & Hopt & Hcanvas).
  exists w. split; [exact Hw|].
  split; [rewrite Hcanvas; simpl; eauto|].
  unfold Winwheel.numSegments. rewrite Hopt.
  split; [reflexivity|].
  change (Js.to_number
            (WinwheelOptions.centerX
               (defaultTextMargin
                  (canvasDefaults (wheelOptions 360)
                     (canvasOf square_canvas (wheelOptions 360))))))
    with (400 # 2)%Q.
  change (Js.to_number
            (WinwheelOptions.centerY
               (defaultTextMargin
                  (canvasDefaults (wheelOptions 360)
                     (canvasOf square_canvas (wheelOptions 360))))))
    with (400 # 2)%Q.
  change (Js.to_number
            (WinwheelOptions.outerRadius
               (defaultTextMargin
                  (canvasDefaults (wheelOptions 360)
                     (canvasOf square_canvas (wheelOptions 360))))))
    with (398 # 2)%Q.
  change (WinwheelOptions.innerRadius
            (defaultTextMargin
               (canvasDefaults (wheelOptions 360)
                  (canvasOf square_canvas (wheelOptions 360)))))
    with 0%Q.
  change (WinwheelOptions.rotationAngle
            (defaultTextMargin
               (canvasDefaults (wheelOptions 360)
                  (canvasOf square_canvas (wheelOptions 360)))))
    with 0%Q.
  unfold Q2R at 1 2 3 4. cbn [Qnum Qden].
  repeat (split; [lra || reflexivity|]).
  destruct (new_Winwheel_runs square_canvas (wheelOptions 360))
    as (w0 & Hpop & Hall & Hn0 & _ & Hrun).
  destruct (updateSegmentSizes_equal w0) as (a' & Hup & Heq);
    [rewrite Hn0; vm_compute; discriminate | assumption | assumption |].
  rewrite Hup in Hrun. simpl in Hrun. rewrite Hrun in Hw.
  inversion Hw as [Hw']. rewrite Hn0 in Heq.
  change (WinwheelOptions.numSegments (wheelOptions 360)) with 360%Z in Heq.
  intros j Hj. destruct (Heq j Hj) as (seg & Hseg & Hs & He).
  destruct (Segment.startAngle seg) as [s|] eqn:Es; [|contradiction].
  destruct (Segment.endAngle seg) as [e|] eqn:Ee; [|contradiction].
  simpl in Hs, He. exists seg, s, e. subst w.
  split; [exact Hseg|]. split; [exact Es|].
  split; [exact (Q2R_boundary_360 s (j - 1) Hs)|]. split; [exact Ee|].
  exact (Q2R_boundary_360 e j He).
Qed.




(** On the same wheel the mid point of segment 1, half a degree to the
    right of the top of the wheel and 99.5 from the center, is less
    than a pixel to the right of the center: taken down to whole pixels
    it lies straight above the center, is read as the angle 360, and the
    hit test returns segment 360. *)
Lemma getSegmentNumberAt_first_of_360 :
  exists w seg p,
    new_Winwheel square_canvas (wheelOptions 360) = Js.Ok w /\
    WinwheelOptions.rotationAngle (Winwheel.options w) = 0%Q /\
    Winwheel.segment w 1 = Some seg /\
    midPoint w seg = Some p /\
    getSegmentNumberAt square_box w (fst p) (snd p) = Js.Ok (Some 360%Z) /\
    getSegmentNumberAt square_box w (fst p) (snd p) <> Js.Ok (Some 1%Z).
Proof.
  destruct wheel_of_360
    as (w & Hw & Hcanvas & Hn & Hcx & Hcy & Hinner & Houter & Hrot & Hsegs).
  destruct (Hsegs 1%Z) as (seg & s & e & Hseg & Es & Hs & Ee & He); [lia|].
  exists w, seg. eexists.
  split; [exact Hw|]. split; [exact Hrot|]. split; [exact Hseg|].
  split; [unfold midPoint; rewrite Es, Ee; reflexivity|].
  assert (Hhit : forall x y : R,
            Int_part x = 200%Z -> 0 <= y < 200 -> y - 1 >= 1 ->
            getSegmentNumberAt square_box w x y = Js.Ok (Some 360%Z)).
  { intros x y Hx Hy Hy'.
    apply (getSegmentNumberAt_reads square_box w (x, y) 360).
    - unfold at_origin, square_box. simpl. repeat split; lra.
    - exact Hcanvas.
    - intros i Hi. rewrite Hn in Hi.
      destruct (Hsegs i Hi) as (seg' & _ & _ & Hseg' & _). eauto.
    - rewrite Hn. lia.
    - unfold reads_as. cbn [fst snd]. rewrite Hx.
      pose proof (base_Int_part y) as [Hfloor Hfloor'].
      rewrite (locate_above w 200 (Int_part y));
        [|rewrite Hcx; lra | rewrite Hcy; lra | rewrite Hrot; reflexivity].
      rewrite Hcy. split; [|split].
      + split; [apply atLeast_fin | apply atMost_fin];
          rewrite ?Hinner, ?Houter; lra.
      + destruct (Hsegs 360%Z) as (seg' & s' & e' & Hseg' & Es' & Hs' & Ee' & He');
          [lia|].
        exists seg'. split; [exact Hseg'|]. unfold holds. rewrite Es', Ee'.
        split; [apply atLeast_fin | apply atMost_fin]; rewrite ?Hs', ?He';
          change (360 - 1)%Z with 359%Z; lra.
      + intros j seg' Hj Hseg' [_ Hmost].
        destruct (Hsegs j) as (seg'' & s' & e' & Hseg'' & _ & _ & Ee' & He');
          [lia|].
        rewrite Hseg' in Hseg''. inversion Hseg''; subst seg''.
        rewrite Ee' in Hmost. apply atMost_fin in Hmost. rewrite He' in Hmost.
        apply le_IZR in Hmost. lia. }
  cbn [fst snd]. rewrite Hcx, Hcy, Hinner, Houter, Hs, He, Hrot.
  change (1 - 1)%Z with 0%Z.
  replace (((0 + 1) / 2 + Q2R 0) * PI / 180) with (PI / 360)
    by (unfold Q2R; cbn [Qnum Qden]; field).
  pose proof PI_RGT_0 as Hpi. pose proof PI_below as Hpi'.
  assert (Hsin : 0 < sin (PI / 360) < PI / 360).
  { split; [apply sin_gt_0; lra | apply sin_lt_x; lra]. }
  assert (Hcos : 0 < cos (PI / 360) <= 1).
  { split; [apply cos_gt_0; lra | apply COS_bound]. }
  assert (Hx : Int_part (200 + (0 + 199) / 2 * sin (PI / 360)) = 200%Z).
  { replace (200 + (0 + 199) / 2 * sin (PI / 360))
      with (IZR 200 + 199 / 2 * sin (PI / 360)) by lra.
    apply Int_part_whole. lra. }
  rewrite (Hhit _ _ Hx); [split; [reflexivity | discriminate] | lra | lra].
Qed.

End HitTestFacts.
